(** * livegrep: the code search core ([codesearch.cc])

    A shallow embedding of the corpus builder ([code_searcher::update_stats])
    and of the per-chunk searcher ([searcher]) of [codesearch.cc], with the
    properties of the specification stated over it.

    Bytes are integers in [0, 256); a pointer into a chunk is a pair of the
    chunk's index in the allocator and a byte offset; a [search_file *] is
    the file's dense number [no], an index into [files_]. *)

From stdpp Require Import gmap strings list fin_maps sorting.
From Stdlib Require Import ZArith Lia.
From Stdlib Require OrderedTypeEx.

Local Open Scope Z_scope.

(** ** Constants of [codesearch.cc] *)

Definition kContextLines : nat := 3.
Definition kMinSkip : Z := 250.
Definition kMinFilterRatio : Z := 50.
Definition kMaxScan : Z := 2 ^ 20.

(** The byte ['\n']. *)
Definition NL : Z := 10.

(** The command line flags the core reads. *)
Record flags := Flags {
  FLAGS_index : bool;
  FLAGS_search : bool;
  FLAGS_max_matches : Z;
  FLAGS_timeout : Z
}.

Definition default_flags : flags :=
  {| FLAGS_index := true; FLAGS_search := true;
     FLAGS_max_matches := 50; FLAGS_timeout := 1 |}.

(** ** Byte strings: [memchr], [memrchr], [count] *)

(** [memchr s c]: offset of the first [c] in the bytes [s]. *)
Fixpoint memchr (s : list Z) (c : Z) : option nat :=
  match s with
  | [] => None
  | b :: s' => if decide (b = c) then Some 0%nat else S <$> memchr s' c
  end.

(** [memrchr s c]: offset of the last [c] in the bytes [s]. *)
Fixpoint memrchr (s : list Z) (c : Z) : option nat :=
  match s with
  | [] => None
  | b :: s' =>
      match memrchr s' c with
      | Some i => Some (S i)
      | None => if decide (b = c) then Some 0%nat else None
      end
  end.

(** [std::count] over a byte range. *)
Definition count (s : list Z) (c : Z) : nat :=
  length (filter (λ b, b = c) s).

(** The bytes [s[from, to)]; empty when [to <= from]. *)
Definition slice (s : list Z) (from to : Z) : list Z :=
  take (Z.to_nat (to - from)) (drop (Z.to_nat from) s).

(** ** Data model *)

(** A pointer: the chunk it points into and the byte offset in that
    chunk's [data]. *)
Definition ptr : Type := nat * Z.

Definition ptr_add (p : ptr) (n : Z) : ptr := (p.1, p.2 + n).

(** Pointer order.  Chunks are disjoint arenas; the order among them, here
    the order of their indices, does not change whether a pointer lies
    inside a piece. *)
Definition ptr_le (p q : ptr) : bool :=
  bool_decide (p.1 < q.1)%nat || (bool_decide (p.1 = q.1) && bool_decide (p.2 ≤ q.2)).

Record StringPiece := mkSP { sp_data : ptr; sp_size : Z }.

Global Instance StringPiece_eq_dec : EqDecision StringPiece.
Proof. solve_decision. Defined.

Definition git_oid : Type := list Z.

Record git_path := mkPath { gp_ref : string; gp_path : string }.

Global Instance git_path_eq_dec : EqDecision git_path.
Proof. solve_decision. Defined.

Record search_file := mkSF {
  sf_paths : list git_path;
  sf_oid : git_oid;
  sf_no : nat;
  sf_content : list StringPiece
}.

(** A [chunk_file]: the span [left, right] of a chunk and the files (by
    number) that own it. *)
Record chunk_file := mkCF {
  cf_files : list nat;
  cf_left : Z;
  cf_right : Z
}.

(** A node of the chunk-file tree. *)
Inductive chunk_file_node :=
| CFNil
| CFNode (cf : chunk_file) (left right : chunk_file_node) (right_limit : Z).

Record chunk := mkChunk {
  data : list Z;
  files : list chunk_file;
  cur_file : list chunk_file;
  suffixes : list Z;
  cf_root : chunk_file_node
}.

(** [chunk->size]: the bytes of the chunk in use. *)
Definition size (c : chunk) : Z := Z.of_nat (length (data c)).

Definition empty_chunk : chunk :=
  {| data := []; files := []; cur_file := []; suffixes := []; cf_root := CFNil |}.

Record stats := mkStats {
  st_bytes : Z; st_dedup_bytes : Z;
  st_lines : Z; st_dedup_lines : Z;
  st_files : Z; st_dedup_files : Z
}.

Definition chunk_allocator : Type := list chunk.

Record code_searcher := mkCS {
  stats_ : stats;
  alloc_ : chunk_allocator;
  finalized_ : bool;
  files_ : list search_file;
  file_map_ : gmap git_oid nat;
  lines_ : gmap (list Z) StringPiece
}.

(** The constructor; the allocator starts with one empty chunk. *)
Definition new_code_searcher : code_searcher :=
  {| stats_ := mkStats 0 0 0 0 0 0; alloc_ := [empty_chunk]; finalized_ := false;
     files_ := []; file_map_ := ∅; lines_ := ∅ |}.

(** ** The chunk allocator and the per-chunk file records *)

Section Corpus.

(** The capacity of a chunk ([chunk.h]). *)
Variable kChunkSize : Z.

(** The content hash of a blob ([git_object_id], libgit2). *)
Variable git_object_id : list Z → git_oid.

(** Modelled from the spec: [chunk_allocator::current_chunk], absent from the
    sources; the chunk allocations are currently served from. *)
Definition current_chunk (a : chunk_allocator) : nat := (length a - 1)%nat.

(** Modelled from the spec: [chunk_allocator::alloc], absent from the sources.
    It hands out the next [n] bytes of the current chunk and rolls to a new
    chunk when the request does not fit; the bytes are zero until written. *)
Definition alloc (a : chunk_allocator) (n : Z) : ptr * chunk_allocator :=
  let cur := default empty_chunk (last a) in
  let a1 := if bool_decide (a = []) || bool_decide (kChunkSize < size cur + n)
            then a ++ [empty_chunk] else a in
  let id := current_chunk a1 in
  let c := default empty_chunk (last a1) in
  let c' := mkChunk (data c ++ replicate (Z.to_nat n) 0) (files c) (cur_file c)
                    (suffixes c) (cf_root c) in
  ((id, size c), <[id := c']> a1).

(** Modelled from the spec: [chunk_allocator::chunk_from_string], absent from
    the sources; the chunk a pointer points into. *)
Definition chunk_from_string (a : chunk_allocator) (p : ptr) : nat := p.1.

(** Writing [bs] at offset [off] of a byte buffer. *)
Definition write_bytes (d : list Z) (off : Z) (bs : list Z) : list Z :=
  take (Z.to_nat off) d ++ bs ++ drop (Z.to_nat off + length bs) d.

(** [memcpy(dst, bs, |bs|)] into chunk memory. *)
Definition memcpy (a : chunk_allocator) (dst : ptr) (bs : list Z) : chunk_allocator :=
  match a !! dst.1 with
  | Some c => <[dst.1 := mkChunk (write_bytes (data c) dst.2 bs) (files c) (cur_file c)
                                (suffixes c) (cf_root c)]> a
  | None => a
  end.

(** Modelled from the spec: [chunk::add_chunk_file], absent from the sources.
    The span of the line includes its terminator, so [right] is the offset of
    the line's ['\n']; the open record of the file is extended when the line
    starts right after it, and a new record is opened otherwise. *)
Definition add_chunk_file (sf : nat) (line : StringPiece) (c : chunk) : chunk :=
  let l := (sp_data line).2 in
  let r := l + sp_size line in
  match cur_file c with
  | cf :: rest =>
      if bool_decide (cf_files cf = [sf]) && bool_decide (cf_right cf + 1 = l)
      then mkChunk (data c) (files c) (mkCF [sf] (cf_left cf) r :: rest)
                   (suffixes c) (cf_root c)
      else mkChunk (data c) (files c) (mkCF [sf] l r :: cf :: rest)
                   (suffixes c) (cf_root c)
  | [] => mkChunk (data c) (files c) [mkCF [sf] l r] (suffixes c) (cf_root c)
  end.

(** Modelled from the spec: [chunk::finish_file], absent from the sources; the
    records opened for the blob are closed, in the order they were opened. *)
Definition finish_file (c : chunk) : chunk :=
  mkChunk (data c) (files c ++ reverse (cur_file c)) [] (suffixes c) (cf_root c).

(** ** Ingestion: [code_searcher::update_stats] *)

Definition set_stats (cs : code_searcher) (s : stats) : code_searcher :=
  mkCS s (alloc_ cs) (finalized_ cs) (files_ cs) (file_map_ cs) (lines_ cs).

Definition set_alloc_ (cs : code_searcher) (a : chunk_allocator) : code_searcher :=
  mkCS (stats_ cs) a (finalized_ cs) (files_ cs) (file_map_ cs) (lines_ cs).

Definition set_files_ (cs : code_searcher) (fs : list search_file) : code_searcher :=
  mkCS (stats_ cs) (alloc_ cs) (finalized_ cs) fs (file_map_ cs) (lines_ cs).

Definition set_file_map_ (cs : code_searcher) (m : gmap git_oid nat) : code_searcher :=
  mkCS (stats_ cs) (alloc_ cs) (finalized_ cs) (files_ cs) m (lines_ cs).

Definition set_lines_ (cs : code_searcher) (m : gmap (list Z) StringPiece) : code_searcher :=
  mkCS (stats_ cs) (alloc_ cs) (finalized_ cs) (files_ cs) (file_map_ cs) m.

(** [sf->paths.push_back(p)] *)
Definition push_path (p : git_path) (sf : search_file) : search_file :=
  mkSF (sf_paths sf ++ [p]) (sf_oid sf) (sf_no sf) (sf_content sf).

(** The tail of the loop body: the line is appended to [sf->content], joined
    to the last piece when that piece ends where the line begins. *)
Definition append_content (line : StringPiece) (sf : search_file) : search_file :=
  match last (sf_content sf) with
  | Some back =>
      if bool_decide (ptr_add (sp_data back) (sp_size back) = sp_data line)
      then mkSF (sf_paths sf) (sf_oid sf) (sf_no sf)
             (removelast (sf_content sf) ++
                [mkSP (sp_data back)
                      ((sp_data line).2 - (sp_data back).2 + sp_size line)])
      else mkSF (sf_paths sf) (sf_oid sf) (sf_no sf) (sf_content sf ++ [line])
  | None => mkSF (sf_paths sf) (sf_oid sf) (sf_no sf) (sf_content sf ++ [line])
  end.

(** One turn of the [while] loop of [update_stats], for the line [bytes] of
    file number [sf]. *)
Definition ingest_line (sf : nat) (bytes : list Z) (cs : code_searcher) : code_searcher :=
  let len := Z.of_nat (length bytes) in
  let '(line, c, cs1) :=
    match lines_ cs !! bytes with
    | None =>
        let s := stats_ cs in
        let s' := mkStats (st_bytes s) (st_dedup_bytes s + (len + 1))
                          (st_lines s) (st_dedup_lines s + 1)
                          (st_files s) (st_dedup_files s) in
        let '(p, a1) := alloc (alloc_ cs) (len + 1) in
        let a2 := memcpy a1 p (bytes ++ [NL]) in
        let line := mkSP p len in
        (line, current_chunk a2,
         set_lines_ (set_alloc_ (set_stats cs s') a2) (<[bytes := line]> (lines_ cs)))
    | Some line => (line, chunk_from_string (alloc_ cs) (sp_data line), cs)
    end in
  let cs2 := set_alloc_ cs1 (alter (add_chunk_file sf line) c (alloc_ cs1)) in
  let cs3 := set_files_ cs2 (alter (append_content line) sf (files_ cs2)) in
  let s := stats_ cs3 in
  set_stats cs3 (mkStats (st_bytes s) (st_dedup_bytes s) (st_lines s + 1)
                         (st_dedup_lines s) (st_files s) (st_dedup_files s)).

(** The [while ((f = memchr(p, '\n', end - p)) != 0)] loop; [p] is the offset
    of the read pointer in the blob.  Every turn moves [p] forward, so
    [length blob] turns are enough. *)
Fixpoint ingest_loop (fuel : nat) (blob : list Z) (p : nat) (sf : nat)
    (cs : code_searcher) : code_searcher :=
  match fuel with
  | O => cs
  | S fuel' =>
      match memchr (drop p blob) NL with
      | None => cs
      | Some k =>
          ingest_loop fuel' blob (p + k + 1) sf
            (ingest_line sf (take k (drop p blob)) cs)
      end
  end.

Definition update_stats (cs : code_searcher) (ref path : string) (blob : list Z)
    : code_searcher :=
  let len := Z.of_nat (length blob) in
  match memchr blob 0 with
  | Some _ => cs
  | None =>
      let s := stats_ cs in
      let cs := set_stats cs (mkStats (st_bytes s + len) (st_dedup_bytes s)
                                (st_lines s) (st_dedup_lines s)
                                (st_files s + 1) (st_dedup_files s)) in
      let oid := git_object_id blob in
      match file_map_ cs !! oid with
      | Some sit =>
          set_files_ cs (alter (push_path (mkPath ref path)) sit (files_ cs))
      | None =>
          let s := stats_ cs in
          let cs := set_stats cs (mkStats (st_bytes s) (st_dedup_bytes s)
                                    (st_lines s) (st_dedup_lines s)
                                    (st_files s) (st_dedup_files s + 1)) in
          let no := length (files_ cs) in
          let sf := mkSF [mkPath ref path] oid no [] in
          let cs := set_files_ cs (files_ cs ++ [sf]) in
          let cs := set_file_map_ cs (<[oid := no]> (file_map_ cs)) in
          let cs := ingest_loop (length blob) blob 0 no cs in
          set_alloc_ cs (finish_file <$> alloc_ cs)
      end
  end.

(** What identifies a file: its paths, hash and number. *)
Definition file_view (sf : search_file) : list git_path * git_oid * nat :=
  (sf_paths sf, sf_oid sf, sf_no sf).

(** An ingestion request: the ref, the path and the bytes of the blob. *)
Definition blob_entry : Type := string * string * list Z.

Definition ingest_all (cs : code_searcher) (l : list blob_entry) : code_searcher :=
  foldl (λ cs e, update_stats cs e.1.1 e.1.2 e.2) cs l.

(** The paths under which content of hash [oid] was ingested, in order. *)
Definition paths_with (oid : git_oid) (l : list blob_entry) : list git_path :=
  (λ e : blob_entry, mkPath e.1.1 e.1.2) <$>
    filter (λ e : blob_entry, (0 ∉ e.2) ∧ git_object_id (e.2) = oid) l.

(** The file map and the file table after the requests [l]. *)
Record corpus_inv (l : list blob_entry) (cs : code_searcher) : Prop := {
  inv_file : ∀ no v, (file_view <$> files_ cs) !! no = Some v →
    v.2 = no ∧ file_map_ cs !! v.1.2 = Some no ∧ v.1.1 = paths_with v.1.2 l;
  inv_map : ∀ oid no, file_map_ cs !! oid = Some no →
    ∃ v, (file_view <$> files_ cs) !! no = Some v ∧ v.1.2 = oid;
  inv_seen : ∀ e, e ∈ l → 0 ∉ e.2 → is_Some (file_map_ cs !! git_object_id e.2)
}.

End Corpus.

(** ** Reading chunk memory *)

(** The chunk with index [c]; chunks that do not exist read as empty. *)
Definition get_chunk (a : chunk_allocator) (c : nat) : chunk :=
  default empty_chunk (a !! c).

(** The [n] bytes at pointer [p]. *)
Definition read (a : chunk_allocator) (p : ptr) (n : Z) : list Z :=
  slice (data (get_chunk a p.1)) p.2 (p.2 + n).

(** The bytes of a [StringPiece]. *)
Definition sp_bytes (a : chunk_allocator) (s : StringPiece) : list Z :=
  read a (sp_data s) (sp_size s).

(** The byte [chunk->data[i]]; reads past the data give [0]. *)
Definition byte_at (c : chunk) (i : Z) : Z :=
  if bool_decide (0 ≤ i) then default 0 (data c !! Z.to_nat i) else 0.

(** ** [searcher::line_start], [line_end] and [find_line] *)

Definition line_start (c : chunk) (pos : Z) : Z :=
  match memrchr (take (Z.to_nat pos) (data c)) NL with
  | None => 0
  | Some start => Z.of_nat start
  end.

Definition line_end (c : chunk) (pos : Z) : Z :=
  match memchr (take (Z.to_nat (size c - pos)) (drop (Z.to_nat pos) (data c))) NL with
  | None => size c
  | Some e => pos + Z.of_nat e
  end.

(** [find_line(chunk, match)]: the line of the piece [chunk] around [match];
    both pieces point into the same arena. *)
Definition find_line (a : chunk_allocator) (chunk match_ : StringPiece) : StringPiece :=
  let bytes := sp_bytes a chunk in
  let moff := (sp_data match_).2 - (sp_data chunk).2 in
  let start :=
    match memrchr (take (Z.to_nat moff) bytes) NL with
    | None => 0
    | Some i => Z.of_nat i + 1
    end in
  let rest_off := moff + sp_size match_ in
  let end_ :=
    match memchr (take (Z.to_nat (sp_size chunk - rest_off))
                       (drop (Z.to_nat rest_off) bytes)) NL with
    | None => sp_size chunk
    | Some k => rest_off + Z.of_nat k
    end in
  mkSP (ptr_add (sp_data chunk) start) (end_ - start).

(** ** The index key of a pattern ([indexer.h]) *)

(** Modelled from the spec: [IndexKey], declared in [indexer.h], absent from
    the sources.  A node has an [empty] flag and edges from a byte range
    [lo, hi] to a child key; a null child stands for any suffix. *)
#[warnings="-register-all"]
Inductive IndexKey :=
| IK (ik_empty : bool) (ik_edges : list (Z * Z * option IndexKey)).

Definition ik_empty (k : IndexKey) : bool := let 'IK e _ := k in e.
Definition ik_edges (k : IndexKey) : list (Z * Z * option IndexKey) :=
  let 'IK _ es := k in es.

(** ** Results *)

Inductive exit_reason := kExitNone | kExitMatchLimit | kExitTimeout.

Global Instance exit_reason_eq_dec : EqDecision exit_reason.
Proof. solve_decision. Defined.

Record match_context := mkCtx {
  mc_file : nat;
  mc_lno : Z;
  mc_context_before : list StringPiece;
  mc_context_after : list StringPiece;
  mc_paths : list git_path
}.

Record match_result := mkResult {
  mr_line : StringPiece;
  mr_matchleft : Z;
  mr_matchright : Z;
  mr_context : list match_context
}.

(** [match_group]; [matches] is a [std::map], kept as a list of entries in
    ascending key order. *)
Record match_group := mkGroup {
  mg_match : StringPiece;
  mg_line : StringPiece;
  mg_left : Z;
  mg_right : Z;
  mg_matches : list (string * list match_context)
}.

(** [std::map::find] *)
Fixpoint map_find {V} (m : list (string * V)) (k : string) : option V :=
  match m with
  | [] => None
  | (k', v) :: m' => if decide (k' = k) then Some v else map_find m' k
  end.

(** [m[k] = v]: replaces the entry of [k], or inserts it in key order. *)
Fixpoint map_set {V} (m : list (string * V)) (k : string) (v : V) : list (string * V) :=
  match m with
  | [] => [(k, v)]
  | (k', v') :: m' =>
      if decide (k' = k) then (k, v) :: m'
      else if String.ltb k k' then (k, v) :: (k', v') :: m'
      else (k', v') :: map_set m' k v
  end.

(** ** The searcher *)

(** The state of a [searcher] that changes during a query: the result queue
    ([None] is the null result pushed when a chunk is done), the match
    counter, the exit reason, the per-file cache of [accept], the cached file
    density (hits and sample size, once computed), and the number of calls
    made so far to [gettimeofday] and [rand]. *)
Record searcher_state := mkSt {
  queue_ : list (option match_result);
  matches_ : Z;
  exit_reason_ : exit_reason;
  sfiles_ : list Z;
  files_density_ : option (Z * Z);
  clock_ : nat;
  rand_ : nat
}.

Definition M (A : Type) : Type := searcher_state → A * searcher_state.

Definition ret {A} (x : A) : M A := λ s, (x, s).
Definition bind {A B} (m : M A) (f : A → M B) : M B :=
  λ s, let '(x, s') := m s in f x s'.

Notation "x <- m ;; k" := (bind m (λ x, k))
  (at level 100, m at next level, right associativity, only parsing).
Notation "m >> k" := (bind m (λ _, k))
  (at level 100, k at level 200, right associativity, only parsing).

Definition get : M searcher_state := λ s, (s, s).
Definition modify (f : searcher_state → searcher_state) : M unit := λ s, (tt, f s).

Definition set_queue_ q s :=
  mkSt q (matches_ s) (exit_reason_ s) (sfiles_ s) (files_density_ s) (clock_ s) (rand_ s).
Definition set_matches_ m s :=
  mkSt (queue_ s) m (exit_reason_ s) (sfiles_ s) (files_density_ s) (clock_ s) (rand_ s).
Definition set_exit_reason_ r s :=
  mkSt (queue_ s) (matches_ s) r (sfiles_ s) (files_density_ s) (clock_ s) (rand_ s).
Definition set_sfiles_ f s :=
  mkSt (queue_ s) (matches_ s) (exit_reason_ s) f (files_density_ s) (clock_ s) (rand_ s).
Definition set_files_density_ d s :=
  mkSt (queue_ s) (matches_ s) (exit_reason_ s) (sfiles_ s) d (clock_ s) (rand_ s).
Definition set_clock_ c s :=
  mkSt (queue_ s) (matches_ s) (exit_reason_ s) (sfiles_ s) (files_density_ s) c (rand_ s).
Definition set_rand_ r s :=
  mkSt (queue_ s) (matches_ s) (exit_reason_ s) (sfiles_ s) (files_density_ s) (clock_ s) r.

(** A frame of the index walk. *)
Record walk_state := mkWalk {
  ws_left : nat;
  ws_right : nat;
  ws_key : option IndexKey;
  ws_depth : Z
}.

(** [lt_index::cmp] *)
Definition lt_index_cmp (c : chunk) (idx : Z) (lhs : Z) (rhs : Z) : Z :=
  let lc := byte_at c (lhs + idx) in
  if bool_decide (lc = NL) then -1 else lc - rhs.

(** [lt_index::operator()(uint32_t, unsigned char)] *)
Definition lt_index (c : chunk) (idx : Z) (lhs : Z) (rhs : Z) : bool :=
  bool_decide (lt_index_cmp c idx lhs rhs < 0).

(** [std::lower_bound(first, last, val, lt)] over the suffix array, by
    bisection; positions are indices into [suffixes]. *)
Fixpoint lower_bound_loop (fuel : nat) (c : chunk) (idx : Z) (val : Z)
    (first count : nat) : nat :=
  match fuel with
  | O => first
  | S fuel' =>
      if bool_decide (count = 0)%nat then first
      else
        let step := (count / 2)%nat in
        let it := (first + step)%nat in
        if lt_index c idx (default 0 (suffixes c !! it)) val
        then lower_bound_loop fuel' c idx val (S it) (count - (step + 1))
        else lower_bound_loop fuel' c idx val first step
  end.

Definition lower_bound (c : chunk) (idx : Z) (first last : nat) (val : Z) : nat :=
  lower_bound_loop (last - first) c idx val first (last - first).

(** What [searcher::operator()] does with a chunk: nothing, once the search
    has ended, or one of the two scans. *)
Inductive scan := NoScan | FilteredScan | FullScan.

Definition time_t_max : Z := 2 ^ 63 - 1.

Section Searcher.

Variable flags_ : flags.
Variable kChunkSize : Z.

(** The corpus searched, [cc_]. *)
Variable cc_ : code_searcher.

(** [pat_.Match(str, pos, limit, RE2::UNANCHORED, &match, 1)]: the offset and
    the size of the match found in [str[pos, limit)], if there is one. *)
Variable pat_ : list Z → Z → Z → option (Z * Z).

(** [file_pat_], null or a predicate on paths:
    [file_pat_->Match(path, 0, |path|, RE2::UNANCHORED, 0, 0)]. *)
Variable file_pat_ : option (string → bool).

(** [index_ = indexRE(pat)]. *)
Variable index_ : option IndexKey.

(** [utf8::is_valid] and [utf8::distance] over a byte range ([utf8.h]). *)
Variable utf8_is_valid : list Z → bool.
Variable utf8_distance : list Z → Z.

(** The time read by the n-th call of [gettimeofday], as seconds and
    microseconds, and the value of the n-th call of [rand]. *)
Variable gettimeofday : nat → Z * Z.
Variable rand : nat → Z.

(** [limit_], set by the constructor. *)
Definition limit_ : Z * Z :=
  if bool_decide (FLAGS_timeout flags_ ≤ 0) then (time_t_max, 0)
  else ((gettimeofday 0).1 + FLAGS_timeout flags_, (gettimeofday 0).2).

(** The state the constructor leaves. *)
Definition new_searcher : searcher_state :=
  {| queue_ := []; matches_ := 0; exit_reason_ := kExitNone;
     sfiles_ := replicate (length (files_ cc_)) 255;
     files_density_ := None;
     clock_ := if bool_decide (FLAGS_timeout flags_ ≤ 0) then 0%nat else 1%nat;
     rand_ := 0 |}.

Definition the_chunk (ci : nat) : chunk := get_chunk (alloc_ cc_) ci.

Definition null_file : search_file := mkSF [] [] 0 [].

Definition the_file (no : nat) : search_file := default null_file (files_ cc_ !! no).

(** Whether [file_pat_] is set. *)
Definition has_file_pat : bool :=
  match file_pat_ with None => false | Some _ => true end.

(** [accept(const git_path &)] *)
Definition accept_path (p : git_path) : bool :=
  match file_pat_ with
  | None => true
  | Some m => m (gp_path p)
  end.

(** [accept] on a [search_file]: the answer is computed once per file and kept in
    [files_]. *)
Definition accept_file (no : nat) : M bool :=
  match file_pat_ with
  | None => ret true
  | Some _ =>
      s <- get;;
      (if bool_decide (default 255 (sfiles_ s !! no) = 255)
       then modify (λ s, set_sfiles_
              (<[no := if existsb accept_path (sf_paths (the_file no)) then 1 else 0]>
                 (sfiles_ s)) s)
       else ret tt) >>
      s <- get;;
      ret (negb (bool_decide (default 255 (sfiles_ s !! no) = 0)))
  end.

(** [accept(const list<search_file *> &)] *)
Fixpoint accept_files (sfs : list nat) : M bool :=
  match sfs with
  | [] => ret false
  | sf :: rest =>
      b <- accept_file sf;;
      if b then ret true else accept_files rest
  end.

(** [exit_early] *)
Definition exit_early : M bool :=
  s <- get;;
  if negb (bool_decide (exit_reason_ s = kExitNone)) then ret true
  else if bool_decide (FLAGS_max_matches flags_ ≤ matches_ s)
  then modify (set_exit_reason_ kExitMatchLimit) >> ret true
  else
    let now := gettimeofday (clock_ s) in
    modify (set_clock_ (S (clock_ s))) >>
    if bool_decide (limit_.1 < now.1) ||
       (bool_decide (now.1 = limit_.1) && bool_decide (limit_.2 < now.2))
    then modify (set_exit_reason_ kExitTimeout) >> ret true
    else ret false.

(** The sampling loop of [files_density]. *)
Fixpoint density_hits (n : nat) (hits : Z) : M Z :=
  match n with
  | O => ret hits
  | S n' =>
      s <- get;;
      modify (set_rand_ (S (rand_ s))) >>
      b <- accept_file (Z.to_nat (rand (rand_ s) `mod` Z.of_nat (length (files_ cc_))));;
      density_hits n' (if b then hits + 1 else hits)
  end.

(** [files_density]: the ratio [hits / sample], kept as the pair; no sample
    gives no ratio (the quotient [0.0 / 0] is not a number). *)
Definition files_density : M (option (Z * Z)) :=
  s <- get;;
  match files_density_ s with
  | Some d => ret (Some d)
  | None =>
      let sample := Nat.min 1000 (length (files_ cc_)) in
      hits <- density_hits sample 0;;
      if bool_decide (sample = 0)%nat then ret None
      else modify (set_files_density_ (Some (hits, Z.of_nat sample))) >>
           ret (Some (hits, Z.of_nat sample))
  end.

(** *** [try_match] *)

Definition null_piece : StringPiece := mkSP (0%nat, 0) 0.

(** The first loop of [try_match]: the index of the piece of the file's
    content that holds the line, and the line number. *)
Fixpoint find_piece (line : StringPiece) (content : list StringPiece) (it : nat)
    (lno : Z) : option (nat * Z) :=
  match content with
  | [] => None
  | piece :: rest =>
      if ptr_le (sp_data piece) (sp_data line) &&
         ptr_le (sp_data line) (ptr_add (sp_data piece) (sp_size piece))
      then Some (it, lno + Z.of_nat
                   (count (read (alloc_ cc_) (sp_data piece)
                             ((sp_data line).2 - (sp_data piece).2)) NL))
      else find_piece line rest (S it)
             (lno + Z.of_nat (count (sp_bytes (alloc_ cc_) piece) NL) + 1)
  end.

(** The loop that collects [context_before]. *)
Fixpoint context_before (n : nat) (content : list StringPiece) (it : nat)
    (l : StringPiece) (acc : list StringPiece) : list StringPiece :=
  match n with
  | O => acc
  | S n' =>
      let piece := default null_piece (content !! it) in
      let step :=
        if bool_decide (sp_data l = sp_data piece) then
          match it with
          | O => None
          | S it' =>
              let piece' := default null_piece (content !! it') in
              Some (it', mkSP (ptr_add (sp_data piece') (sp_size piece' + 1)) 0)
          end
        else Some (it, l) in
      match step with
      | None => acc
      | Some (it, l) =>
          let piece := default null_piece (content !! it) in
          let l := find_line (alloc_ cc_) piece (mkSP (ptr_add (sp_data l) (-1)) 0) in
          context_before n' content it l (acc ++ [l])
      end
  end.

(** The loop that collects [context_after]. *)
Fixpoint context_after (n : nat) (content : list StringPiece) (it : nat)
    (l : StringPiece) (acc : list StringPiece) : list StringPiece :=
  match n with
  | O => acc
  | S n' =>
      let piece := default null_piece (content !! it) in
      let step :=
        if bool_decide (ptr_add (sp_data l) (sp_size l) =
                        ptr_add (sp_data piece) (sp_size piece)) then
          if bool_decide (S it = length content) then None
          else
            let piece' := default null_piece (content !! S it) in
            Some (S it, mkSP (ptr_add (sp_data piece') (-1)) 0)
        else Some (it, l) in
      match step with
      | None => acc
      | Some (it, l) =>
          let piece := default null_piece (content !! it) in
          let l := find_line (alloc_ cc_) piece
                     (mkSP (ptr_add (sp_data l) (sp_size l + 1)) 0) in
          context_after n' content it l (acc ++ [l])
      end
  end.

(** [v.back().paths.push_back(p)] *)
Definition push_back_path (p : git_path) (v : list match_context) : list match_context :=
  match last v with
  | Some c =>
      removelast v ++ [mkCtx (mc_file c) (mc_lno c) (mc_context_before c)
                             (mc_context_after c) (mc_paths c ++ [p])]
  | None => v
  end.

(** One turn of the loop over [sf->paths] at the end of [try_match], on the
    group's map and the match counter. *)
Definition upsert_path (sf : nat) (ctx : match_context) (p : git_path)
    (st : list (string * list match_context) * Z) : list (string * list match_context) * Z :=
  if negb (accept_path p) then st
  else
    let '(m, matches) := st in
    let '(m1, matches1) :=
      match map_find m (gp_path p) with
      | None => (map_set m (gp_path p) [ctx], matches + 1)
      | Some v =>
          if bool_decide (mc_file <$> last v = Some sf) then (m, matches)
          else (map_set m (gp_path p) (v ++ [ctx]), matches)
      end in
    (map_set m1 (gp_path p)
       (push_back_path p (default [] (map_find m1 (gp_path p)))), matches1).

Definition set_mg_matches (g : match_group) m : match_group :=
  mkGroup (mg_match g) (mg_line g) (mg_left g) (mg_right g) m.

Definition try_match (group : match_group) (line match_ : StringPiece) (sf : nat)
    : M match_group :=
  let file := the_file sf in
  match find_piece line (sf_content file) 0 1 with
  | None => ret group
  | Some (it, lno) =>
      let ctx :=
        mkCtx sf lno
          (context_before kContextLines (sf_content file) it line [])
          (context_after kContextLines (sf_content file) it line [])
          [] in
      s <- get;;
      let '(m, matches) :=
        foldl (λ st p, upsert_path sf ctx p st) (mg_matches group, matches_ s)
              (sf_paths file) in
      modify (set_matches_ matches) >>
      ret (set_mg_matches group m)
  end.

(** [finish_group] *)
Definition finish_group (group : match_group) : M unit :=
  modify (λ s, set_queue_
    (queue_ s ++
       ((λ e : string * list match_context,
           Some (mkResult (mg_line group) (mg_left group) (mg_right group) e.2))
        <$> mg_matches group)) s).

(** The constructor of [match_group]. *)
Definition new_match_group (match_ line : StringPiece) : match_group :=
  let left := utf8_distance (read (alloc_ cc_) (sp_data line)
                               ((sp_data match_).2 - (sp_data line).2)) in
  mkGroup match_ line left (left + utf8_distance (sp_bytes (alloc_ cc_) match_)) [].

(** *** [find_match_brute] and [find_match] *)

(** The loop over the files of one [chunk_file], shared by [find_match_brute]
    and [find_match]; [break] leaves it when [exit_early] says so. *)
Fixpoint try_files (group : match_group) (line match_ : StringPiece)
    (fs : list nat) : M match_group :=
  match fs with
  | [] => ret group
  | f :: rest =>
      ok <- accept_file f;;
      if negb ok then try_files group line match_ rest
      else
        e <- exit_early;;
        if e then ret group
        else
          g <- try_match group line match_ f;;
          try_files g line match_ rest
  end.

(** The loop of [find_match_brute] over [chunk->files]. *)
Fixpoint brute_loop (off : Z) (group : match_group) (line match_ : StringPiece)
    (cfs : list chunk_file) : M match_group :=
  match cfs with
  | [] => ret group
  | cf :: rest =>
      if bool_decide (cf_left cf ≤ off) && bool_decide (off ≤ cf_right cf)
      then
        g <- try_files group line match_ (cf_files cf);;
        brute_loop off g line match_ rest
      else brute_loop off group line match_ rest
  end.

Definition find_match_brute (ci : nat) (match_ line : StringPiece) : M unit :=
  let off := (sp_data line).2 in
  let group := new_match_group match_ line in
  g <- brute_loop off group line match_ (files (the_chunk ci));;
  finish_group g.

Fixpoint tree_size (n : chunk_file_node) : nat :=
  match n with
  | CFNil => 0
  | CFNode _ l r _ => S (tree_size l + tree_size r)
  end.

Definition is_null (n : chunk_file_node) : bool :=
  match n with CFNil => true | _ => false end.

(** The loop of [find_match] over its stack of frames; the head of the list
    is the back of the vector.  A node is pushed at most twice, so twice the
    size of the tree bounds the number of turns. *)
Fixpoint find_match_loop (fuel : nat) (loff : Z) (line match_ : StringPiece)
    (stack : list (chunk_file_node * bool)) (group : match_group) : M match_group :=
  match fuel with
  | O => ret group
  | S fuel' =>
      match stack with
      | [] => ret group
      | (n, visit) :: stack' =>
          s <- get;;
          if negb (bool_decide (exit_reason_ s = kExitNone)) then ret group
          else
            match n with
            | CFNil => find_match_loop fuel' loff line match_ stack' group
            | CFNode cf l r right_limit =>
                if visit then
                  g <- try_files group line match_ (cf_files cf);;
                  find_match_loop fuel' loff line match_ stack' g
                else if bool_decide (right_limit < loff)
                then find_match_loop fuel' loff line match_ stack' group
                else
                  let stack1 :=
                    if bool_decide (cf_left cf ≤ loff) then
                      let stack_r := if is_null r then stack' else (r, false) :: stack' in
                      if bool_decide (loff ≤ cf_right cf)
                      then (n, true) :: stack_r else stack_r
                    else stack' in
                  let stack2 := if is_null l then stack1 else (l, false) :: stack1 in
                  find_match_loop fuel' loff line match_ stack2 group
            end
      end
  end.

Definition find_match (ci : nat) (match_ line : StringPiece) : M unit :=
  if negb (FLAGS_index flags_) then find_match_brute ci match_ line
  else
    let loff := (sp_data line).2 in
    let group := new_match_group match_ line in
    let root := cf_root (the_chunk ci) in
    g <- find_match_loop (2 * tree_size root + 1) loff line match_ [(root, false)] group;;
    finish_group g.

(** *** [next_range] *)

Definition null_cf : chunk_file := mkCF [] 0 0.

(** The first loop of [next_range]: the finger skips the records that end
    before [pos] or hold no accepted file, up to [maxpos]. *)
Fixpoint skip_files (fuel : nat) (cfs : list chunk_file) (it : nat) (pos maxpos : Z)
    : M nat :=
  match fuel with
  | O => ret it
  | S fuel' =>
      match cfs !! it with
      | None => ret it
      | Some cf =>
          skip <- (if bool_decide (cf_right cf < pos) then ret true
                   else b <- accept_files (cf_files cf);; ret (negb b));;
          if skip && bool_decide (cf_left cf < maxpos)
          then skip_files fuel' cfs (S it) pos maxpos
          else ret it
      end
  end.

(** The [do ... while] loop of [next_range]: [endpos] grows over the accepted
    records that follow within [kMinSkip]. *)
Fixpoint extend_range (fuel : nat) (cfs : list chunk_file) (it : nat)
    (endpos maxpos : Z) : M (nat * Z) :=
  match fuel with
  | O => ret (it, endpos)
  | S fuel' =>
      let cf := default null_cf (cfs !! it) in
      if bool_decide (endpos + kMinSkip ≤ cf_left cf) then ret (it, endpos)
      else
        ok <- (if bool_decide (endpos ≤ cf_right cf) then accept_files (cf_files cf)
               else ret false);;
        let endpos' := if ok then Z.max endpos (cf_right cf) else endpos in
        if ok && bool_decide (maxpos ≤ endpos') then ret (it, endpos')
        else
          match cfs !! S it with
          | Some cf' =>
              if bool_decide (cf_left cf' < maxpos)
              then extend_range fuel' cfs (S it) endpos' maxpos
              else ret (S it, endpos')
          | None => ret (S it, endpos')
          end
  end.

(** [next_range(finger, pos, endpos, maxpos)]; the finger is the index
    [finger->it_] into [chunk->files], and the new values of the finger,
    [pos] and [endpos] are returned. *)
Definition next_range (ci : nat) (finger : nat) (pos endpos maxpos : Z)
    : M (nat * Z * Z) :=
  if negb has_file_pat || negb (FLAGS_index flags_)
  then ret (finger, pos, endpos)
  else
    let cfs := files (the_chunk ci) in
    it <- skip_files (length cfs - finger) cfs finger pos maxpos;;
    match cfs !! it with
    | None => ret (it, maxpos, maxpos)
    | Some cf =>
        if bool_decide (maxpos ≤ cf_left cf) then ret (it, maxpos, maxpos)
        else
          let pos := Z.max pos (cf_left cf) in
          r <- extend_range (length cfs - it) cfs it (cf_right cf) maxpos;;
          ret (r.1, pos, Z.min r.2 maxpos)
    end.

(** *** [full_search] *)

(** The piece [str] that spans the whole chunk. *)
Definition chunk_piece (ci : nat) : StringPiece := mkSP (ci, 0) (size (the_chunk ci)).

(** The loop of [full_search(finger, chunk, minpos, maxpos)]; every turn
    moves [pos] forward, so [maxpos - minpos] turns are enough.  The finger
    is returned, as the caller keeps it across calls. *)
Fixpoint full_search_loop (fuel : nat) (ci : nat) (maxpos : Z) (finger : nat)
    (pos end_ : Z) : M nat :=
  match fuel with
  | O => ret finger
  | S fuel' =>
      if negb (bool_decide (pos < maxpos)) then ret finger
      else
        e <- exit_early;;
        if e then ret finger
        else
          r <- (if bool_decide (end_ ≤ pos)
                then next_range ci finger pos maxpos maxpos
                else ret (finger, pos, end_));;
          let '(finger, pos, end_) := r in
          if bool_decide (maxpos ≤ pos) then ret finger
          else
            let limit :=
              if bool_decide (kMaxScan < end_ - pos)
              then line_end (the_chunk ci) (pos + kMaxScan) else end_ in
            match pat_ (data (the_chunk ci)) pos limit with
            | None => full_search_loop fuel' ci maxpos finger (limit + 1) end_
            | Some (moff, msize) =>
                let match_ := mkSP (ci, moff) msize in
                let line := find_line (alloc_ cc_) (chunk_piece ci) match_ in
                (if utf8_is_valid (sp_bytes (alloc_ cc_) line)
                 then find_match ci match_ line else ret tt) >>
                let new_pos := sp_size line + (sp_data line).2 + 1 in
                full_search_loop fuel' ci maxpos finger new_pos end_
            end
  end.

Definition full_search_range (ci : nat) (finger : nat) (minpos maxpos : Z) : M nat :=
  full_search_loop (Z.to_nat (maxpos - minpos)) ci maxpos finger minpos minpos.

(** [full_search(chunk)], for a chunk that holds data.  The source takes
    [chunk->size - 1] as a [size_t]: for an empty chunk that is the largest
    [size_t], [end = maxpos] is [-1] as an [int], and [assert(pos <= end)]
    fails unless [next_range] has moved [pos]; without the [assert] the
    loop turns with [pos = 0] until [exit_early] ends it.  Neither is a
    scan, and neither is what this definition gives for an empty chunk:
    what is stated of the search of a corpus is stated of chunks that hold
    data ([chunks_hold_data]). *)
Definition full_search (ci : nat) : M unit :=
  full_search_range ci 0 0 (size (the_chunk ci) - 1) >> ret tt.

(** *** [search_lines] *)

(** Modelled from the spec: [lsd_radix_sort] ([radix_sort.h]), absent from the
    sources; it sorts the 32-bit positions in ascending order. *)
Definition lsd_radix_sort (l : list Z) : list Z := merge_sort Z.le l.

(** The [for] loop of [search_lines]; [n] counts the turns left, [i] runs
    from [0] to [count] included. *)
Fixpoint search_lines_loop (n : nat) (ci : nat) (indexes : list Z) (count_ : Z)
    (i : Z) (max min : Z) (finger : nat) : M unit :=
  match n with
  | O => ret tt
  | S n' =>
      e <- exit_early;;
      if e then ret tt
      else
        let x := default 0 (indexes !! Z.to_nat i) in
        if negb (bool_decide (i = count_)) && bool_decide (x < max)
        then search_lines_loop n' ci indexes count_ (i + 1) max min finger
        else if negb (bool_decide (i = count_)) && bool_decide (x < max + kMinSkip)
        then search_lines_loop n' ci indexes count_ (i + 1) x min finger
        else
          let end_ := line_end (the_chunk ci) max in
          finger <- full_search_range ci finger min end_;;
          if negb (bool_decide (i = count_))
          then search_lines_loop n' ci indexes count_ (i + 1) x
                 (line_start (the_chunk ci) x) finger
          else search_lines_loop n' ci indexes count_ (i + 1) max min finger
  end.

(** [search_lines(indexes, count, chunk)]; [indexes] holds the positions the
    walk wrote.  The quotients compared are ratios of small integers, so the
    comparison of the doubles is the comparison of the fractions. *)
Definition search_lines (indexes : list Z) (count_ : Z) (ci : nat) : M unit :=
  let c := the_chunk ci in
  if bool_decide (count_ = 0) then ret tt
  else if bool_decide (size c < count_ * kMinFilterRatio) then full_search ci
  else
    dense <- (if has_file_pat then
                d <- files_density;;
                ret (match d with
                     | Some (hits, sample) =>
                         bool_decide (hits * size c < count_ * 30 * sample)
                     | None => false
                     end)
              else ret false);;
    if (dense : bool) then full_search ci
    else
      let sorted := lsd_radix_sort (take (Z.to_nat count_) indexes) in
      let first := default 0 (sorted !! 0%nat) in
      search_lines_loop (Z.to_nat (count_ + 1)) ci sorted count_ 0
        first (line_start c first) 0.

(** *** [filtered_search] *)

(** The size of the per-thread buffer [indexes]. *)
Definition indexes_size : Z := kChunkSize `div` kMinFilterRatio.

(** The inner [for (ch = lo; ch <= hi; ch++, l = r)] loop over the bytes of
    a range, [n] turns of it; it pushes a frame for every byte that occurs.
    [ch] is an [unsigned char]: for [hi < 255] the loop makes [hi - lo + 1]
    turns. *)
Fixpoint push_bytes (n : nat) (c : chunk) (depth : Z) (child : option IndexKey)
    (ch : Z) (l right : nat) (stack : list walk_state) : list walk_state :=
  match n with
  | O => stack
  | S n' =>
      let r := lower_bound c depth l right ((ch + 1) `mod` 256) in
      let stack' :=
        if bool_decide (r = l) then stack
        else mkWalk l r child (depth + 1) :: stack in
      push_bytes n' c depth child ((ch + 1) `mod` 256) r right stack'
  end.

(** The loop over the edges of a key in [filtered_search]. *)
Fixpoint push_edges (c : chunk) (st : walk_state)
    (edges : list (Z * Z * option IndexKey)) (stack : list walk_state)
    : list walk_state :=
  match edges with
  | [] => stack
  | (lo, hi, child) :: rest =>
      let l := lower_bound c (ws_depth st) (ws_left st) (ws_right st) lo in
      let right := lower_bound c (ws_depth st) l (ws_right st) ((hi + 1) `mod` 256) in
      if bool_decide (l = right) then push_edges c st rest stack
      else
        push_edges c st rest
          (push_bytes (Z.to_nat (hi - lo + 1)) c (ws_depth st) child lo l right stack)
  end.

(** Whether a frame is copied to the output as it is. *)
Definition copies_slice (st : walk_state) : bool :=
  match ws_key st with
  | None => true
  | Some k => ik_empty k || bool_decide (ws_right st - ws_left st ≤ 100)%nat
  end.

(** The words [memcpy] copies from the slice [left, right) of the suffix
    array. *)
Definition copy_slice (c : chunk) (left right : nat) : list Z :=
  (λ i, default 0 (suffixes c !! i)) <$> seq left (right - left).

(** The [while (!stack.empty())] loop of [filtered_search] on the stack, the
    count and the positions written to [indexes]. *)
Fixpoint index_walk (fuel : nat) (c : chunk) (stack : list walk_state)
    (count_ : Z) (indexes : list Z) : Z * list Z :=
  match fuel with
  | O => (count_, indexes)
  | S fuel' =>
      match stack with
      | [] => (count_, indexes)
      | st :: stack' =>
          let n := Z.of_nat (ws_right st - ws_left st) in
          if copies_slice st then
            if bool_decide (indexes_size < count_ + n)
            then (indexes_size + 1, indexes)
            else index_walk fuel' c stack' (count_ + n)
                   (indexes ++ copy_slice c (ws_left st) (ws_right st))
          else
            let edges := match ws_key st with Some k => ik_edges k | None => [] end in
            index_walk fuel' c (push_edges c st edges stack') count_ indexes
      end
  end.

(** The number of frames a key can put on the stack, itself included. *)
Fixpoint key_weight (k : IndexKey) : nat :=
  let 'IK _ edges := k in
  S ((fix go (es : list (Z * Z * option IndexKey)) : nat :=
        match es with
        | [] => 0%nat
        | (lo, hi, child) :: es' =>
            (Z.to_nat (hi - lo + 1) *
               match child with Some k' => key_weight k' | None => 1 end
             + go es')%nat
        end) edges).

Definition okey_weight (k : option IndexKey) : nat :=
  match k with Some k => key_weight k | None => 1%nat end.

(** The weight of a stack: the frames it can still cause. *)
Definition stack_weight (stack : list walk_state) : nat :=
  sum_list ((λ st, okey_weight (ws_key st)) <$> stack).

Definition edge_weight (e : Z * Z * option IndexKey) : nat :=
  (Z.to_nat (e.1.2 - e.1.1 + 1) * okey_weight e.2)%nat.

(** The walk of [filtered_search]: the count and the positions it leaves in
    [indexes]. *)
Definition walk_index (ci : nat) : Z * list Z :=
  let c := the_chunk ci in
  index_walk (okey_weight index_) c
    [mkWalk 0 (Z.to_nat (size c)) index_ 0] 0 [].

Definition filtered_search (ci : nat) : M unit :=
  let '(count_, indexes) := walk_index ci in
  search_lines indexes count_ ci.

(** *** [searcher::operator()] and the driver *)

Definition index_usable : bool :=
  FLAGS_index flags_ &&
  match index_ with Some k => negb (ik_empty k) | None => false end.

(** The branch [operator()] takes for a chunk. *)
Definition choose_scan (s : searcher_state) : scan :=
  if negb (bool_decide (exit_reason_ s = kExitNone)) then NoScan
  else if index_usable then FilteredScan
  else FullScan.

Definition search_chunk (ci : nat) : M unit :=
  s <- get;;
  match choose_scan s with
  | NoScan => ret tt
  | FilteredScan => filtered_search ci
  | FullScan => full_search ci
  end.

(** [search_thread::search_one]: the chunk is searched and a null result
    marks its end. *)
Definition search_one (ci : nat) : M unit :=
  search_chunk ci >> modify (λ s, set_queue_ (queue_ s ++ [None]) s).

(** The tasks of [match_internal], one per chunk, run one after the other
    in the order they were queued.  That is the run of the pool when no two
    tasks are at work on the searcher at the same time: a pool of one
    worker, or a corpus of one chunk ([one_at_a_time]).  The workers of a
    larger pool run their tasks on the one searcher at the same time, and
    their steps interleave; what is stated of [search_all] says nothing of
    such runs. *)
Fixpoint search_all (cis : list nat) : M unit :=
  match cis with
  | [] => ret tt
  | ci :: rest => search_one ci >> search_all rest
  end.

(** [search_thread::match_internal] on a finalized corpus: the results
    handed to the callback, in the order they leave the queue, and the
    reason the search ended, when the pool runs the tasks as [search_all]
    does. *)
Definition match_internal : list match_result * exit_reason :=
  if negb (FLAGS_search flags_) then ([], kExitNone)
  else
    let '(_, s) := search_all (seq 0 (length (alloc_ cc_))) new_searcher in
    (omap id (queue_ s), exit_reason_ s).

End Searcher.

(** ** Finalization ([chunk_allocator::finalize]) *)

(** Whether the suffix at [p] sorts before the suffix at [q]: bytes are
    compared up to the first ['\n'], which sorts below every byte. *)
Fixpoint suffix_leb (fuel : nat) (c : chunk) (p q : Z) : bool :=
  match fuel with
  | O => true
  | S fuel' =>
      let bp := byte_at c p in
      let bq := byte_at c q in
      if bool_decide (bp = NL) then true
      else if bool_decide (bq = NL) then false
      else if bool_decide (bp < bq) then true
      else if bool_decide (bq < bp) then false
      else suffix_leb fuel' c (p + 1) (q + 1)
  end.

Definition suffix_le (c : chunk) (p q : Z) : Prop :=
  suffix_leb (length (data c)) c p q = true.

Global Instance suffix_le_dec c p q : Decision (suffix_le c p q).
Proof. unfold suffix_le. apply _. Defined.

(** Insertion of a record in the chunk-file tree, keyed on [left]. *)
Fixpoint cf_insert (cf : chunk_file) (n : chunk_file_node) : chunk_file_node :=
  match n with
  | CFNil => CFNode cf CFNil CFNil (cf_right cf)
  | CFNode cf' l r lim =>
      if bool_decide (cf_left cf < cf_left cf')
      then CFNode cf' (cf_insert cf l) r (Z.max lim (cf_right cf))
      else CFNode cf' l (cf_insert cf r) (Z.max lim (cf_right cf))
  end.

(** Modelled from the spec: [chunk::finalize], absent from the sources.  It
    builds the suffix array of the chunk, ordered by [suffix_le], and the
    chunk-file tree with its [right_limit]s. *)
Definition finalize_chunk (c : chunk) : chunk :=
  mkChunk (data c) (files c) (cur_file c)
    (merge_sort (suffix_le c) (Z.of_nat <$> seq 0 (length (data c))))
    (foldl (λ t cf, cf_insert cf t) CFNil (files c)).

(** [code_searcher::finalize] *)
Definition finalize (cs : code_searcher) : code_searcher :=
  mkCS (stats_ cs) (finalize_chunk <$> alloc_ cs) true (files_ cs) (file_map_ cs)
       (lines_ cs).

(** ** Collaborators of the scenarios: patterns, their index keys, UTF-8 *)

(** Modelled from the spec: the patterns of the scenarios, sequences of
    literal bytes, byte classes [[lo-hi]], [.], which stands for any byte
    but ['\n'], and starred bytes [b*]. *)
Inductive atom := Lit (b : Z) | Cls (lo hi : Z) | Dot | Star (b : Z).

(** Whether an atom other than a star matches the byte. *)
Definition atom_matches (a : atom) (b : Z) : bool :=
  match a with
  | Lit x => bool_decide (b = x)
  | Cls lo hi => bool_decide (lo ≤ b ≤ hi)
  | Dot => negb (bool_decide (b = NL))
  | Star _ => false
  end.

(** The length of the match of the atoms at the start of the bytes; a star
    takes as many bytes as it can. *)
Fixpoint match_len (p : list atom) (s : list Z) : option nat :=
  match p with
  | [] => Some 0%nat
  | Star b :: p' =>
      (fix star (s : list Z) : option nat :=
         match s with
         | c :: s' =>
             if bool_decide (c = b) then
               match star s' with
               | Some n => Some (S n)
               | None => match_len p' s
               end
             else match_len p' s
         | [] => match_len p' []
         end) s
  | a :: p' =>
      match s with
      | c :: s' => if atom_matches a c then S <$> match_len p' s' else None
      | [] => None
      end
  end.

(** The leftmost match that starts in the first [n] offsets from [pos]. *)
Fixpoint re2_scan (n : nat) (p : list atom) (str : list Z) (pos limit : Z)
    : option (Z * Z) :=
  match n with
  | O => None
  | S n' =>
      match match_len p (slice str pos limit) with
      | Some len => Some (pos, Z.of_nat len)
      | None => re2_scan n' p str (pos + 1) limit
      end
  end.

(** Modelled from the spec: [RE2::Match], unanchored, for such a pattern. *)
Definition re2_match (p : list atom) (str : list Z) (pos limit : Z) : option (Z * Z) :=
  re2_scan (Z.to_nat (limit - pos + 1)) p str pos limit.

(** Modelled from the spec: [indexRE] ([indexer.h]), absent from the sources,
    for such a pattern: a literal byte or a class gives an edge for its
    range; from [.] or a star on, any suffix is accepted. *)
Fixpoint indexRE (p : list atom) : IndexKey :=
  match p with
  | Lit b :: p' => IK false [(b, b, Some (indexRE p'))]
  | Cls lo hi :: p' => IK false [(lo, hi, Some (indexRE p'))]
  | _ => IK true []
  end.

(** Modelled from the spec: [utf8::is_valid] ([utf8.h]), absent from the
    sources.  [n] continuation bytes are expected next. *)
Fixpoint utf8_valid_from (n : nat) (s : list Z) : bool :=
  match s with
  | [] => bool_decide (n = 0)%nat
  | b :: s' =>
      match n with
      | S n' => bool_decide (128 ≤ b < 192) && utf8_valid_from n' s'
      | O =>
          if bool_decide (0 ≤ b < 128) then utf8_valid_from 0 s'
          else if bool_decide (194 ≤ b < 224) then utf8_valid_from 1 s'
          else if bool_decide (224 ≤ b < 240) then utf8_valid_from 2 s'
          else if bool_decide (240 ≤ b < 245) then utf8_valid_from 3 s'
          else false
      end
  end.

Definition utf8_is_valid (s : list Z) : bool := utf8_valid_from 0 s.

(** Modelled from the spec: [utf8::distance] ([utf8.h]), absent from the
    sources: the code points of a byte range, one per byte that is not a
    continuation byte. *)
Definition utf8_distance (s : list Z) : Z :=
  Z.of_nat (length (filter (λ b, ¬ (128 ≤ b < 192)) s)).

(** The bytes of an ASCII string. *)
Fixpoint bytes_of (s : string) : list Z :=
  match s with
  | EmptyString => []
  | String a s' => Z.of_nat (Ascii.nat_of_ascii a) :: bytes_of s'
  end.

(** A clock that stands still and a generator that returns [0]. *)
Definition frozen_clock : nat → Z * Z := λ _, (0, 0).
Definition zero_rand : nat → Z := λ _, 0.

(** The hash of the scenarios: the content itself. *)
Definition content_id : list Z → git_oid := λ b, b.

(** The capacity of a chunk in the scenarios. *)
Definition scenario_chunk_size : Z := 2 ^ 20.

(** A query on a corpus with the collaborators above: the results and the
    exit reason. *)
Definition run_query (fl : flags) (cs : code_searcher) (p : list atom)
    (file_pat : option (string → bool)) : list match_result * exit_reason :=
  match_internal fl scenario_chunk_size cs (re2_match p) file_pat (Some (indexRE p))
    utf8_is_valid utf8_distance frozen_clock zero_rand.

(** What a result shows: the bytes of the line, the code point offsets of
    the match, and the file and line number of each context. *)
Definition result_view (cs : code_searcher) (r : match_result)
    : list Z * Z * Z * list (nat * Z * list git_path) :=
  (sp_bytes (alloc_ cs) (mr_line r), mr_matchleft r, mr_matchright r,
   (λ c, (mc_file c, mc_lno c, mc_paths c)) <$> mr_context r).

Definition ingest (cs : code_searcher) (ref path : string) (blob : list Z) :=
  update_stats scenario_chunk_size content_id cs ref path blob.

Definition nl : string := String (Ascii.ascii_of_nat 10) EmptyString.

Definition corpus_a : code_searcher :=
  finalize (ingest new_code_searcher "r" "f"
              (bytes_of ("foo" +:+ nl +:+ "bar" +:+ nl +:+ "baz" +:+ nl))).

Definition blob_blank : list Z := bytes_of ("a" +:+ nl +:+ nl +:+ nl +:+ "b" +:+ nl).

Definition corpus_blank : code_searcher :=
  finalize (ingest new_code_searcher "r" "f" blob_blank).

Definition corpus_two_paths : code_searcher :=
  finalize (ingest (ingest new_code_searcher "r" "a" (bytes_of ("x" +:+ nl)))
              "r" "b" (bytes_of ("x" +:+ nl))).

(** The (file, line number) pairs of a list of results. *)
Definition emitted_pairs (rs : list match_result) : list (nat * Z) :=
  rs ≫= λ r, (λ c, (mc_file c, mc_lno c)) <$> mr_context r.

(** The flags of a search without a cap that matters and without timeout. *)
Definition unbounded_flags (index : bool) : flags :=
  {| FLAGS_index := index; FLAGS_search := true;
     FLAGS_max_matches := 2 ^ 31 - 1; FLAGS_timeout := 0 |}.

Definition corpus_src_test : code_searcher :=
  finalize (ingest (ingest new_code_searcher "r" "src/a" (bytes_of ("foo" +:+ nl +:+ nl)))
              "r" "test/b" (bytes_of ("y" +:+ nl))).

Definition blob_wide : list Z := replicate 101 97 ++ [NL; 240; 159; 152; 128; NL].

Definition corpus_wide : code_searcher :=
  finalize (ingest new_code_searcher "r" "f" blob_wide).

(** ** Notions used to state further properties *)

(** The rank of a byte in the order of the suffix array: ['\n'] comes
    before every byte. *)
Definition byte_rank (b : Z) : Z := if bool_decide (b = NL) then -1 else b.

(** The [i]-th entry of the suffix array. *)
Definition entry (c : chunk) (i : nat) : Z := default 0 (suffixes c !! i).

(** The suffix array is sorted: where the suffixes of two entries agree on
    their first [d] bytes, none of them a ['\n'], the bytes that follow
    are in the order of the entries. *)
Definition suffix_sorted (c : chunk) : Prop :=
  ∀ i j d, (i ≤ j < length (suffixes c))%nat → 0 ≤ d →
    (∀ k, 0 ≤ k < d →
       byte_at c (entry c i + k) = byte_at c (entry c j + k) ∧
       byte_at c (entry c i + k) ≠ NL) →
    byte_rank (byte_at c (entry c i + d)) ≤ byte_rank (byte_at c (entry c j + d)).

(** A check that implies [suffix_sorted]: the chunk holds bytes and ends
    with ['\n'], the entries are offsets of the chunk, and every entry sorts
    before the entries after it. *)
Definition suffix_sorted_check (c : chunk) : bool :=
  forallb (λ b, bool_decide (0 ≤ b < 256)) (data c) &&
  forallb (λ p, bool_decide (0 ≤ p < size c)) (suffixes c) &&
  bool_decide (byte_at c (size c - 1) = NL) &&
  forallb (λ j, forallb (λ i, suffix_leb (length (data c)) c (entry c i) (entry c j))
                  (seq 0 j))
          (seq 0 (length (suffixes c))).

(** Whether the bytes at offset [p] start with a prefix the key stands for:
    an empty key and a null child stand for every suffix, an edge for a
    byte of its range followed by what its child stands for. *)
Fixpoint accepts_at (c : chunk) (k : IndexKey) (p : Z) {struct k} : bool :=
  let 'IK e edges := k in
  e ||
  (fix go (es : list (Z * Z * option IndexKey)) : bool :=
     match es with
     | [] => false
     | (lo, hi, child) :: es' =>
         (bool_decide (lo ≤ byte_at c p ≤ hi) &&
          match child with Some k' => accepts_at c k' (p + 1) | None => true end)
         || go es'
     end) edges.

Definition oaccepts_at (c : chunk) (k : option IndexKey) (p : Z) : bool :=
  match k with Some k => accepts_at c k p | None => true end.

(** The ranges of a key are ranges of bytes below 255 without ['\n']. *)
Definition range_ok (lo hi : Z) : Prop := 0 ≤ lo ≤ hi ∧ hi < 255 ∧ ¬ (lo ≤ NL ≤ hi).

Fixpoint key_wf (k : IndexKey) : bool :=
  let 'IK _ edges := k in
  (fix go (es : list (Z * Z * option IndexKey)) : bool :=
     match es with
     | [] => true
     | (lo, hi, child) :: es' =>
         bool_decide (range_ok lo hi) &&
         match child with Some k' => key_wf k' | None => true end && go es'
     end) edges.

Definition okey_wf (k : option IndexKey) : bool :=
  match k with Some k => key_wf k | None => true end.

(** A frame of the walk whose slice lies in the suffix array and whose
    entries agree on their first [depth] bytes, none of them a ['\n']. *)
Definition frame_uniform (c : chunk) (st : walk_state) : Prop :=
  (ws_left st ≤ ws_right st ≤ length (suffixes c))%nat ∧ 0 ≤ ws_depth st ∧
  ∀ i j k, (ws_left st ≤ i < ws_right st)%nat → (ws_left st ≤ j < ws_right st)%nat →
    0 ≤ k < ws_depth st →
    byte_at c (entry c i + k) = byte_at c (entry c j + k) ∧
    byte_at c (entry c i + k) ≠ NL.

Definition frame_ok (c : chunk) (st : walk_state) : Prop :=
  frame_uniform c st ∧ okey_wf (ws_key st) = true.

(** The entry [i] is still to be written: a frame of the stack holds it,
    and the key of the frame stands for what follows its first [depth]
    bytes. *)
Definition pending (c : chunk) (stack : list walk_state) (i : nat) : Prop :=
  ∃ st, st ∈ stack ∧ (ws_left st ≤ i < ws_right st)%nat ∧
        oaccepts_at c (ws_key st) (entry c i + ws_depth st) = true.

(** ** Walking a tree: [walk_root] and [walk_tree] *)

(** A git object as the walk sees it: a blob with its bytes, a tree with
    its named entries in the order of the tree, or an object of another
    type (the commit of a submodule). *)
#[warnings="-register-all"]
Inductive git_object :=
| GitBlob (bytes : list Z)
| GitTree (entries : list (string * git_object))
| GitOther.

(** [std::map::erase] *)
Fixpoint map_erase {V} (m : list (string * V)) (k : string) : list (string * V) :=
  match m with
  | [] => []
  | (k', v) :: m' => if decide (k' = k) then m' else (k', v) :: map_erase m' k
  end.

Section Walk.

Variable kChunkSize : Z.
Variable git_object_id : list Z → git_oid.

(** The words the stream gives for [FLAGS_order_root]. *)
Variable order_root : list string.

(** What [walk_root] and [walk_tree] do with an entry at a path. *)
Definition walk_step (walk : string → git_object → code_searcher → code_searcher)
    (ref path : string) (obj : git_object) (cs : code_searcher) : code_searcher :=
  match obj with
  | GitTree _ => walk (path +:+ "/") obj cs
  | GitBlob b => update_stats kChunkSize git_object_id cs ref path b
  | GitOther => cs
  end.

(** [walk_tree(repo, ref, pfx, tree)] *)
Fixpoint walk_tree (ref pfx : string) (tree : git_object) (cs : code_searcher)
    {struct tree} : code_searcher :=
  match tree with
  | GitTree entries =>
      (fix loop (es : list (string * git_object)) (cs : code_searcher)
         : code_searcher :=
         match es with
         | [] => cs
         | (name, obj) :: es' =>
             let path := pfx +:+ name in
             loop es'
               (match obj with
                | GitTree _ => walk_tree ref (path +:+ "/") obj cs
                | GitBlob b => update_stats kChunkSize git_object_id cs ref path b
                | GitOther => cs
                end)
         end) entries cs
  | _ => cs
  end.

(** The first loop of [walk_root]: the entries by name. *)
Definition root_map (entries : list (string * git_object))
    : list (string * git_object) :=
  foldl (λ m e, map_set m e.1 e.2) [] entries.

(** The loop over the words of [order_root]: an entry that is found is
    moved from the map to [ordered]. *)
Fixpoint pick_ordered (dirs : list string) (root ordered : list (string * git_object))
    : list (string * git_object) * list (string * git_object) :=
  match dirs with
  | [] => (ordered, root)
  | dir :: rest =>
      match map_find root dir with
      | None => pick_ordered rest root ordered
      | Some ent => pick_ordered rest (map_erase root dir) (ordered ++ [(dir, ent)])
      end
  end.

(** The entries in the order [walk_root] walks them. *)
Definition root_order (entries : list (string * git_object))
    : list (string * git_object) :=
  let '(ordered, root) := pick_ordered order_root (root_map entries) [] in
  ordered ++ root.

(** [walk_root(repo, ref, tree)] *)
Definition walk_root (ref : string) (tree : git_object) (cs : code_searcher)
    : code_searcher :=
  match tree with
  | GitTree entries =>
      foldl (λ cs e, walk_step (walk_tree ref) ref e.1 e.2 cs) cs (root_order entries)
  | _ => cs
  end.

(** The blobs of a tree with their paths, in the order of the tree. *)
Fixpoint tree_blobs (ref pfx : string) (tree : git_object) {struct tree}
    : list blob_entry :=
  match tree with
  | GitTree entries =>
      (fix loop (es : list (string * git_object)) : list blob_entry :=
         match es with
         | [] => []
         | (name, obj) :: es' =>
             let path := pfx +:+ name in
             match obj with
             | GitTree _ => tree_blobs ref (path +:+ "/") obj
             | GitBlob b => [(ref, path, b)]
             | GitOther => []
             end ++ loop es'
         end) entries
  | _ => []
  end.

End Walk.

(** ** The assertions of [filtered_search] *)

(** The four [assert]s [filtered_search] makes on the slice [l, right) of
    an edge [(lo, hi)], once it has found the slice not empty. *)
Definition edge_asserts (c : chunk) (st : walk_state) (lo hi : Z) (l right : nat)
    : bool :=
  (bool_decide (ws_depth st = 0) ||
   bool_decide (byte_at c (entry c l + ws_depth st - 1) =
                byte_at c (entry c (right - 1) + ws_depth st - 1))) &&
  (bool_decide (l = ws_left st) ||
   bool_decide (byte_at c (entry c (l - 1) + ws_depth st) = NL) ||
   bool_decide (byte_at c (entry c (l - 1) + ws_depth st) < lo)) &&
  bool_decide (lo ≤ byte_at c (entry c l + ws_depth st)) &&
  (bool_decide (right = ws_right st) ||
   bool_decide (hi < byte_at c (entry c right + ws_depth st))).

(** The loop over the edges of a key with its assertions: [None] when one
    of them fails. *)
Fixpoint push_edges_checked (c : chunk) (st : walk_state)
    (edges : list (Z * Z * option IndexKey)) (stack : list walk_state)
    : option (list walk_state) :=
  match edges with
  | [] => Some stack
  | (lo, hi, child) :: rest =>
      let l := lower_bound c (ws_depth st) (ws_left st) (ws_right st) lo in
      let right := lower_bound c (ws_depth st) l (ws_right st) ((hi + 1) `mod` 256) in
      if bool_decide (l = right) then push_edges_checked c st rest stack
      else if edge_asserts c st lo hi l right then
        push_edges_checked c st rest
          (push_bytes (Z.to_nat (hi - lo + 1)) c (ws_depth st) child lo l right stack)
      else None
  end.

(** The loop of [filtered_search] with the assertions. *)
Fixpoint index_walk_checked (kChunkSize : Z) (fuel : nat) (c : chunk)
    (stack : list walk_state) (count_ : Z) (indexes : list Z) : option (Z * list Z) :=
  match fuel with
  | O => Some (count_, indexes)
  | S fuel' =>
      match stack with
      | [] => Some (count_, indexes)
      | st :: stack' =>
          let n := Z.of_nat (ws_right st - ws_left st) in
          if copies_slice st then
            if bool_decide (indexes_size kChunkSize < count_ + n)
            then Some (indexes_size kChunkSize + 1, indexes)
            else index_walk_checked kChunkSize fuel' c stack' (count_ + n)
                   (indexes ++ copy_slice c (ws_left st) (ws_right st))
          else
            let edges := match ws_key st with Some k => ik_edges k | None => [] end in
            match push_edges_checked c st edges stack' with
            | Some stack'' => index_walk_checked kChunkSize fuel' c stack'' count_ indexes
            | None => None
            end
      end
  end.

Definition walk_index_checked (kChunkSize : Z) (cc_ : code_searcher)
    (index_ : option IndexKey) (ci : nat) : option (Z * list Z) :=
  let c := the_chunk cc_ ci in
  index_walk_checked kChunkSize (okey_weight index_) c
    [mkWalk 0 (Z.to_nat (size c)) index_ 0] 0 [].

(** The ranges of a key are ranges of bytes. *)
Fixpoint key_bytes (k : IndexKey) : bool :=
  let 'IK _ edges := k in
  (fix go (es : list (Z * Z * option IndexKey)) : bool :=
     match es with
     | [] => true
     | (lo, hi, child) :: es' =>
         bool_decide (0 ≤ lo ≤ 255) && bool_decide (0 ≤ hi ≤ 255) &&
         match child with Some k' => key_bytes k' | None => true end && go es'
     end) edges.

Definition okey_bytes (k : option IndexKey) : bool :=
  match k with Some k => key_bytes k | None => true end.

(** ** The chunk-file tree and the walk of [find_match] *)

(** The chunk files of a tree, from left to right. *)
Fixpoint inorder (n : chunk_file_node) : list chunk_file :=
  match n with
  | CFNil => []
  | CFNode cf l r _ => inorder l ++ cf :: inorder r
  end.

(** What the walk of [find_match] takes from the tree: the records of a
    right subtree start at or after the record of the node, and
    [right_limit] is at or above the [right] of every record of the
    subtree. *)
Fixpoint tree_ok (n : chunk_file_node) : bool :=
  match n with
  | CFNil => true
  | CFNode cf l r lim =>
      forallb (λ x, bool_decide (cf_left cf ≤ cf_left x)) (inorder r) &&
      forallb (λ x, bool_decide (cf_right x ≤ lim)) (inorder l ++ cf :: inorder r) &&
      tree_ok l && tree_ok r
  end.

(** The chunk file spans the offset. *)
Definition spans (loff : Z) (cf : chunk_file) : bool :=
  bool_decide (cf_left cf ≤ loff) && bool_decide (loff ≤ cf_right cf).

(** The files of the chunk files of a list are tried one chunk file after
    the other, until the exit reason is set. *)
Fixpoint try_chunk_files (flags_ : flags) (cc_ : code_searcher)
    (file_pat_ : option (string → bool)) (gettimeofday : nat → Z * Z)
    (line match_ : StringPiece) (cfs : list chunk_file) (group : match_group)
    : M match_group :=
  match cfs with
  | [] => ret group
  | cf :: rest =>
      s <- get;;
      if negb (bool_decide (exit_reason_ s = kExitNone)) then ret group
      else
        g <- try_files flags_ cc_ file_pat_ gettimeofday group line match_ (cf_files cf);;
        try_chunk_files flags_ cc_ file_pat_ gettimeofday line match_ rest g
  end.

(** What a frame of the stack of [find_match] still has to visit, and the
    turns of the loop it can still cause. *)
Definition frame_visits (loff : Z) (fr : chunk_file_node * bool) : list chunk_file :=
  match fr with
  | (n, false) => List.filter (spans loff) (inorder n)
  | (CFNode cf _ _ _, true) => [cf]
  | (CFNil, true) => []
  end.

Definition frame_turns (fr : chunk_file_node * bool) : nat :=
  match fr with
  | (CFNil, _) => 1
  | (n, false) => 2 * tree_size n
  | (_, true) => 1
  end.

(** ** Notions used to state properties of a search *)

(** The outcome of a computation of the searcher from a state. *)
Definition post {A} (m : M A) (s : searcher_state)
    (Q : A → searcher_state → Prop) : Prop :=
  Q (m s).1 (m s).2.

(** The keys of a [std::map] are in ascending order, each one once. *)
Definition keys_sorted {V} (m : list (string * V)) : Prop :=
  StronglySorted (λ a b : string, String.ltb a b = true) m.*1.

(** The answer of [accept] for a file, whatever [files_] holds. *)
Definition file_accepted (cc_ : code_searcher) (file_pat_ : option (string → bool))
    (no : nat) : bool :=
  existsb (accept_path file_pat_) (sf_paths (the_file cc_ no)).

(** The cache [files_] has an entry per file of the corpus, and every entry
    is [0xff] or the answer for its file. *)
Definition cache_ok (cc_ : code_searcher) (file_pat_ : option (string → bool))
    (s : searcher_state) : Prop :=
  length (sfiles_ s) = length (files_ cc_) ∧
  ∀ no v, sfiles_ s !! no = Some v →
    v = 255 ∨ v = if file_accepted cc_ file_pat_ no then 1 else 0.

(** The file [no] holds the line: a piece of its content starts at or
    before the line and ends at or after the start of the line. *)
Definition holds_line (cc_ : code_searcher) (line : StringPiece) (no : nat) : Prop :=
  ∃ piece, piece ∈ sf_content (the_file cc_ no) ∧
    ptr_le (sp_data piece) (sp_data line) = true ∧
    ptr_le (sp_data line) (ptr_add (sp_data piece) (sp_size piece)) = true.

(** A context of a result for the line [line], filed under the path
    [key]: it has paths, each of them with the path string [key], accepted
    by the file pattern and a path of the file of the context; the file
    holds the line; the line number is [1] or more; and the context lines
    on either side are at most [kContextLines]. *)
Definition ctx_ok (cc_ : code_searcher) (file_pat_ : option (string → bool))
    (line : StringPiece) (key : string) (c : match_context) : Prop :=
  mc_paths c ≠ [] ∧
  (∀ p, p ∈ mc_paths c →
     gp_path p = key ∧ accept_path file_pat_ p = true ∧
     p ∈ sf_paths (the_file cc_ (mc_file c))) ∧
  (holds_line cc_ line (mc_file c) ∧ 1 ≤ mc_lno c) ∧
  (length (mc_context_before c) ≤ kContextLines)%nat ∧
  (length (mc_context_after c) ≤ kContextLines)%nat.

(** An entry of the map of a match group, and the group. *)
Definition entry_ok (cc_ : code_searcher) (file_pat_ : option (string → bool))
    (line : StringPiece) (e : string * list match_context) : Prop :=
  e.2 ≠ [] ∧ Forall (ctx_ok cc_ file_pat_ line e.1) e.2.

Definition group_ok (cc_ : code_searcher) (file_pat_ : option (string → bool))
    (line : StringPiece) (g : match_group) : Prop :=
  mg_line g = line ∧ keys_sorted (mg_matches g) ∧
  Forall (entry_ok cc_ file_pat_ line) (mg_matches g).

(** A result: it has contexts, all of them right for its line under one
    path. *)
Definition result_ok (cc_ : code_searcher) (file_pat_ : option (string → bool))
    (r : match_result) : Prop :=
  mr_context r ≠ [] ∧
  ∃ key, Forall (ctx_ok cc_ file_pat_ (mr_line r) key) (mr_context r).

(** The results in a queue, and the number of null results in it. *)
Definition results (q : list (option match_result)) : list match_result := omap id q.

Definition sentinels (q : list (option match_result)) : nat :=
  length (List.filter (λ r, match r with None => true | Some _ => false end) q).

(** No file of the corpus has more than [P] paths. *)
Definition paths_bounded (cc_ : code_searcher) (P : Z) : Prop :=
  ∀ no, Z.of_nat (length (sf_paths (the_file cc_ no))) ≤ P.

(** The clock never reaches the last second of [time_t]. *)
Definition clock_sane (gettimeofday : nat → Z * Z) : Prop :=
  ∀ n, (gettimeofday n).1 < time_t_max.

(** What holds of the state of a searcher all along a query, with [n]
    entries in the match group under construction: the results posted are
    right; the counter [matches_] is the number of results posted plus
    [n]; it stays below the cap plus the paths of one file; the exit reason
    [kExitMatchLimit] is set only with the cap reached, and [kExitTimeout]
    never without a timeout; the cache [files_] is right. *)
Definition sound (flags_ : flags) (cc_ : code_searcher)
    (file_pat_ : option (string → bool)) (gettimeofday : nat → Z * Z) (P : Z)
    (n : nat) (s : searcher_state) : Prop :=
  Forall (result_ok cc_ file_pat_) (results (queue_ s)) ∧
  matches_ s = Z.of_nat (length (results (queue_ s))) + Z.of_nat n ∧
  (paths_bounded cc_ P → matches_ s ≤ Z.max 0 (FLAGS_max_matches flags_ - 1 + P)) ∧
  (exit_reason_ s = kExitMatchLimit → FLAGS_max_matches flags_ ≤ matches_ s) ∧
  (FLAGS_timeout flags_ ≤ 0 → clock_sane gettimeofday →
   exit_reason_ s ≠ kExitTimeout) ∧
  cache_ok cc_ file_pat_ s.

(** What a scan may do to the state [s0] it starts from: it posts results,
    and no null result; the counter does not decrease; an exit reason
    that is set stays as it is, and then nothing is posted or counted; the
    entries of [files_] that are computed stay as they are; the calls of
    [gettimeofday] and [rand] are counted. *)
Definition advances (s0 : searcher_state) (n : nat) (s : searcher_state) : Prop :=
  (∃ q, queue_ s = queue_ s0 ++ q ∧ sentinels q = 0%nat) ∧
  matches_ s0 ≤ matches_ s ∧
  (exit_reason_ s0 ≠ kExitNone →
   exit_reason_ s = exit_reason_ s0 ∧ queue_ s = queue_ s0 ∧
   matches_ s = matches_ s0 ∧ n = 0%nat) ∧
  (∀ no v, sfiles_ s0 !! no = Some v → v ≠ 255 → sfiles_ s !! no = Some v) ∧
  (clock_ s0 ≤ clock_ s)%nat ∧ (rand_ s0 ≤ rand_ s)%nat.

(** What [full_search] takes from [RE2::Match]: a match found from a
    position on, up to a limit in the string, starts at or after the
    position and lies in the string. *)
Definition match_in_window (pat_ : list Z → Z → Z → option (Z * Z)) : Prop :=
  ∀ str pos limit moff msize, 0 ≤ pos → limit ≤ Z.of_nat (length str) →
    pat_ str pos limit = Some (moff, msize) →
    pos ≤ moff ∧ 0 ≤ msize ∧ moff + msize ≤ Z.of_nat (length str).

(** Modelled from the spec: the pool of [search_thread] ([thread_pool.h],
    absent from the sources) has [FLAGS_threads] workers; they take the
    tasks in the order [match_internal] queued them, and every worker runs
    its task on the one [searcher] of the query.  There is a worker to
    run the tasks, and with one worker, or with at most one task, no two
    tasks are at work at the same time. *)
Definition one_at_a_time (FLAGS_threads : Z) (cc_ : code_searcher) : Prop :=
  1 ≤ FLAGS_threads ∧ (FLAGS_threads = 1 ∨ (length (alloc_ cc_) ≤ 1)%nat).

(** Every chunk of the corpus holds data, so that [chunk->size - 1] is an
    offset into the chunk. *)
Definition chunks_hold_data (cc_ : code_searcher) : Prop :=
  Forall (λ c, 0 < size c) (alloc_ cc_).

(** ** Notions used to state properties of the corpus *)

(** The bytes all the chunks hold. *)
Definition chunk_bytes (a : chunk_allocator) : Z :=
  foldr (λ c n, size c + n) 0 a.

(** The line [bytes] is stored at [line]: chunk memory holds the bytes
    there, followed by ['\n']. *)
Definition line_stored (a : chunk_allocator) (bytes : list Z) (line : StringPiece)
    : Prop :=
  sp_size line = Z.of_nat (length bytes) ∧ 0 ≤ (sp_data line).2 ∧
  read a (sp_data line) (sp_size line + 1) = bytes ++ [NL].

(** Two stored lines, terminators included, do not overlap. *)
Definition apart (l1 l2 : StringPiece) : Prop :=
  (sp_data l1).1 ≠ (sp_data l2).1 ∨
  (sp_data l1).2 + sp_size l1 < (sp_data l2).2 ∨
  (sp_data l2).2 + sp_size l2 < (sp_data l1).2.

(** What ingestion keeps of the store of lines: every line of [lines_] is
    stored where the table says, two lines do not overlap, the pieces of
    the contents of the files are lines of the table, and the counters of
    distinct lines, bytes and files count the table, the chunk bytes and
    the files. *)
Record store_inv (cs : code_searcher) : Prop := {
  store_alloc : alloc_ cs ≠ [];
  store_lines : ∀ bytes line, lines_ cs !! bytes = Some line →
    line_stored (alloc_ cs) bytes line;
  store_apart : ∀ b1 b2 l1 l2, lines_ cs !! b1 = Some l1 → lines_ cs !! b2 = Some l2 →
    b1 ≠ b2 → apart l1 l2;
  store_pieces : ∀ sf piece, sf ∈ files_ cs → piece ∈ sf_content sf →
    ∃ bytes, lines_ cs !! bytes = Some piece;
  store_count_lines : st_dedup_lines (stats_ cs) = Z.of_nat (base.size (lines_ cs));
  store_count_bytes : st_dedup_bytes (stats_ cs) = chunk_bytes (alloc_ cs);
  store_count_files : st_dedup_files (stats_ cs) = Z.of_nat (length (files_ cs))
}.

(** * Properties *)

(** ** Byte strings *)

Lemma memchr_Some s c i :
  memchr s c = Some i → s !! i = Some c ∧ ∀ j, (j < i)%nat → s !! j ≠ Some c.
Proof.
  revert i. induction s as [|b s IH]; intros i; simpl; [done|].
  destruct (decide (b = c)) as [->|Hne].
  - intros [= <-]. split; [done|]. intros j Hj. lia.
  - destruct (memchr s c) as [k|] eqn:Hk; simpl; [|done].
    intros [= <-]. destruct (IH k eq_refl) as [H1 H2]. split; [done|].
    intros [|j] Hj; simpl; [congruence|]. apply H2. lia.
Qed.

Lemma memchr_None s c : memchr s c = None ↔ c ∉ s.
Proof.
  induction s as [|b s [IH1 IH2]]; simpl.
  - split; [intros _; apply not_elem_of_nil|done].
  - rewrite not_elem_of_cons. destruct (decide (b = c)) as [->|Hne].
    + split; [done|]. intros [? _]. done.
    + destruct (memchr s c) eqn:Hk; simpl.
      * split; [done|]. intros [_ H]. by apply IH2 in H.
      * split; [|done]. intros _. split; [congruence|]. by apply IH1.
Qed.

Lemma memchr_is_Some s c : c ∈ s → is_Some (memchr s c).
Proof.
  intros H. destruct (memchr s c) eqn:E; [eauto|].
  by apply memchr_None in E.
Qed.

Lemma memrchr_None s c : memrchr s c = None ↔ c ∉ s.
Proof.
  induction s as [|b s [IH1 IH2]]; simpl.
  - split; [intros _; apply not_elem_of_nil|done].
  - rewrite not_elem_of_cons. destruct (memrchr s c) eqn:Hk.
    + split; [done|]. intros [_ H]. by apply IH2 in H.
    + destruct (decide (b = c)) as [->|Hne].
      * split; [done|]. intros [? _]. done.
      * split; [|done]. intros _. split; [congruence|]. by apply IH1.
Qed.

Lemma memrchr_Some s c i :
  memrchr s c = Some i →
  s !! i = Some c ∧ ∀ j, (i < j)%nat → s !! j ≠ Some c.
Proof.
  revert i. induction s as [|b s IH]; intros i; simpl; [done|].
  destruct (memrchr s c) as [k|] eqn:Hk.
  - intros [= <-]. destruct (IH k eq_refl) as [H1 H2]. split; [done|].
    intros [|j] Hj; [lia|]. simpl. apply H2. lia.
  - destruct (decide (b = c)) as [->|Hne]; [|done].
    intros [= <-]. split; [done|].
    intros [|j] Hj; [lia|]. simpl. intros Hs.
    apply memrchr_None in Hk. apply Hk.
    eapply list_elem_of_lookup_2; eauto.
Qed.

(** ** Ingestion *)

Section CorpusProps.

Variable kChunkSize : Z.
Variable git_object_id : list Z → git_oid.

Local Abbreviation update_stats := (update_stats kChunkSize git_object_id).
Local Abbreviation ingest_line := (ingest_line kChunkSize).
Local Abbreviation ingest_loop := (ingest_loop kChunkSize).
Local Abbreviation ingest_all := (ingest_all kChunkSize git_object_id).
Local Abbreviation paths_with := (paths_with git_object_id).
Local Abbreviation corpus_inv := (corpus_inv git_object_id).
Local Abbreviation inv_file := (inv_file git_object_id).
Local Abbreviation inv_map := (inv_map git_object_id).
Local Abbreviation inv_seen := (inv_seen git_object_id).

Lemma fmap_alter_same {A B} (f : A → B) (g : A → A) (i : nat) (l : list A) :
  (∀ x, f (g x) = f x) → f <$> alter g i l = f <$> l.
Proof.
  intros Hfg. revert i. induction l as [|x l IH]; intros [|i]; simpl; [done..| |].
  - by rewrite Hfg.
  - f_equal. apply IH.
Qed.

Lemma append_content_view line sf : file_view (append_content line sf) = file_view sf.
Proof.
  unfold append_content, file_view.
  destruct (last (sf_content sf)); [case_bool_decide|]; done.
Qed.

Lemma ingest_line_view sf bytes cs :
  file_map_ (ingest_line sf bytes cs) = file_map_ cs ∧
  file_view <$> files_ (ingest_line sf bytes cs) = file_view <$> files_ cs.
Proof.
  unfold ingest_line.
  destruct (lines_ cs !! bytes) as [line|]; simpl.
  - split; [done|]. apply fmap_alter_same, append_content_view.
  - destruct (alloc kChunkSize (alloc_ cs) (Z.of_nat (length bytes) + 1)) as [p a1] eqn:Ha.
    simpl.
    split; [done|]. apply fmap_alter_same, append_content_view.
Qed.

Lemma ingest_loop_view fuel blob p sf cs :
  file_map_ (ingest_loop fuel blob p sf cs) = file_map_ cs ∧
  file_view <$> files_ (ingest_loop fuel blob p sf cs) = file_view <$> files_ cs.
Proof.
  revert p cs. induction fuel as [|fuel IH]; intros p cs; simpl; [done|].
  destruct (memchr (drop p blob) NL) as [k|]; [|done].
  destruct (IH (p + k + 1)%nat (ingest_line sf (take k (drop p blob)) cs)) as [-> ->].
  apply ingest_line_view.
Qed.

(** A blob with a zero byte leaves the corpus as it was. *)
Lemma update_stats_nul cs ref path blob :
  0 ∈ blob → update_stats cs ref path blob = cs.
Proof.
  intros H. unfold update_stats.
  destruct (memchr_is_Some _ _ H) as [i ->]. done.
Qed.

(** A blob whose hash is already in the file map only adds a path. *)
Lemma update_stats_known cs ref path blob no :
  0 ∉ blob → file_map_ cs !! git_object_id blob = Some no →
  let cs' := update_stats cs ref path blob in
  file_map_ cs' = file_map_ cs ∧ lines_ cs' = lines_ cs ∧ alloc_ cs' = alloc_ cs ∧
  files_ cs' = alter (push_path (mkPath ref path)) no (files_ cs) ∧
  st_dedup_files (stats_ cs') = st_dedup_files (stats_ cs) ∧
  st_dedup_lines (stats_ cs') = st_dedup_lines (stats_ cs) ∧
  st_dedup_bytes (stats_ cs') = st_dedup_bytes (stats_ cs).
Proof.
  intros Hnul Hm. unfold update_stats.
  apply memchr_None in Hnul. rewrite Hnul. simpl. rewrite Hm. done.
Qed.

(** A blob with a new hash adds one file, with the one path. *)
Lemma update_stats_new cs ref path blob :
  0 ∉ blob → file_map_ cs !! git_object_id blob = None →
  let cs' := update_stats cs ref path blob in
  file_map_ cs' = <[git_object_id blob := length (files_ cs)]> (file_map_ cs) ∧
  file_view <$> files_ cs' =
    (file_view <$> files_ cs) ++
      [([mkPath ref path], git_object_id blob, length (files_ cs))].
Proof.
  intros Hnul Hm. unfold update_stats.
  apply memchr_None in Hnul. rewrite Hnul. simpl. rewrite Hm. simpl.
  match goal with |- context [ingest_loop ?f ?b ?p ?sf ?c] =>
    destruct (ingest_loop_view f b p sf c) as [-> ->] end.
  simpl. split; [done|]. by rewrite fmap_app.
Qed.

Lemma corpus_inv_new : corpus_inv [] new_code_searcher.
Proof.
  split; simpl.
  - intros no v H. done.
  - intros oid no H. by rewrite lookup_empty in H.
  - intros e H. by apply not_elem_of_nil in H.
Qed.

Lemma paths_with_snoc oid l e :
  paths_with oid (l ++ [e]) =
  paths_with oid l ++
    (if decide ((0 ∉ e.2) ∧ git_object_id (e.2) = oid) then [mkPath e.1.1 e.1.2] else []).
Proof.
  unfold paths_with. rewrite filter_app, fmap_app. f_equal.
  rewrite filter_cons, filter_nil. by case_decide.
Qed.

Lemma paths_with_unseen oid l cs :
  corpus_inv l cs → file_map_ cs !! oid = None → paths_with oid l = [].
Proof.
  intros Hinv Hm. unfold paths_with.
  destruct (filter _ l) as [|e t] eqn:Hf; [done|].
  assert (e ∈ filter (λ e : blob_entry, (0 ∉ e.2) ∧ git_object_id (e.2) = oid) l)
    as [[Hn Ho] Hin]%list_elem_of_filter by (rewrite Hf; left).
  destruct (inv_seen _ _ Hinv e Hin Hn) as [no Hno]. congruence.
Qed.

Lemma corpus_inv_step l cs e :
  corpus_inv l cs → corpus_inv (l ++ [e]) (update_stats cs e.1.1 e.1.2 e.2).
Proof.
  intros Hinv. destruct (decide (0 ∈ e.2)) as [Hnul|Hnul].
  { rewrite update_stats_nul by done. split.
    - intros no v Hv. destruct (inv_file _ _ Hinv no v Hv) as (? & ? & ->).
      repeat split; try done. rewrite paths_with_snoc, decide_False, app_nil_r; tauto.
    - apply Hinv.
    - intros e' [He'|He']%elem_of_app Hn; [by eapply inv_seen|].
      apply list_elem_of_singleton in He' as ->. done. }
  destruct (file_map_ cs !! git_object_id e.2) as [no|] eqn:Hm.
  - destruct (update_stats_known cs e.1.1 e.1.2 e.2 no Hnul Hm)
      as (Hmap & _ & _ & Hfiles & _).
    destruct (inv_map _ _ Hinv _ _ Hm) as (v0 & Hv0 & Hoid0).
    assert (Hview : file_view <$> alter (push_path (mkPath e.1.1 e.1.2)) no (files_ cs)
                    = alter (λ v, (v.1.1 ++ [mkPath e.1.1 e.1.2], v.1.2, v.2)) no
                        (file_view <$> files_ cs)).
    { apply list_fmap_alter, Forall_forall. by intros []. }
    split.
    + intros no' v. rewrite Hfiles, Hview, Hmap, list_lookup_alter.
      case_decide as Hno; [subst no'|]; intros Hv.
      * rewrite Hv0 in Hv. simpl in Hv. injection Hv as <-. simpl.
        destruct (inv_file _ _ Hinv _ _ Hv0) as (? & ? & ->).
        repeat split; try done.
        rewrite paths_with_snoc, decide_True; [done|by rewrite Hoid0].
      * destruct (inv_file _ _ Hinv _ _ Hv) as (Hn' & Hm' & ->).
        repeat split; try done.
        rewrite paths_with_snoc, decide_False, app_nil_r; [done|].
        intros [_ Heq]. rewrite Heq in Hm. rewrite Hm in Hm'. congruence.
    + intros oid no'. rewrite Hfiles, Hview, Hmap. intros Hl.
      destruct (inv_map _ _ Hinv _ _ Hl) as (v & Hv & Hoid).
      rewrite list_lookup_alter. case_decide as Hno.
      * subst no'. rewrite Hv. simpl. eauto.
      * eauto.
    + rewrite Hmap. intros e' [He'|He']%elem_of_app Hn; [by eapply inv_seen|].
      apply list_elem_of_singleton in He' as ->. by rewrite Hm.
  - destruct (update_stats_new cs e.1.1 e.1.2 e.2 Hnul Hm) as (Hmap & Hview).
    split.
    + intros no' v. rewrite Hview, Hmap. intros Hv.
      apply lookup_app_Some in Hv as [Hv|[Hlen Hv]].
      * destruct (inv_file _ _ Hinv _ _ Hv) as (Hn' & Hm' & ->).
        assert (v.1.2 ≠ git_object_id e.2) as Hne by congruence.
        rewrite lookup_insert_ne by done. repeat split; try done.
        rewrite paths_with_snoc, decide_False, app_nil_r; [done|]. by intros [_ ?].
      * rewrite length_fmap in Hlen, Hv.
        apply list_lookup_singleton_Some in Hv as [Hz <-]. simpl.
        assert (no' = length (files_ cs)) as -> by lia.
        rewrite lookup_insert_eq. repeat split; try done.
        rewrite paths_with_snoc, decide_True by done.
        by rewrite (paths_with_unseen _ _ _ Hinv Hm).
    + intros oid no'. rewrite Hview, Hmap, lookup_insert. case_decide as Ho.
      * intros [= <-]. subst oid. eexists.
        rewrite lookup_app_r, length_fmap, Nat.sub_diag by (by rewrite length_fmap).
        split; [done|]. done.
      * intros Hl. destruct (inv_map _ _ Hinv _ _ Hl) as (v & Hv & Hoid).
        exists v. split; [|done]. rewrite lookup_app_l; [done|].
        by apply lookup_lt_Some in Hv.
    + rewrite Hmap. intros e' [He'|He']%elem_of_app Hn.
      * rewrite lookup_insert. case_decide; [done|]. by eapply inv_seen.
      * apply list_elem_of_singleton in He' as ->. by rewrite lookup_insert_eq.
Qed.

Lemma ingest_all_snoc cs l e :
  ingest_all cs (l ++ [e]) = update_stats (ingest_all cs l) e.1.1 e.1.2 e.2.
Proof. unfold ingest_all. by rewrite foldl_app. Qed.

Lemma corpus_inv_ingest_all l : corpus_inv l (ingest_all new_code_searcher l).
Proof.
  induction l as [|e l IH] using rev_ind; [apply corpus_inv_new|].
  rewrite ingest_all_snoc. by apply corpus_inv_step.
Qed.

(** C9: a blob that holds a zero byte is skipped.  [update_stats] returns the
    corpus it was given: the file table, the file map, the set of interned
    lines, the chunks of the allocator and the statistics are all the same. *)
Theorem nul_blob_leaves_corpus_unchanged cs ref path blob :
  0 ∈ blob →
  let cs' := update_stats cs ref path blob in
  cs' = cs ∧ files_ cs' = files_ cs ∧ file_map_ cs' = file_map_ cs ∧
  lines_ cs' = lines_ cs ∧ alloc_ cs' = alloc_ cs ∧ stats_ cs' = stats_ cs.
Proof.
  intros H cs'. subst cs'. by rewrite update_stats_nul.
Qed.

(** C4: blobs with the same bytes share one search file.  When a blob without
    a zero byte is ingested after requests [l] that already hold its bytes,
    the ingestion creates no search file, interns no line and allocates
    nothing; afterwards exactly one search file carries the hash of the
    content, and its paths are the (ref, path) pairs of the requests with
    that hash, in the order of ingestion, so every pair under which the
    content was ingested is among them. *)
Theorem identical_blobs_share_one_file (l : list blob_entry)
    (ref path : string) (blob : list Z) :
  0 ∉ blob →
  (∃ ref0 path0, (ref0, path0, blob) ∈ l) →
  let before := ingest_all new_code_searcher l in
  let after := update_stats before ref path blob in
  (length (files_ after) = length (files_ before) ∧
   file_map_ after = file_map_ before ∧ lines_ after = lines_ before ∧
   alloc_ after = alloc_ before ∧
   st_dedup_files (stats_ after) = st_dedup_files (stats_ before) ∧
   st_dedup_lines (stats_ after) = st_dedup_lines (stats_ before)) ∧
  ∃ no sf,
    files_ after !! no = Some sf ∧ sf_oid sf = git_object_id blob ∧
    (∀ no' sf', files_ after !! no' = Some sf' →
       sf_oid sf' = git_object_id blob → no' = no) ∧
    sf_paths sf = paths_with (git_object_id blob) (l ++ [(ref, path, blob)]) ∧
    (∀ r p, (r, p, blob) ∈ l ++ [(ref, path, blob)] → mkPath r p ∈ sf_paths sf).
Proof.
  intros Hnul (ref0 & path0 & Hin) before after.
  pose proof (corpus_inv_ingest_all l) as Hbefore. fold before in Hbefore.
  pose proof (corpus_inv_step l before (ref, path, blob) Hbefore) as Hafter.
  simpl in Hafter. fold after in Hafter.
  destruct (inv_seen _ _ Hbefore _ Hin Hnul) as [no Hno]. simpl in Hno.
  destruct (update_stats_known before ref path blob no Hnul Hno)
    as (Hmap & Hlines & Halloc & Hfiles & Hdf & Hdl & _).
  fold after in Hmap, Hlines, Halloc, Hfiles, Hdf, Hdl.
  split.
  { repeat split; try done. by rewrite Hfiles, length_alter. }
  assert (file_map_ after !! git_object_id blob = Some no) as Hno' by by rewrite Hmap.
  destruct (inv_map _ _ Hafter _ _ Hno') as (v & Hv & Hoid).
  rewrite list_lookup_fmap in Hv.
  destruct (files_ after !! no) as [sf|] eqn:Hsf; [|done].
  simpl in Hv. injection Hv as <-. simpl in Hoid.
  assert ((file_view <$> files_ after) !! no = Some (file_view sf)) as Hv
    by by rewrite list_lookup_fmap, Hsf.
  destruct (inv_file _ _ Hafter _ _ Hv) as (_ & _ & Hpaths). simpl in Hpaths.
  exists no, sf. repeat split; try done.
  - intros no' sf' Hsf' Hoid'.
    assert ((file_view <$> files_ after) !! no' = Some (file_view sf')) as Hv'
      by by rewrite list_lookup_fmap, Hsf'.
    destruct (inv_file _ _ Hafter _ _ Hv') as (_ & Hm' & _). simpl in Hm'.
    rewrite Hoid' in Hm'. congruence.
  - by rewrite Hpaths, Hoid.
  - intros r p Hrp. rewrite Hpaths, Hoid. unfold paths_with.
    apply (list_elem_of_fmap_2 (λ e : blob_entry, mkPath e.1.1 e.1.2) _ (r, p, blob)).
    apply list_elem_of_filter. done.
Qed.

End CorpusProps.

Lemma nul_blob_leaves_corpus_unchanged_witness :
  let blob := [97; 0; 98; 10] in
  (0 ∈ blob) ∧
  update_stats scenario_chunk_size content_id new_code_searcher "r" "f" blob
    = new_code_searcher.
Proof.
  split; [by apply list_elem_of_In; right; left|].
  apply (nul_blob_leaves_corpus_unchanged scenario_chunk_size content_id
           new_code_searcher "r" "f" [97; 0; 98; 10]).
  by apply list_elem_of_In; right; left.
Defined.

Lemma identical_blobs_share_one_file_witness :
  let blob := [120; 10; 121; 10] in
  let l := [("r1", "f", blob)] : list blob_entry in
  let after := update_stats scenario_chunk_size content_id
                 (ingest_all scenario_chunk_size content_id new_code_searcher l)
                 "r2" "f" blob in
  (0 ∉ blob) ∧ (∃ ref0 path0, (ref0, path0, blob) ∈ l) ∧
  ∃ no sf, files_ after !! no = Some sf ∧
           sf_paths sf = [mkPath "r1" "f"; mkPath "r2" "f"].
Proof.
  assert (H0 : 0 ∉ [120; 10; 121; 10]).
  { intros H%list_elem_of_In. simpl in H. intuition discriminate. }
  assert (H1 : ∃ ref0 path0 : string,
             (ref0, path0, [120; 10; 121; 10]) ∈
               ([("r1", "f", [120; 10; 121; 10])] : list blob_entry)).
  { exists "r1", "f". left. }
  split; [exact H0|]. split; [exact H1|].
  destruct (identical_blobs_share_one_file scenario_chunk_size content_id
              [("r1", "f", [120; 10; 121; 10])] "r2" "f" [120; 10; 121; 10] H0 H1)
    as (_ & no & sf & Hsf & _ & _ & Hp & _).
  exists no, sf. split; [exact Hsf|]. rewrite Hp. vm_compute. reflexivity.
Defined.

(** ** Lines of a chunk *)

Lemma byte_at_lookup c i :
  0 ≤ i < size c → data c !! Z.to_nat i = Some (byte_at c i).
Proof.
  intros Hi. unfold byte_at, size in *. rewrite bool_decide_eq_true_2 by lia.
  destruct (data c !! Z.to_nat i) eqn:E; [done|].
  apply lookup_ge_None in E. lia.
Qed.

Lemma byte_at_Some c i b : 0 ≤ i → data c !! Z.to_nat i = Some b → byte_at c i = b.
Proof. intros Hi E. unfold byte_at. rewrite bool_decide_eq_true_2 by lia. by rewrite E. Qed.

(** [line_start] is the offset of the last ['\n'] before [pos], or [0]. *)
Lemma line_start_spec c pos :
  0 ≤ pos ≤ size c →
  let q := line_start c pos in
  ((q = 0 ∧ ∀ j, 0 ≤ j < pos → byte_at c j ≠ NL) ∨
   (0 ≤ q < pos ∧ byte_at c q = NL ∧ ∀ j, q < j < pos → byte_at c j ≠ NL)).
Proof.
  intros Hpos q. subst q. unfold line_start.
  destruct (memrchr (take (Z.to_nat pos) (data c)) NL) as [i|] eqn:E.
  - right. apply memrchr_Some in E as [Hi Hlast].
    pose proof (lookup_lt_Some _ _ _ Hi) as Hlen. rewrite length_take in Hlen.
    rewrite lookup_take_lt in Hi by lia.
    split; [lia|]. split.
    + apply byte_at_Some; [lia|]. by rewrite Nat2Z.id.
    + intros j Hj Hb. apply (Hlast (Z.to_nat j)); [lia|].
      rewrite lookup_take_lt by lia. rewrite <- Hb. apply byte_at_lookup. lia.
  - left. split; [done|]. intros j Hj Hb. apply memrchr_None in E. apply E.
    apply list_elem_of_lookup. exists (Z.to_nat j).
    rewrite lookup_take_lt by lia. rewrite <- Hb. apply byte_at_lookup. lia.
Qed.

(** [line_end] is the offset of the first ['\n'] at or after [pos], or the
    size of the chunk. *)
Lemma line_end_spec c pos :
  0 ≤ pos ≤ size c →
  let e := line_end c pos in
  ((e = size c ∧ ∀ j, pos ≤ j < size c → byte_at c j ≠ NL) ∨
   (pos ≤ e < size c ∧ byte_at c e = NL ∧ ∀ j, pos ≤ j < e → byte_at c j ≠ NL)).
Proof.
  intros Hpos e. subst e. unfold line_end.
  assert (Hlen : length (drop (Z.to_nat pos) (data c)) = Z.to_nat (size c - pos)).
  { rewrite length_drop. unfold size. lia. }
  rewrite take_ge by lia.
  destruct (memchr (drop (Z.to_nat pos) (data c)) NL) as [k|] eqn:E.
  - right. apply memchr_Some in E as [Hk Hfirst].
    pose proof (lookup_lt_Some _ _ _ Hk) as Hlt. rewrite Hlen in Hlt.
    rewrite lookup_drop in Hk.
    split; [lia|]. split.
    + apply byte_at_Some; [lia|]. by rewrite Z2Nat.inj_add, Nat2Z.id by lia.
    + intros j Hj Hb. apply (Hfirst (Z.to_nat (j - pos))); [lia|].
      rewrite lookup_drop. rewrite <- Hb.
      replace (Z.to_nat pos + Z.to_nat (j - pos))%nat with (Z.to_nat j) by lia.
      apply byte_at_lookup. lia.
  - left. split; [done|]. intros j Hj Hb. apply memchr_None in E. apply E.
    apply list_elem_of_lookup. exists (Z.to_nat (j - pos)).
    rewrite lookup_drop. rewrite <- Hb.
    replace (Z.to_nat pos + Z.to_nat (j - pos))%nat with (Z.to_nat j) by lia.
    apply byte_at_lookup. lia.
Qed.

(** C8: on the chunk ["ab\ncd\n"], whose second line is the bytes 3 and 4,
    [line_start] at offset 4 is 2, the offset of the ['\n'] that ends the
    first line, and not 3, the offset just after it; [line_end] at offset 4
    is 5, the offset of the next ['\n']. *)
Theorem line_start_is_offset_of_newline :
  let c := mkChunk (bytes_of ("ab" +:+ nl +:+ "cd" +:+ nl)) [] [] [] CFNil in
  line_start c 4 = 2 ∧ byte_at c 2 = NL ∧ byte_at c 3 = 99 ∧ line_end c 4 = 5.
Proof. vm_compute. done. Qed.

(** ** The searcher *)

Section SearcherProps.

Variable flags_ : flags.
Variable kChunkSize : Z.
Variable cc_ : code_searcher.
Variable pat_ : list Z → Z → Z → option (Z * Z).
Variable file_pat_ : option (string → bool).
Variable index_ : option IndexKey.
Variable utf8_is_valid : list Z → bool.
Variable utf8_distance : list Z → Z.
Variable gettimeofday : nat → Z * Z.
Variable rand : nat → Z.

Local Abbreviation exit_early := (exit_early flags_ gettimeofday).
Local Abbreviation full_search :=
  (full_search flags_ cc_ pat_ file_pat_ utf8_is_valid utf8_distance gettimeofday).
Local Abbreviation full_search_loop :=
  (full_search_loop flags_ cc_ pat_ file_pat_ utf8_is_valid utf8_distance gettimeofday).
Local Abbreviation filtered_search :=
  (filtered_search flags_ kChunkSize cc_ pat_ file_pat_ index_ utf8_is_valid
     utf8_distance gettimeofday rand).
Local Abbreviation search_chunk :=
  (search_chunk flags_ kChunkSize cc_ pat_ file_pat_ index_ utf8_is_valid
     utf8_distance gettimeofday rand).
Local Abbreviation choose_scan := (choose_scan flags_ index_).
Local Abbreviation index_walk := (index_walk kChunkSize).
Local Abbreviation walk_index := (walk_index kChunkSize cc_ index_).
Local Abbreviation indexes_size := (indexes_size kChunkSize).

Lemma exit_early_stopped s :
  exit_reason_ s ≠ kExitNone → exit_early s = (true, s).
Proof.
  intros H. unfold exit_early, bind, get. simpl.
  by rewrite bool_decide_eq_false_2.
Qed.

(** Once the search has ended, a full scan does nothing. *)
Lemma full_search_stopped ci s :
  exit_reason_ s ≠ kExitNone → full_search ci s = (tt, s).
Proof.
  intros H. unfold full_search, full_search_range, bind.
  destruct (Z.to_nat _) as [|fuel]; simpl; [done|].
  case_bool_decide; simpl; [|done].
  unfold bind. by rewrite exit_early_stopped.
Qed.

(** Without a usable key, [operator()] is [full_search]: it scans the
    chunk with it, and does nothing once the search has ended, as
    [full_search] does. *)
Lemma search_chunk_unfiltered ci s :
  index_usable flags_ index_ = false →
  search_chunk ci s = full_search ci s ∧
  (exit_reason_ s = kExitNone → choose_scan s = FullScan).
Proof.
  intros Hu. unfold search_chunk, choose_scan, bind, get. rewrite Hu.
  case_bool_decide as He; simpl; [done|].
  split; [|done]. by rewrite full_search_stopped.
Qed.

(** C10: without an index key, or with a key whose root is empty,
    [operator()] scans the chunk with [full_search], whatever the [index]
    flag says, and so it does with the flag off, whatever the key is; it
    takes the branch of [filtered_search] only when the flag is set and the
    key is there and not empty, and then it does take it, unless the
    search has ended, when it does nothing. *)
Theorem empty_key_means_full_scan (s : searcher_state) (ci : nat) :
  ((index_ = None ∨ ∃ k, index_ = Some k ∧ ik_empty k = true) →
     search_chunk ci s = full_search ci s ∧
     (exit_reason_ s = kExitNone → choose_scan s = FullScan)) ∧
  (choose_scan s = FilteredScan →
     FLAGS_index flags_ = true ∧
     (∃ k, index_ = Some k ∧ ik_empty k = false) ∧
     search_chunk ci s = filtered_search ci s) ∧
  (FLAGS_index flags_ = false →
     search_chunk ci s = full_search ci s ∧
     (exit_reason_ s = kExitNone → choose_scan s = FullScan)) ∧
  (exit_reason_ s = kExitNone → FLAGS_index flags_ = true →
   (∃ k, index_ = Some k ∧ ik_empty k = false) →
     choose_scan s = FilteredScan ∧
     search_chunk ci s = filtered_search ci s) ∧
  (exit_reason_ s ≠ kExitNone →
     choose_scan s = NoScan ∧ search_chunk ci s = (tt, s)).
Proof.
  split; [|split; [|split; [|split]]].
  - intros Hkey. apply search_chunk_unfiltered.
    unfold index_usable. destruct Hkey as [->|(k & -> & ->)]; simpl;
      by rewrite andb_false_r.
  - unfold search_chunk, choose_scan, bind, get.
    case_bool_decide as He; simpl; [|done].
    destruct (index_usable flags_ index_) eqn:Hu; [|done]. intros _.
    unfold index_usable in Hu. apply andb_true_iff in Hu as [Hf Hk].
    split; [done|]. split; [|done].
    destruct index_ as [k|]; [|done]. exists k. split; [done|].
    by apply negb_true_iff.
  - intros Hoff. apply search_chunk_unfiltered.
    unfold index_usable. by rewrite Hoff.
  - intros He Hon (k & Hk & Hne).
    unfold search_chunk, choose_scan, index_usable, bind, get.
    rewrite Hon, Hk, Hne. simpl. by rewrite bool_decide_eq_true_2.
  - intros He. unfold search_chunk, choose_scan, bind, get. simpl.
    by rewrite bool_decide_eq_false_2.
Qed.

(** *** The index walk and its budget *)

Lemma copy_slice_length c l r : length (copy_slice c l r) = (r - l)%nat.
Proof. unfold copy_slice. by rewrite length_fmap, length_seq. Qed.

Lemma index_walk_budget fuel c stack count_ out :
  0 ≤ indexes_size → count_ = Z.of_nat (length out) → count_ ≤ indexes_size →
  let r := index_walk fuel c stack count_ out in
  Z.of_nat (length r.2) ≤ indexes_size ∧
  ((r.1 ≤ indexes_size ∧ r.1 = Z.of_nat (length r.2)) ∨ r.1 = indexes_size + 1).
Proof.
  intros HB. revert stack count_ out.
  induction fuel as [|fuel IH]; intros stack count_ out Hc Hle; simpl.
  { split; [lia|]. left. done. }
  destruct stack as [|st stack]; simpl.
  { split; [lia|]. left. done. }
  destruct (copies_slice st).
  - case_bool_decide as Hover; simpl.
    + split; [lia|]. by right.
    + apply IH; [|lia]. rewrite length_app, copy_slice_length. lia.
  - by apply IH.
Qed.

Lemma key_weight_unfold e edges :
  key_weight (IK e edges) = S (sum_list (edge_weight <$> edges)).
Proof.
  simpl. f_equal. induction edges as [|[[lo hi] child] edges IH]; [done|].
  rewrite fmap_cons. simpl. rewrite <- IH. unfold edge_weight. simpl.
  by destruct child.
Qed.

Lemma okey_weight_pos k : (1 ≤ okey_weight k)%nat.
Proof. destruct k as [[e edges]|]; simpl; lia. Qed.

Lemma sum_list_cons (x : nat) (l : list nat) : sum_list (x :: l) = (x + sum_list l)%nat.
Proof. done. Qed.

Lemma stack_weight_cons st stack :
  stack_weight (st :: stack) = (okey_weight (ws_key st) + stack_weight stack)%nat.
Proof. done. Qed.

Lemma push_bytes_weight n c depth child ch l right stack :
  (stack_weight (push_bytes n c depth child ch l right stack)
   ≤ n * okey_weight child + stack_weight stack)%nat.
Proof.
  revert ch l stack. induction n as [|n IH]; intros ch l stack; simpl; [lia|].
  etrans; [apply IH|]. case_bool_decide; rewrite ?stack_weight_cons; simpl; lia.
Qed.

Lemma push_edges_weight c st edges stack :
  (stack_weight (push_edges c st edges stack)
   ≤ sum_list (edge_weight <$> edges) + stack_weight stack)%nat.
Proof.
  revert stack. induction edges as [|[[lo hi] child] edges IH]; intros stack.
  { simpl. lia. }
  rewrite fmap_cons, sum_list_cons. cbn [push_edges].
  case_bool_decide.
  - etrans; [apply IH|]. lia.
  - etrans; [apply IH|].
    pose proof (push_bytes_weight (Z.to_nat (hi - lo + 1)) c (ws_depth st) child lo
                  (lower_bound c (ws_depth st) (ws_left st) (ws_right st) lo)
                  (lower_bound c (ws_depth st)
                     (lower_bound c (ws_depth st) (ws_left st) (ws_right st) lo)
                     (ws_right st) ((hi + 1) `mod` 256)) stack).
    assert (edge_weight (lo, hi, child)
            = (Z.to_nat (hi - lo + 1) * okey_weight child)%nat) as -> by done.
    lia.
Qed.

(** The walk ends: fuel beyond the weight of the stack changes nothing. *)
Lemma index_walk_fuel f1 f2 c stack count_ out :
  (stack_weight stack ≤ f1)%nat → (stack_weight stack ≤ f2)%nat →
  index_walk f1 c stack count_ out = index_walk f2 c stack count_ out.
Proof.
  revert f2 stack count_ out.
  induction f1 as [|f1 IH]; intros f2 stack count_ out H1 H2.
  - destruct stack as [|st stack]; [by destruct f2|].
    unfold stack_weight in H1. simpl in H1.
    pose proof (okey_weight_pos (ws_key st)). lia.
  - destruct f2 as [|f2].
    { destruct stack as [|st stack]; [done|].
      unfold stack_weight in H2. simpl in H2.
      pose proof (okey_weight_pos (ws_key st)). lia. }
    simpl. destruct stack as [|st stack]; [done|].
    pose proof (stack_weight_cons st stack) as Hw.
    pose proof (okey_weight_pos (ws_key st)) as Hpos.
    destruct (copies_slice st) eqn:Hcopy.
    + case_bool_decide; [done|]. apply IH; lia.
    + unfold copies_slice in Hcopy.
      destruct (ws_key st) as [[e edges]|] eqn:Hk; [|done].
      pose proof (push_edges_weight c st edges stack) as Hpush.
      rewrite ?Hk in Hw. cbn [okey_weight] in Hw. rewrite key_weight_unfold in Hw.
      simpl. apply IH; lia.
Qed.

Lemma walk_index_fuel ci extra :
  index_walk (okey_weight index_ + extra) (the_chunk cc_ ci)
    [mkWalk 0 (Z.to_nat (size (the_chunk cc_ ci))) index_ 0] 0 []
  = walk_index ci.
Proof.
  unfold walk_index.
  apply index_walk_fuel; unfold stack_weight; simpl; lia.
Qed.

(** C7: the walk of [filtered_search] leaves at most [B = kChunkSize /
    kMinFilterRatio] positions in [indexes].  When copying the slice of a
    frame would take the count past [B], the loop stops at once with the
    count [B + 1] and writes nothing more; so the count it returns is either
    at most [B] and the number of positions written, or [B + 1]. *)
Theorem index_walk_budget_sentinel (ci : nat) :
  0 ≤ kChunkSize →
  let B := indexes_size in
  (let r := walk_index ci in
   Z.of_nat (length r.2) ≤ B ∧
   ((r.1 ≤ B ∧ r.1 = Z.of_nat (length r.2)) ∨ r.1 = B + 1)) ∧
  (∀ fuel c st stack count_ out,
     copies_slice st = true →
     B < count_ + Z.of_nat (ws_right st - ws_left st) →
     index_walk (S fuel) c (st :: stack) count_ out = (B + 1, out)).
Proof.
  intros Hk B.
  assert (0 ≤ B) as HB.
  { subst B. unfold indexes_size, kMinFilterRatio.
    apply Z.div_pos; lia. }
  split.
  - apply index_walk_budget; simpl; lia.
  - intros fuel c st stack count_ out Hcopy Hover. simpl. rewrite Hcopy.
    by rewrite bool_decide_eq_true_2.
Qed.

End SearcherProps.

Lemma empty_key_means_full_scan_witness :
  let off := Flags false true 50 1 in
  let s := new_searcher default_flags corpus_wide in
  let key := Some (indexRE [Cls 240 255]) in
  let scan fl index s :=
    search_chunk fl scenario_chunk_size corpus_wide (re2_match [Cls 240 255])
      None index utf8_is_valid utf8_distance frozen_clock zero_rand 0 s in
  let full fl s :=
    full_search fl corpus_wide (re2_match [Cls 240 255]) None utf8_is_valid
      utf8_distance frozen_clock 0 s in
  let filtered fl index s :=
    filtered_search fl scenario_chunk_size corpus_wide (re2_match [Cls 240 255])
      None index utf8_is_valid utf8_distance frozen_clock zero_rand 0 s in
  let found (r : unit * searcher_state) := length (results (queue_ r.2)) in
  (scan default_flags None s = full default_flags s ∧
   choose_scan default_flags None s = FullScan) ∧
  (scan default_flags (Some (IK true [])) s = full default_flags s ∧
   choose_scan default_flags (Some (IK true [])) s = FullScan) ∧
  (scan off key s = full off s ∧ choose_scan off key s = FullScan ∧
   found (scan off key s) = 1%nat ∧ found (filtered off key s) = 0%nat) ∧
  (scan default_flags key s = filtered default_flags key s ∧
   choose_scan default_flags key s = FilteredScan ∧
   found (scan default_flags key s) = 0%nat ∧
   found (full default_flags s) = 1%nat) ∧
  scan default_flags key (set_exit_reason_ kExitTimeout s)
  = (tt, set_exit_reason_ kExitTimeout s).
Proof.
  intros off s key scan full filtered found.
  pose proof (empty_key_means_full_scan default_flags scenario_chunk_size corpus_wide
                (re2_match [Cls 240 255]) None None utf8_is_valid
                utf8_distance frozen_clock zero_rand s 0%nat) as (Hnone & _).
  pose proof (empty_key_means_full_scan default_flags scenario_chunk_size corpus_wide
                (re2_match [Cls 240 255]) None (Some (IK true [])) utf8_is_valid
                utf8_distance frozen_clock zero_rand s 0%nat) as (Hempty & _).
  pose proof (empty_key_means_full_scan default_flags scenario_chunk_size corpus_wide
                (re2_match [Cls 240 255]) None key utf8_is_valid
                utf8_distance frozen_clock zero_rand s 0%nat)
    as (_ & Honly & _ & Hon & _).
  pose proof (empty_key_means_full_scan off scenario_chunk_size corpus_wide
                (re2_match [Cls 240 255]) None key utf8_is_valid
                utf8_distance frozen_clock zero_rand s 0%nat)
    as (_ & _ & Hoff & _).
  pose proof (empty_key_means_full_scan default_flags scenario_chunk_size corpus_wide
                (re2_match [Cls 240 255]) None key utf8_is_valid
                utf8_distance frozen_clock zero_rand
                (set_exit_reason_ kExitTimeout s) 0%nat)
    as (_ & _ & _ & _ & Hstop).
  split; [|split; [|split; [|split]]].
  - destruct (Hnone ltac:(by left)) as [H1 H2]. split; [exact H1|].
    apply H2. reflexivity.
  - destruct Hempty as [H1 H2].
    { right. eexists. split; reflexivity. }
    split; [exact H1|]. apply H2. reflexivity.
  - destruct (Hoff eq_refl) as [H1 H2]. split; [exact H1|].
    split; [apply H2; reflexivity|]. split; vm_compute; reflexivity.
  - destruct (Hon eq_refl eq_refl) as [H1 H2].
    { eexists. split; reflexivity. }
    destruct (Honly H1) as (_ & _ & H3).
    split; [exact H3|]. split; [exact H1|]. split; vm_compute; reflexivity.
  - apply Hstop. discriminate.
Defined.

Lemma index_walk_budget_sentinel_witness :
  0 ≤ scenario_chunk_size ∧
  let r := walk_index scenario_chunk_size corpus_a
             (Some (indexRE [Lit 98; Lit 97; Dot])) 0 in
  Z.of_nat (length r.2) ≤ indexes_size scenario_chunk_size ∧
  ((r.1 ≤ indexes_size scenario_chunk_size ∧ r.1 = Z.of_nat (length r.2)) ∨
   r.1 = indexes_size scenario_chunk_size + 1).
Proof.
  split; [done|].
  apply (index_walk_budget_sentinel scenario_chunk_size corpus_a
           (Some (indexRE [Lit 98; Lit 97; Dot])) 0%nat).
  done.
Defined.

(** ** The scenarios *)

(** C2: on the corpus of the one blob ["foo\nbar\nbaz\n"], the pattern
    [ba.] with no file filter and at most 50 matches gives two results, in
    this order: line 2 with the bytes ["bar"] and line 3 with the bytes
    ["baz"], each with the match from code point 0 to code point 3. *)
Theorem scenario_single_blob_two_matches :
  let r := run_query default_flags corpus_a [Lit 98; Lit 97; Dot] None in
  result_view corpus_a <$> r.1 =
    [(bytes_of "bar", 0, 3, [(0%nat, 2, [mkPath "r" "f"])]);
     (bytes_of "baz", 0, 3, [(0%nat, 3, [mkPath "r" "f"])])].
Proof. vm_compute. reflexivity. Qed.

(** A line that starts right after the terminator of the last piece is not
    joined to it: the test of [update_stats] compares the start of the line
    with the offset of that terminator. *)
Lemma append_content_after_terminator (line back : StringPiece) (sf : search_file) :
  last (sf_content sf) = Some back →
  sp_data line = ptr_add (sp_data back) (sp_size back + 1) →
  sf_content (append_content line sf) = sf_content sf ++ [line].
Proof.
  intros Hlast Hadj. unfold append_content. rewrite Hlast.
  rewrite bool_decide_eq_false_2; [done|].
  rewrite Hadj. unfold ptr_add. simpl. intros [= H]. lia.
Qed.

(** C6: after the blob ["a\nb\n"] is ingested into an empty corpus, the
    chunk holds the bytes ["a\nb\n"] and the content of the file is two
    pieces, the byte at offset 0 and the byte at offset 2.  The second line
    starts right after the terminator of the first, and is not joined to it
    into the one piece that spans the bytes 0 to 2. *)
Theorem adjacent_lines_are_not_joined :
  let cs := ingest new_code_searcher "r" "f" (bytes_of ("a" +:+ nl +:+ "b" +:+ nl)) in
  data <$> alloc_ cs = [bytes_of ("a" +:+ nl +:+ "b" +:+ nl)] ∧
  sf_content <$> files_ cs = [[mkSP (0%nat, 0) 1; mkSP (0%nat, 2) 1]] ∧
  sf_content <$> files_ cs ≠ [[mkSP (0%nat, 0) 3]].
Proof. vm_compute. done. Qed.

(** C3: in the blob ["a\n\n\nb\n"] three ['\n'] come before the line ["b"],
    which is line 4.  The two empty lines are interned once and the second
    is joined to the piece of the first, so the file has three pieces, and a
    search for [b] reports the line ["b"] as line 3. *)
Theorem blank_lines_shift_line_number :
  let r := run_query default_flags corpus_blank [Lit 98] None in
  result_view corpus_blank <$> r.1 =
    [(bytes_of "b", 0, 1, [(0%nat, 3, [mkPath "r" "f"])])] ∧
  count (take 4 blob_blank) NL = 3%nat ∧ drop 4 blob_blank = bytes_of ("b" +:+ nl) ∧
  sf_content <$> files_ corpus_blank =
    [[mkSP (0%nat, 0) 1; mkSP (0%nat, 2) 0; mkSP (0%nat, 3) 1]].
Proof. vm_compute. done. Qed.

(** C5: one blob ["x\n"] is ingested under the paths [a] and [b].  With the
    cap of one match, a search for [x] hands two results to the consumer:
    [try_match] counts and records a match for every path of the file, and
    the cap is only looked at between files. *)
Theorem match_cap_exceeded :
  let fl := Flags true true 1 1 in
  let r := run_query fl corpus_two_paths [Lit 120] None in
  FLAGS_max_matches fl = 1 ∧ length r.1 = 2%nat ∧
  result_view corpus_two_paths <$> r.1 =
    [(bytes_of "x", 0, 1, [(0%nat, 1, [mkPath "r" "a"])]);
     (bytes_of "x", 0, 1, [(0%nat, 1, [mkPath "r" "b"])])].
Proof. vm_compute. done. Qed.

(** C1: two searches where the index flag changes the set of (file, line
    number) pairs, with the cap and the timeout out of play.

    The walk loses an edge of the index key that ends at byte 255: the upper
    end of its slice is looked up for the byte [(255 + 1) mod 256 = 0], and
    the slice comes out empty.  On a chunk of 107 bytes whose second line
    starts with the byte 240, the walk for the class [[240-255]] leaves no
    position and the search with the index emits nothing, where the search
    without the index emits line 2; for [[240-254]] both emit line 2.

    With a file filter, [next_range] can end a range on an empty line that
    matches.  The file [src/a] is ["foo\n\n"] and the file [test/b] is
    ["y\n"]; the pattern [x*] matches the empty string on every line, and
    the filter accepts the paths that start with [src/].  Without the index
    the search emits line 1 and line 2 of [src/a].  With the index flag set
    it emits line 1 only: the range of [src/a] ends at offset 4, the start of
    its empty second line; after the match on line 1 [pos] is 4, which
    [full_search] takes for the end of the range, and the next range skips
    to the end of the chunk. *)
Theorem index_flag_changes_emitted_set :
  (walk_index scenario_chunk_size corpus_wide (Some (indexRE [Cls 240 255])) 0 = (0, []) ∧
   emitted_pairs (run_query (unbounded_flags true) corpus_wide [Cls 240 255] None).1 = [] ∧
   emitted_pairs (run_query (unbounded_flags false) corpus_wide [Cls 240 255] None).1
     = [(0%nat, 2)] ∧
   emitted_pairs (run_query (unbounded_flags true) corpus_wide [Cls 240 254] None).1
     = [(0%nat, 2)] ∧
   (run_query (unbounded_flags true) corpus_wide [Cls 240 255] None).2 = kExitNone ∧
   (run_query (unbounded_flags false) corpus_wide [Cls 240 255] None).2 = kExitNone) ∧
  (let filter := Some (String.prefix "src/") in
   let on := run_query (unbounded_flags true) corpus_src_test [Star 120] filter in
   let off := run_query (unbounded_flags false) corpus_src_test [Star 120] filter in
   emitted_pairs on.1 = [(0%nat, 1)] ∧
   emitted_pairs off.1 = [(0%nat, 1); (0%nat, 2)] ∧
   on.2 = kExitNone ∧ off.2 = kExitNone ∧
   data <$> alloc_ corpus_src_test = [bytes_of ("foo" +:+ nl +:+ nl +:+ "y" +:+ nl)] ∧
   files <$> alloc_ corpus_src_test = [[mkCF [0%nat] 0 4; mkCF [1%nat] 5 6]]).
Proof. vm_compute. done. Qed.

(** * Further properties of the code *)

(** ** [find_line] *)

Lemma memrchr_take_Some s c n i :
  memrchr (take n s) c = Some i →
  (i < n)%nat ∧ s !! i = Some c ∧ ∀ j, (i < j < n)%nat → s !! j ≠ Some c.
Proof.
  intros [Hi Hlast]%memrchr_Some.
  pose proof (lookup_lt_Some _ _ _ Hi) as Hlen. rewrite length_take in Hlen.
  rewrite lookup_take_lt in Hi by lia. repeat split; [lia|done|].
  intros j Hj Hs. apply (Hlast j); [lia|]. by rewrite lookup_take_lt by lia.
Qed.

Lemma memrchr_take_None s c n :
  memrchr (take n s) c = None → ∀ j, (j < n)%nat → s !! j ≠ Some c.
Proof.
  intros Hn%memrchr_None j Hj Hs. apply Hn, list_elem_of_lookup. exists j.
  by rewrite lookup_take_lt by lia.
Qed.

Lemma memchr_window_Some s c n m k :
  memchr (take m (drop n s)) c = Some k →
  (k < m)%nat ∧ s !! (n + k)%nat = Some c ∧
  ∀ j, (j < k)%nat → s !! (n + j)%nat ≠ Some c.
Proof.
  intros [Hk Hfirst]%memchr_Some.
  pose proof (lookup_lt_Some _ _ _ Hk) as Hlen. rewrite length_take in Hlen.
  rewrite lookup_take_lt, lookup_drop in Hk by lia. repeat split; [lia|done|].
  intros j Hj Hs. apply (Hfirst j); [lia|].
  by rewrite lookup_take_lt, lookup_drop by lia.
Qed.

Lemma memchr_window_None s c n m :
  memchr (take m (drop n s)) c = None →
  ∀ j, (j < m)%nat → s !! (n + j)%nat ≠ Some c.
Proof.
  intros Hn%memchr_None j Hj Hs. apply Hn, list_elem_of_lookup. exists j.
  by rewrite lookup_take_lt, lookup_drop by lia.
Qed.

(** The line [find_line] returns lies in the piece it was given, spans the
    match, starts at the start of the piece or right after a ['\n'], ends
    at the end of the piece or on a ['\n'], and holds no ['\n'] outside the
    match. *)
Theorem find_line_spans_match (a : chunk_allocator) (chunk match_ : StringPiece) :
  let bytes := sp_bytes a chunk in
  let moff := (sp_data match_).2 - (sp_data chunk).2 in
  let line := find_line a chunk match_ in
  let start := (sp_data line).2 - (sp_data chunk).2 in
  Z.of_nat (length bytes) = sp_size chunk →
  0 ≤ moff → 0 ≤ sp_size match_ → moff + sp_size match_ ≤ sp_size chunk →
  (sp_data line).1 = (sp_data chunk).1 ∧
  0 ≤ start ≤ moff ∧
  moff + sp_size match_ ≤ start + sp_size line ≤ sp_size chunk ∧
  (start = 0 ∨ bytes !! Z.to_nat (start - 1) = Some NL) ∧
  (start + sp_size line = sp_size chunk ∨
   bytes !! Z.to_nat (start + sp_size line) = Some NL) ∧
  (∀ j, start ≤ j < moff → bytes !! Z.to_nat j ≠ Some NL) ∧
  (∀ j, moff + sp_size match_ ≤ j < start + sp_size line →
        bytes !! Z.to_nat j ≠ Some NL).
Proof.
  intros bytes moff line start Hlen Hm0 Hs0 Hfit.
  subst line start. unfold find_line. fold bytes. fold moff. simpl.
  replace ((sp_data chunk).2 +
           match memrchr (take (Z.to_nat moff) bytes) NL with
           | Some i => Z.of_nat i + 1
           | None => 0
           end - (sp_data chunk).2)
    with (match memrchr (take (Z.to_nat moff) bytes) NL with
          | Some i => Z.of_nat i + 1
          | None => 0
          end) by lia.
  set (rest := moff + sp_size match_).
  assert (Hshift : ∀ (P : nat → Prop) (j : Z),
             rest ≤ j → P (Z.to_nat rest + Z.to_nat (j - rest))%nat → P (Z.to_nat j)).
  { intros P j Hj HP.
    by replace (Z.to_nat j) with (Z.to_nat rest + Z.to_nat (j - rest))%nat by lia. }
  destruct (memrchr (take (Z.to_nat moff) bytes) NL) as [i|] eqn:Ei;
    [apply memrchr_take_Some in Ei as (Hi & Hbi & Hli)
    |pose proof (memrchr_take_None _ _ _ Ei) as Hli];
    (destruct (memchr (take (Z.to_nat (sp_size chunk - rest))
                         (drop (Z.to_nat rest) bytes)) NL) as [k|] eqn:Ek;
     [apply memchr_window_Some in Ek as (Hk & Hbk & Hfk)
     |pose proof (memchr_window_None _ _ _ _ Ek) as Hfk]).
  all: split; [done|]; split; [lia|]; split; [lia|].
  all: split; [first [by left | right; rewrite <- Hbi; f_equal; lia]|].
  all: split; [first [left; lia | right; rewrite <- Hbk; f_equal; lia]|].
  all: split; [intros j Hj; apply Hli; lia|].
  all: intros j Hj; apply (Hshift (λ n, bytes !! n ≠ Some NL)); [lia|]; apply Hfk; lia.
Qed.

(** ** [std::lower_bound] with [lt_index] *)

Section LowerBound.

Variable c : chunk.
Variable idx val : Z.

Local Abbreviation below i := (lt_index c idx (default 0 (suffixes c !! i)) val).

Lemma lower_bound_loop_bounds fuel first count :
  (first ≤ lower_bound_loop fuel c idx val first count ≤ first + count)%nat.
Proof.
  revert first count. induction fuel as [|fuel IH]; intros first count; cbn [lower_bound_loop]; [lia|].
  case_bool_decide; [lia|].
  assert (count / 2 < count)%nat by (apply Nat.div_lt; lia).
  destruct (below (first + count / 2)%nat).
  - pose proof (IH (S (first + count / 2)) (count - (count / 2 + 1))%nat). lia.
  - pose proof (IH first (count / 2)%nat). lia.
Qed.

Lemma lower_bound_loop_partition fuel first count :
  (count ≤ fuel)%nat →
  (∀ i j, (first ≤ i ≤ j)%nat → (j < first + count)%nat →
          below j = true → below i = true) →
  let r := lower_bound_loop fuel c idx val first count in
  (∀ i, (first ≤ i < r)%nat → below i = true) ∧
  (∀ i, (r ≤ i < first + count)%nat → below i = false).
Proof.
  revert first count. induction fuel as [|fuel IH]; intros first count Hfuel Hmono; cbn [lower_bound_loop].
  { split; intros i Hi; lia. }
  case_bool_decide as Hc; [split; intros i Hi; lia|].
  assert (count / 2 < count)%nat as Hstep by (apply Nat.div_lt; lia).
  destruct (below (first + count / 2)%nat) eqn:Hit.
  - destruct (IH (S (first + count / 2)) (count - (count / 2 + 1))%nat) as [Ht Hf].
    { lia. }
    { intros i j Hij Hj. apply Hmono; lia. }
    pose proof (lower_bound_loop_bounds fuel (S (first + count / 2))
                  (count - (count / 2 + 1))%nat) as Hb.
    split.
    + intros i Hi. destruct (decide (i ≤ first + count / 2)%nat).
      * apply (Hmono i (first + count / 2)%nat); [lia|lia|done].
      * apply Ht. lia.
    + intros i Hi. apply Hf. lia.
  - destruct (IH first (count / 2)%nat) as [Ht Hf].
    { lia. }
    { intros i j Hij Hj. apply Hmono; lia. }
    pose proof (lower_bound_loop_bounds fuel first (count / 2)%nat) as Hb.
    split.
    + intros i Hi. apply Ht. lia.
    + intros i Hi. destruct (decide (i < first + count / 2)%nat).
      * apply Hf. lia.
      * destruct (below i) eqn:Hi'; [|done].
        rewrite <- Hit. symmetry. apply (Hmono _ i); [lia|lia|done].
Qed.

(** [lower_bound] stays inside the slice it searches; when the entries that
    compare below the value come first in the slice, it returns the index
    where they end: every entry before it compares below the value and no
    entry from it on does. *)
Theorem lower_bound_is_partition_point (first last : nat) :
  (first ≤ last)%nat →
  let r := lower_bound c idx first last val in
  (first ≤ r ≤ last)%nat ∧
  ((∀ i j, (first ≤ i ≤ j)%nat → (j < last)%nat → below j = true → below i = true) →
   (∀ i, (first ≤ i < r)%nat → below i = true) ∧
   (∀ i, (r ≤ i < last)%nat → below i = false)).
Proof.
  intros Hle r. subst r. unfold lower_bound. split.
  - pose proof (lower_bound_loop_bounds (last - first) first (last - first)). lia.
  - intros Hmono.
    destruct (lower_bound_loop_partition (last - first) first (last - first)) as [Ht Hf].
    { lia. }
    { intros i j Hij Hj. apply Hmono; lia. }
    split; [done|]. intros i Hi. apply Hf. lia.
Qed.

End LowerBound.

(** ** The walk of [filtered_search] is conservative *)

Lemma accepts_at_unfold c e edges p :
  accepts_at c (IK e edges) p =
  e || existsb (λ ed : Z * Z * option IndexKey,
                  bool_decide (ed.1.1 ≤ byte_at c p ≤ ed.1.2) &&
                  oaccepts_at c ed.2 (p + 1)) edges.
Proof.
  simpl. f_equal. induction edges as [|[[lo hi] child] edges IH]; [done|].
  simpl. by rewrite IH.
Qed.

Lemma key_wf_unfold e edges :
  key_wf (IK e edges) =
  forallb (λ ed : Z * Z * option IndexKey,
             bool_decide (range_ok ed.1.1 ed.1.2) && okey_wf ed.2) edges.
Proof.
  simpl. induction edges as [|[[lo hi] child] edges IH]; [done|].
  simpl. by rewrite IH.
Qed.

Lemma lt_index_rank c d p v :
  0 ≤ v → lt_index c d p v = bool_decide (byte_rank (byte_at c (p + d)) < v).
Proof.
  intros Hv. unfold lt_index, lt_index_cmp, byte_rank.
  destruct (bool_decide (byte_at c (p + d) = NL)); apply bool_decide_ext; lia.
Qed.

Section WalkConservative.

Variable kChunkSize : Z.
Variable c : chunk.
Hypothesis Hsorted : suffix_sorted c.

Local Abbreviation index_walk := (index_walk kChunkSize).
Local Abbreviation indexes_size := (indexes_size kChunkSize).
Local Abbreviation rank_at d i := (byte_rank (byte_at c (entry c i + d))).

Lemma frame_rank_mono st i j :
  frame_uniform c st → (ws_left st ≤ i)%nat → (i ≤ j)%nat → (j < ws_right st)%nat →
  rank_at (ws_depth st) i ≤ rank_at (ws_depth st) j.
Proof.
  intros (Hb & Hd & Hu) Hi Hij Hj. apply Hsorted; [lia|done|].
  intros k Hk. apply Hu; [lia|lia|done].
Qed.

Lemma frame_lower_bound st a b v :
  frame_uniform c st → (ws_left st ≤ a)%nat → (a ≤ b)%nat → (b ≤ ws_right st)%nat →
  0 ≤ v →
  let r := lower_bound c (ws_depth st) a b v in
  (a ≤ r ≤ b)%nat ∧
  (∀ i, (a ≤ i < r)%nat → rank_at (ws_depth st) i < v) ∧
  (∀ i, (r ≤ i < b)%nat → v ≤ rank_at (ws_depth st) i).
Proof.
  intros Hst Ha Hab Hb Hv r. subst r. unfold lower_bound.
  pose proof (lower_bound_loop_bounds c (ws_depth st) v (b - a) a (b - a)) as Hbd.
  destruct (lower_bound_loop_partition c (ws_depth st) v (b - a) a (b - a)) as [Ht Hf].
  { lia. }
  { intros i j Hij Hj. rewrite !lt_index_rank by done.
    intros Hjv%bool_decide_eq_true. apply bool_decide_eq_true.
    pose proof (frame_rank_mono st i j Hst). unfold entry in *. lia. }
  split; [lia|]. split.
  - intros i Hi. specialize (Ht i Hi). rewrite lt_index_rank in Ht by done.
    by apply bool_decide_eq_true in Ht.
  - intros i Hi.
    assert (lower_bound_loop (b - a) c (ws_depth st) v a (b - a) ≤ i < a + (b - a))%nat
      as Hi' by lia.
    specialize (Hf i Hi'). rewrite lt_index_rank in Hf by done.
    apply bool_decide_eq_false in Hf. unfold entry. lia.
Qed.

Lemma push_bytes_cover st n child ch a right stack :
  frame_uniform c st →
  (ws_left st ≤ a)%nat → (a ≤ right)%nat → (right ≤ ws_right st)%nat →
  0 ≤ ch → ch + Z.of_nat n ≤ 255 →
  (∀ i, (a ≤ i < right)%nat → ch ≤ rank_at (ws_depth st) i) →
  ∃ pushed,
    push_bytes n c (ws_depth st) child ch a right stack = pushed ++ stack ∧
    Forall (λ f, frame_uniform c f ∧ ws_key f = child ∧
                 ws_depth f = ws_depth st + 1) pushed ∧
    ∀ i, (a ≤ i < right)%nat → rank_at (ws_depth st) i < ch + Z.of_nat n →
         ∃ f, f ∈ pushed ∧ (ws_left f ≤ i < ws_right f)%nat.
Proof.
  intros Hst. revert ch a stack.
  induction n as [|n IH]; intros ch a stack Ha Har Hr Hch Hn Hlow.
  { exists []. split; [done|]. split; [constructor|].
    intros i Hi Hrank. specialize (Hlow i Hi). lia. }
  cbn [push_bytes].
  replace ((ch + 1) `mod` 256) with (ch + 1) by (rewrite Z.mod_small; lia).
  destruct (frame_lower_bound st a right (ch + 1) Hst Ha Har Hr) as (Hb & Hlt & Hge);
    [lia|].
  set (r := lower_bound c (ws_depth st) a right (ch + 1)) in *.
  set (stack' := if bool_decide (r = a) then stack
                 else mkWalk a r child (ws_depth st + 1) :: stack).
  destruct (IH (ch + 1) r stack') as (pushed & Heq & Hall & Hcov); try lia.
  { intros i Hi. apply Hge. lia. }
  assert (Hframe : r ≠ a →
            frame_uniform c (mkWalk a r child (ws_depth st + 1))).
  { intros Hne. destruct Hst as (Hbd & Hd & Hu). split; [simpl; lia|].
    split; [simpl; lia|]. simpl. intros i j k Hi Hj Hk.
    destruct (decide (k < ws_depth st)) as [Hlt'|Hge'].
    - apply Hu; lia.
    - assert (k = ws_depth st) as -> by lia.
      pose proof (Hlt i Hi) as H1. pose proof (Hlt j Hj) as H2.
      pose proof (Hlow i ltac:(lia)) as H3. pose proof (Hlow j ltac:(lia)) as H4.
      unfold byte_rank in *.
      destruct (bool_decide (byte_at c (entry c i + ws_depth st) = NL)) eqn:Ei;
        [lia|].
      destruct (bool_decide (byte_at c (entry c j + ws_depth st) = NL)) eqn:Ej;
        [lia|].
      apply bool_decide_eq_false in Ei. split; [lia|done]. }
  subst stack'. case_bool_decide as Hra.
  - exists pushed. split; [done|]. split; [done|].
    intros i Hi Hrank. apply Hcov; [|lia].
    destruct (decide (r ≤ i)%nat); [lia|].
    pose proof (Hlt i ltac:(lia)). lia.
  - exists (pushed ++ [mkWalk a r child (ws_depth st + 1)]).
    split; [by rewrite <- app_assoc|]. split.
    + apply Forall_app. split; [done|]. constructor; [|constructor]. by split; [apply Hframe|].
    + intros i Hi Hrank. destruct (decide (r ≤ i)%nat) as [Hri|Hri].
      * destruct (Hcov i) as (f & Hf & Hfi); [lia|lia|].
        exists f. split; [|done]. apply elem_of_app. by left.
      * exists (mkWalk a r child (ws_depth st + 1)). split; [|simpl; lia].
        apply elem_of_app. right. left.
Qed.

Lemma push_edges_cover st edges stack :
  frame_uniform c st →
  forallb (λ ed : Z * Z * option IndexKey,
             bool_decide (range_ok ed.1.1 ed.1.2) && okey_wf ed.2) edges = true →
  ∃ pushed,
    push_edges c st edges stack = pushed ++ stack ∧
    Forall (λ f, frame_ok c f ∧ ws_depth f = ws_depth st + 1) pushed ∧
    ∀ i lo hi child,
      (ws_left st ≤ i < ws_right st)%nat → (lo, hi, child) ∈ edges →
      lo ≤ byte_at c (entry c i + ws_depth st) ≤ hi →
      ∃ f, f ∈ pushed ∧ (ws_left f ≤ i < ws_right f)%nat ∧
           ws_key f = child ∧ ws_depth f = ws_depth st + 1.
Proof.
  intros Hst. revert stack.
  induction edges as [|[[lo hi] child] edges IH]; intros stack Hwf.
  { exists []. split; [done|]. split; [constructor|].
    intros i lo hi child _ Hin. by apply elem_of_nil in Hin. }
  simpl in Hwf. apply andb_true_iff in Hwf as [Hed Hwf].
  apply andb_true_iff in Hed as [Hrange Hchild].
  apply bool_decide_eq_true in Hrange. destruct Hrange as (Hlo & Hhi & Hnl).
  cbn [push_edges].
  replace ((hi + 1) `mod` 256) with (hi + 1) by (rewrite Z.mod_small; lia).
  destruct (frame_lower_bound st (ws_left st) (ws_right st) lo Hst) as (Hb1 & Hlt1 & Hge1);
    [lia|destruct Hst as ((? & ?) & _); lia|lia|lia|].
  set (l := lower_bound c (ws_depth st) (ws_left st) (ws_right st) lo) in *.
  destruct (frame_lower_bound st l (ws_right st) (hi + 1) Hst) as (Hb2 & Hlt2 & Hge2);
    [lia|lia|lia|lia|].
  set (right := lower_bound c (ws_depth st) l (ws_right st) (hi + 1)) in *.
  assert (Hinrange : ∀ i, (ws_left st ≤ i < ws_right st)%nat →
            lo ≤ byte_at c (entry c i + ws_depth st) ≤ hi → (l ≤ i < right)%nat).
  { intros i Hi Hbyte.
    assert (rank_at (ws_depth st) i = byte_at c (entry c i + ws_depth st)) as Hrk.
    { unfold byte_rank. rewrite bool_decide_eq_false_2; [done|]. intros E. apply Hnl.
      rewrite <- E. done. }
    split.
    - destruct (decide (l ≤ i)%nat); [done|]. pose proof (Hlt1 i ltac:(lia)). lia.
    - destruct (decide (i < right)%nat); [done|]. pose proof (Hge2 i ltac:(lia)). lia. }
  case_bool_decide as Hempty.
  - destruct (IH stack Hwf) as (pushed & Heq & Hall & Hcov).
    exists pushed. split; [done|]. split; [done|].
    intros i lo' hi' child' Hi Hin Hbyte.
    apply elem_of_cons in Hin as [[= -> -> ->]|Hin]; [|by eapply Hcov].
    pose proof (Hinrange i Hi Hbyte). lia.
  - destruct (push_bytes_cover st (Z.to_nat (hi - lo + 1)) child lo l right stack Hst)
      as (pb & Hpb & Hpball & Hpbcov); [lia|lia|lia|lia|lia| |].
    { intros i Hi. apply Hge1. lia. }
    rewrite Hpb.
    destruct (IH (pb ++ stack) Hwf) as (pushed & Heq & Hall & Hcov).
    exists (pushed ++ pb). split; [by rewrite <- app_assoc|]. split.
    + apply Forall_app. split; [done|].
      eapply Forall_impl; [exact Hpball|]. intros f (Hfu & Hfk & Hfd).
      split; [|done]. split; [done|]. by rewrite Hfk.
    + intros i lo' hi' child' Hi Hin Hbyte.
      apply elem_of_cons in Hin as [[= -> -> ->]|Hin].
      * pose proof (Hinrange i Hi Hbyte) as Hir.
        destruct (Hpbcov i Hir) as (f & Hf & Hfi).
        { pose proof (Hlt2 i ltac:(lia)). lia. }
        pose proof (proj1 (Forall_forall _ _) Hpball f Hf) as (_ & Hfk & Hfd).
        exists f. split; [apply elem_of_app; by right|]. done.
      * destruct (Hcov i lo' hi' child' Hi Hin Hbyte) as (f & Hf & Hrest).
        exists f. split; [apply elem_of_app; by left|done].
Qed.

Lemma copy_slice_elem l r i : (l ≤ i < r)%nat → entry c i ∈ copy_slice c l r.
Proof.
  intros Hi. unfold copy_slice.
  apply (list_elem_of_fmap_2 (λ i, default 0 (suffixes c !! i)) _ i).
  apply elem_of_seq. lia.
Qed.

Lemma index_walk_cover fuel stack count_ out :
  (stack_weight stack ≤ fuel)%nat → Forall (frame_ok c) stack →
  (index_walk fuel c stack count_ out).1 ≤ indexes_size →
  ∀ i, entry c i ∈ out ∨ pending c stack i →
       entry c i ∈ (index_walk fuel c stack count_ out).2.
Proof.
  revert stack count_ out.
  induction fuel as [|fuel IH]; intros stack count_ out Hw Hok Hres i Hi.
  { destruct stack as [|st stack].
    - simpl. destruct Hi as [Hi|(st & Hst & _)]; [done|by apply elem_of_nil in Hst].
    - rewrite stack_weight_cons in Hw. pose proof (okey_weight_pos (ws_key st)). lia. }
  destruct stack as [|st stack].
  { simpl. destruct Hi as [Hi|(st & Hst & _)]; [done|by apply elem_of_nil in Hst]. }
  apply Forall_cons in Hok as [[Hfu Hwf] Hok].
  rewrite stack_weight_cons in Hw. pose proof (okey_weight_pos (ws_key st)) as Hpos.
  simpl in Hres |- *.
  destruct (copies_slice st) eqn:Hcopy.
  - case_bool_decide as Hover; [simpl in Hres; lia|].
    apply IH; [lia|done|done|].
    destruct Hi as [Hi|(f & Hf & Hfi & Hacc)].
    + left. apply elem_of_app. by left.
    + apply elem_of_cons in Hf as [->|Hf].
      * left. apply elem_of_app. right. by apply copy_slice_elem.
      * right. by exists f.
  - unfold copies_slice in Hcopy.
    destruct (ws_key st) as [[e edges]|] eqn:Hk; [|done].
    apply orb_false_iff in Hcopy as [He _]. simpl in He. subst e.
    cbn [okey_wf] in Hwf. rewrite key_wf_unfold in Hwf.
    destruct (push_edges_cover st edges stack Hfu Hwf) as (pushed & Heq & Hall & Hcov).
    pose proof (push_edges_weight c st edges stack) as Hpush.
    cbn [okey_weight] in Hw. rewrite key_weight_unfold in Hw.
    simpl. simpl in Hres. rewrite Heq in *.
    apply IH; [lia| |done|].
    { apply Forall_app. split; [|done].
      eapply Forall_impl; [exact Hall|]. by intros f [? _]. }
    destruct Hi as [Hi|(f & Hf & Hfi & Hacc)]; [by left|right].
    apply elem_of_cons in Hf as [->|Hf].
    + rewrite Hk in Hacc. cbn [oaccepts_at] in Hacc.
      rewrite accepts_at_unfold in Hacc. simpl in Hacc.
      apply existsb_exists in Hacc as ([[lo hi] child] & Hin & Hed).
      apply andb_true_iff in Hed as [Hbyte Hchild]. simpl in Hbyte, Hchild.
      apply bool_decide_eq_true in Hbyte.
      destruct (Hcov i lo hi child Hfi) as (g & Hg & Hgi & Hgk & Hgd);
        [by apply list_elem_of_In|done|].
      exists g. split; [apply elem_of_app; by left|]. split; [done|].
      rewrite Hgk, Hgd. by rewrite Z.add_assoc.
    + exists f. split; [apply elem_of_app; by right|done].
Qed.

End WalkConservative.

Lemma byte_at_range c p :
  forallb (λ b, bool_decide (0 ≤ b < 256)) (data c) = true → 0 ≤ byte_at c p < 256.
Proof.
  intros Hall. unfold byte_at. case_bool_decide; [|lia].
  destruct (data c !! Z.to_nat p) as [b|] eqn:Hb; simpl; [|lia].
  rewrite forallb_forall in Hall.
  specialize (Hall b ltac:(apply list_elem_of_In; by eapply list_elem_of_lookup_2)).
  by apply bool_decide_eq_true in Hall.
Qed.

Lemma suffix_leb_rank fuel c p q d :
  forallb (λ b, bool_decide (0 ≤ b < 256)) (data c) = true →
  suffix_leb fuel c p q = true → 0 ≤ d → (Z.to_nat d < fuel)%nat →
  (∀ k, 0 ≤ k < d → byte_at c (p + k) = byte_at c (q + k) ∧ byte_at c (p + k) ≠ NL) →
  byte_rank (byte_at c (p + d)) ≤ byte_rank (byte_at c (q + d)).
Proof.
  intros Hbytes. revert p q d.
  induction fuel as [|fuel IH]; intros p q d Hle Hd Hfuel Hagree; [lia|].
  cbn [suffix_leb] in Hle.
  destruct (decide (d = 0)) as [->|Hd0].
  - rewrite !Z.add_0_r. unfold byte_rank.
    pose proof (byte_at_range c q Hbytes).
    repeat case_bool_decide; try done; lia.
  - destruct (Hagree 0 ltac:(lia)) as [Heq Hnl]. rewrite !Z.add_0_r in Heq. rewrite Z.add_0_r in Hnl.
    rewrite bool_decide_eq_false_2 in Hle by done.
    rewrite bool_decide_eq_false_2 in Hle by (by rewrite <- Heq).
    rewrite !bool_decide_eq_false_2 in Hle by lia.
    replace (p + d) with (p + 1 + (d - 1)) by lia.
    replace (q + d) with (q + 1 + (d - 1)) by lia.
    apply IH; [done|lia|lia|].
    intros k Hk. replace (p + 1 + k) with (p + (k + 1)) by lia.
    replace (q + 1 + k) with (q + (k + 1)) by lia. apply Hagree. lia.
Qed.

Lemma suffix_sorted_check_sound c : suffix_sorted_check c = true → suffix_sorted c.
Proof.
  unfold suffix_sorted_check. intros Hcheck.
  apply andb_true_iff in Hcheck as [Hcheck Hpairs].
  apply andb_true_iff in Hcheck as [Hcheck Hlast].
  apply andb_true_iff in Hcheck as [Hbytes Hoffs].
  apply bool_decide_eq_true in Hlast.
  intros i j d Hij Hd Hagree.
  destruct (decide (i = j)) as [->|Hne]; [done|].
  rewrite forallb_forall in Hpairs.
  specialize (Hpairs j ltac:(apply in_seq; lia)).
  rewrite forallb_forall in Hpairs.
  specialize (Hpairs i ltac:(apply in_seq; lia)).
  apply (suffix_leb_rank (length (data c))); [done|done|done| |done].
  assert (0 ≤ entry c i < size c) as Hei.
  { unfold entry. destruct (suffixes c !! i) as [p|] eqn:Hp.
    - rewrite forallb_forall in Hoffs.
      specialize (Hoffs p ltac:(apply list_elem_of_In; by eapply list_elem_of_lookup_2)).
      by apply bool_decide_eq_true in Hoffs.
    - apply lookup_ge_None in Hp. lia. }
  unfold size in *.
  destruct (decide (d < Z.of_nat (length (data c)))); [lia|].
  destruct (Hagree (Z.of_nat (length (data c)) - 1 - entry c i) ltac:(lia)) as [_ Hnl].
  exfalso. apply Hnl. rewrite <- Hlast. f_equal. lia.
Qed.

(** In a chunk whose suffix array is sorted, the walk of [filtered_search]
    loses no position the key stands for: when the walk stays within the
    budget, every entry of the suffix array where the chunk starts with a
    prefix of the key is among the positions it writes to [indexes].  The
    ranges of the key are taken below byte 255 and without ['\n']. *)
Theorem walk_keeps_accepted_suffixes (kChunkSize : Z) (cc_ : code_searcher)
    (index_ : option IndexKey) (ci i : nat) :
  let c := the_chunk cc_ ci in
  length (suffixes c) = length (data c) →
  suffix_sorted c →
  okey_wf index_ = true →
  (walk_index kChunkSize cc_ index_ ci).1 ≤ indexes_size kChunkSize →
  (i < length (suffixes c))%nat →
  oaccepts_at c index_ (entry c i) = true →
  entry c i ∈ (walk_index kChunkSize cc_ index_ ci).2.
Proof.
  intros c Hlen Hsorted Hwf Hres Hi Hacc. unfold walk_index in *. fold c in Hres |- *.
  apply (index_walk_cover kChunkSize c Hsorted); [|  |done|].
  - rewrite stack_weight_cons. unfold stack_weight. simpl. lia.
  - constructor; [|constructor]. split; [|done].
    split; [simpl; unfold size; lia|]. split; [simpl; lia|].
    simpl. intros ? ? k _ _ Hk. lia.
  - right. exists (mkWalk 0 (Z.to_nat (size c)) index_ 0). split; [left|].
    split; [simpl; unfold size; lia|]. simpl. by rewrite Z.add_0_r.
Qed.

Lemma walk_keeps_accepted_suffixes_witness :
  let c := the_chunk corpus_wide 0 in
  let index := Some (indexRE [Cls 240 254]) in
  entry c 106 = 102 ∧
  entry c 106 ∈ (walk_index scenario_chunk_size corpus_wide index 0).2.
Proof.
  split; [reflexivity|].
  apply (walk_keeps_accepted_suffixes scenario_chunk_size corpus_wide
           (Some (indexRE [Cls 240 254])) 0 106).
  - reflexivity.
  - apply suffix_sorted_check_sound. vm_compute. reflexivity.
  - reflexivity.
  - vm_compute. discriminate.
  - vm_compute. lia.
  - reflexivity.
Defined.

Lemma find_line_spans_match_witness :
  let a := alloc_ corpus_a in
  let chunk := mkSP (0%nat, 0) 12 in
  let match_ := mkSP (0%nat, 5) 2 in
  let line := find_line a chunk match_ in
  sp_bytes a line = bytes_of "bar" ∧
  (sp_data line).2 - (sp_data chunk).2 ≤ 5 ∧
  7 ≤ (sp_data line).2 - (sp_data chunk).2 + sp_size line.
Proof.
  split; [reflexivity|].
  destruct (find_line_spans_match (alloc_ corpus_a) (mkSP (0%nat, 0) 12)
              (mkSP (0%nat, 5) 2))
    as (_ & [_ Hstart] & [Hend _] & _); [reflexivity|simpl; lia|simpl; lia|simpl; lia|].
  split; [exact Hstart|exact Hend].
Defined.

Lemma line_end_spec_witness :
  let c := the_chunk corpus_a 0 in
  line_end c 5 = 7 ∧
  ((line_end c 5 = size c ∧ ∀ j, 5 ≤ j < size c → byte_at c j ≠ NL) ∨
   (5 ≤ line_end c 5 < size c ∧ byte_at c (line_end c 5) = NL ∧
    ∀ j, 5 ≤ j < line_end c 5 → byte_at c j ≠ NL)).
Proof.
  split; [reflexivity|].
  apply (line_end_spec (the_chunk corpus_a 0) 5). vm_compute. split; discriminate.
Defined.

Lemma lower_bound_is_partition_point_witness :
  let c := the_chunk corpus_a 0 in
  let r := lower_bound c 0 0 12 99 in
  r = 7%nat ∧
  (∀ i, (0 ≤ i < r)%nat → lt_index c 0 (default 0 (suffixes c !! i)) 99 = true) ∧
  (∀ i, (r ≤ i < 12)%nat → lt_index c 0 (default 0 (suffixes c !! i)) 99 = false).
Proof.
  split; [reflexivity|].
  apply (lower_bound_is_partition_point (the_chunk corpus_a 0) 0 99 0 12); [lia|].
  intros i j Hij Hj. rewrite !lt_index_rank by lia.
  intros Hbelow%bool_decide_eq_true. apply bool_decide_eq_true.
  assert (suffix_sorted (the_chunk corpus_a 0)) as Hsorted
    by (apply suffix_sorted_check_sound; vm_compute; reflexivity).
  pose proof (Hsorted i j 0) as Hle. unfold entry in Hle.
  assert (length (suffixes (the_chunk corpus_a 0)) = 12%nat) as Hlen by reflexivity.
  specialize (Hle ltac:(lia) ltac:(lia) ltac:(intros; lia)). lia.
Defined.

(** ** The walk of [filtered_search] writes entries of the suffix array *)

Lemma lower_bound_bounds c idx first last val :
  (first ≤ last)%nat →
  (first ≤ lower_bound c idx first last val ≤ last)%nat.
Proof.
  intros Hle. unfold lower_bound.
  pose proof (lower_bound_loop_bounds c idx val (last - first) first (last - first)).
  lia.
Qed.

Lemma push_bytes_frames (P : walk_state → Prop) n c d child ch a right stack :
  (a ≤ right)%nat → Forall P stack →
  (∀ l r, (a ≤ l)%nat → (l < r)%nat → (r ≤ right)%nat → P (mkWalk l r child (d + 1))) →
  Forall P (push_bytes n c d child ch a right stack).
Proof.
  revert ch a stack. induction n as [|n IH]; intros ch a stack Ha Hstack HP; [done|].
  cbn [push_bytes].
  pose proof (lower_bound_bounds c d a right ((ch + 1) `mod` 256) Ha) as Hb.
  apply IH; [lia| |].
  - case_bool_decide; [done|]. constructor; [|done]. apply HP; lia.
  - intros l r Hl Hlr Hr. apply HP; lia.
Qed.

Lemma push_edges_frames (P : walk_state → Prop) c st edges stack :
  (ws_left st ≤ ws_right st)%nat → Forall P stack →
  (∀ l r child, (ws_left st ≤ l)%nat → (l < r)%nat → (r ≤ ws_right st)%nat →
     child ∈ edges.*2 → P (mkWalk l r child (ws_depth st + 1))) →
  Forall P (push_edges c st edges stack).
Proof.
  revert stack. induction edges as [|[[lo hi] child] edges IH]; intros stack Hst Hstack HP;
    [done|].
  cbn [push_edges].
  pose proof (lower_bound_bounds c (ws_depth st) (ws_left st) (ws_right st) lo Hst) as Hl.
  set (l := lower_bound c (ws_depth st) (ws_left st) (ws_right st) lo) in *.
  pose proof (lower_bound_bounds c (ws_depth st) l (ws_right st) ((hi + 1) `mod` 256)
                ltac:(lia)) as Hr.
  set (right := lower_bound c (ws_depth st) l (ws_right st) ((hi + 1) `mod` 256)) in *.
  assert (HP' : ∀ l r child, (ws_left st ≤ l)%nat → (l < r)%nat → (r ≤ ws_right st)%nat →
            child ∈ edges.*2 → P (mkWalk l r child (ws_depth st + 1))).
  { intros l' r' child' ? ? ? Hin. apply HP; try done. rewrite fmap_cons. by right. }
  case_bool_decide; [by apply IH|].
  apply IH; [done| |done].
  apply push_bytes_frames; [lia|done|].
  intros l' r' ? ? ?. apply HP; [lia|lia|lia|]. rewrite fmap_cons. left.
Qed.

Lemma index_walk_entries kChunkSize fuel c stack count_ out :
  Forall (λ st, (ws_left st ≤ ws_right st ≤ length (suffixes c))%nat) stack →
  (∀ p, p ∈ out → p ∈ suffixes c) →
  ∀ p, p ∈ (index_walk kChunkSize fuel c stack count_ out).2 → p ∈ suffixes c.
Proof.
  revert stack count_ out.
  induction fuel as [|fuel IH]; intros stack count_ out Hstack Hout p; [by apply Hout|].
  destruct stack as [|st stack]; [by apply Hout|].
  apply Forall_cons in Hstack as [Hst Hstack]. simpl.
  destruct (copies_slice st).
  - case_bool_decide; [by apply Hout|].
    apply IH; [done|]. intros q [Hq|Hq]%elem_of_app; [by apply Hout|].
    unfold copy_slice in Hq. apply list_elem_of_fmap in Hq as (i & -> & Hi).
    apply elem_of_seq in Hi.
    destruct (suffixes c !! i) as [x|] eqn:Hx; simpl.
    + by eapply list_elem_of_lookup_2.
    + apply lookup_ge_None in Hx. lia.
  - apply IH; [|done].
    apply push_edges_frames; [lia|done|]. simpl. intros; lia.
Qed.

(** Whatever the key, the positions the walk of [filtered_search] writes to
    [indexes] are entries of the suffix array of the chunk. *)
Theorem walk_writes_suffix_entries (kChunkSize : Z) (cc_ : code_searcher)
    (index_ : option IndexKey) (ci : nat) (p : Z) :
  let c := the_chunk cc_ ci in
  length (suffixes c) = length (data c) →
  p ∈ (walk_index kChunkSize cc_ index_ ci).2 → p ∈ suffixes c.
Proof.
  intros c Hlen. unfold walk_index. fold c.
  apply index_walk_entries.
  - constructor; [|constructor]. simpl. unfold size. lia.
  - intros q Hq. by apply elem_of_nil in Hq.
Qed.

Lemma walk_writes_suffix_entries_witness :
  let c := the_chunk corpus_a 0 in
  let index := Some (indexRE [Lit 98; Lit 97; Dot]) in
  4 ∈ (walk_index scenario_chunk_size corpus_a index 0).2 ∧ 4 ∈ suffixes c.
Proof.
  assert (H : 4 ∈ (walk_index scenario_chunk_size corpus_a
                     (Some (indexRE [Lit 98; Lit 97; Dot])) 0).2).
  { vm_compute. apply list_elem_of_In. vm_compute. tauto. }
  split; [exact H|].
  apply (walk_writes_suffix_entries scenario_chunk_size corpus_a
           (Some (indexRE [Lit 98; Lit 97; Dot])) 0 4); [reflexivity|exact H].
Defined.

(** ** [filtered_search] past the budget *)

(** When the walk ends past its budget, with the count [B + 1],
    [filtered_search] does what [full_search] does on the chunk: the count
    is above one fiftieth of any chunk of at most [kChunkSize] bytes. *)
Theorem over_budget_walk_is_full_search (flags_ : flags) (kChunkSize : Z)
    (cc_ : code_searcher) (pat_ : list Z → Z → Z → option (Z * Z))
    (file_pat_ : option (string → bool)) (index_ : option IndexKey)
    (utf8_is_valid : list Z → bool) (utf8_distance : list Z → Z)
    (gettimeofday : nat → Z * Z) (rand : nat → Z) (ci : nat) :
  0 ≤ kChunkSize →
  size (the_chunk cc_ ci) ≤ kChunkSize →
  (walk_index kChunkSize cc_ index_ ci).1 = indexes_size kChunkSize + 1 →
  filtered_search flags_ kChunkSize cc_ pat_ file_pat_ index_ utf8_is_valid
    utf8_distance gettimeofday rand ci
  = full_search flags_ cc_ pat_ file_pat_ utf8_is_valid utf8_distance gettimeofday ci.
Proof.
  intros Hk Hsize Hover. unfold filtered_search.
  destruct (walk_index kChunkSize cc_ index_ ci) as [count_ indexes] eqn:Hwalk.
  simpl in Hover. subst count_. unfold search_lines.
  assert (0 ≤ indexes_size kChunkSize) as HB
    by (unfold indexes_size, kMinFilterRatio; apply Z.div_pos; lia).
  rewrite bool_decide_eq_false_2 by lia.
  rewrite bool_decide_eq_true_2; [done|].
  unfold indexes_size, kMinFilterRatio in *.
  pose proof (Z.mul_succ_div_gt kChunkSize 50 ltac:(lia)). lia.
Qed.

Lemma over_budget_walk_is_full_search_witness :
  let index := Some (indexRE [Lit 97]) in
  (walk_index 107 corpus_wide index 0).1 = 3 ∧
  filtered_search default_flags 107 corpus_wide (re2_match [Lit 97]) None index
    utf8_is_valid utf8_distance frozen_clock zero_rand 0
  = full_search default_flags corpus_wide (re2_match [Lit 97]) None utf8_is_valid
      utf8_distance frozen_clock 0.
Proof.
  split; [reflexivity|].
  apply (over_budget_walk_is_full_search default_flags 107 corpus_wide
           (re2_match [Lit 97]) None (Some (indexRE [Lit 97])) utf8_is_valid
           utf8_distance frozen_clock zero_rand 0); [lia|vm_compute; discriminate|reflexivity].
Defined.

(** ** The state of the searcher along a query *)

Lemma post_ret {A} (x : A) s (Q : A → searcher_state → Prop) :
  Q x s → post (ret x) s Q.
Proof. done. Qed.

Lemma post_bind {A B} (m : M A) (f : A → M B) s (Q : B → searcher_state → Prop) :
  post m s (λ x s', post (f x) s' Q) → post (bind m f) s Q.
Proof. unfold post, bind. by destruct (m s). Qed.

Lemma post_get s (Q : searcher_state → searcher_state → Prop) :
  Q s s → post get s Q.
Proof. done. Qed.

Lemma post_modify f s (Q : unit → searcher_state → Prop) :
  Q tt (f s) → post (modify f) s Q.
Proof. done. Qed.

Lemma post_mono {A} (m : M A) s (Q Q' : A → searcher_state → Prop) :
  post m s Q → (∀ x s', Q x s' → Q' x s') → post m s Q'.
Proof. unfold post. auto. Qed.

Lemma ltb_trans (a b c : string) :
  String.ltb a b = true → String.ltb b c = true → String.ltb a c = true.
Proof.
  unfold String.ltb. intros Hab Hbc.
  destruct (String.compare a b) eqn:Eab; try done.
  destruct (String.compare b c) eqn:Ebc; try done.
  apply OrderedTypeEx.String_as_OT.cmp_lt in Eab, Ebc.
  pose proof (OrderedTypeEx.String_as_OT.lt_trans _ _ _ Eab Ebc) as Hac.
  apply OrderedTypeEx.String_as_OT.cmp_lt in Hac.
  unfold OrderedTypeEx.String_as_OT.cmp in Hac. by rewrite Hac.
Qed.

Lemma ltb_irrefl (a : string) : String.ltb a a = false.
Proof.
  unfold String.ltb. pose proof (String.compare_antisym a a) as H.
  by destruct (String.compare a a).
Qed.

Lemma ltb_total (a b : string) :
  a ≠ b → String.ltb a b = false → String.ltb b a = true.
Proof.
  unfold String.ltb. intros Hne Hab. rewrite String.compare_antisym.
  destruct (String.compare a b) eqn:E; try done.
  by apply String.compare_eq_iff in E.
Qed.

Lemma map_find_set {V} (m : list (string * V)) k v :
  map_find (map_set m k v) k = Some v.
Proof.
  induction m as [|[k' v'] m IH]; simpl.
  - by rewrite decide_True.
  - destruct (decide (k' = k)) as [->|Hne]; simpl.
    + by rewrite decide_True.
    + destruct (String.ltb k k'); simpl.
      * by rewrite decide_True.
      * by rewrite decide_False.
Qed.

Lemma map_set_keys {V} (m : list (string * V)) k v x :
  x ∈ (map_set m k v).*1 → x = k ∨ x ∈ m.*1.
Proof.
  induction m as [|[k' v'] m IH]; simpl.
  - intros [->|H]%elem_of_cons; [by left|by apply elem_of_nil in H].
  - destruct (decide (k' = k)) as [->|Hne]; simpl.
    + intros [->|H]%elem_of_cons; [by left|]. right. by right.
    + destruct (String.ltb k k'); simpl.
      * intros [->|H]%elem_of_cons; [by left|by right].
      * intros [->|H]%elem_of_cons; [right; by left|].
        destruct (IH H) as [->|H']; [by left|]. right. by right.
Qed.

Lemma map_set_sorted {V} (m : list (string * V)) k v :
  keys_sorted m → keys_sorted (map_set m k v).
Proof.
  unfold keys_sorted. induction m as [|[k' v'] m IH]; simpl; intros Hs.
  - repeat constructor.
  - apply StronglySorted_inv in Hs as [Hs Hall]. simpl in *.
    destruct (decide (k' = k)) as [->|Hne]; simpl.
    + by constructor.
    + destruct (String.ltb k k') eqn:Hlt; simpl.
      * constructor; [by constructor|]. constructor; [done|].
        eapply Forall_impl; [exact Hall|]. intros x Hx. by eapply ltb_trans.
      * constructor; [by apply IH|].
        apply Forall_forall. intros x Hx.
        apply map_set_keys in Hx as [->|Hx].
        -- by apply ltb_total.
        -- by eapply (proj1 (Forall_forall _ _) Hall).
Qed.

Lemma map_find_None_keys {V} (m : list (string * V)) k :
  map_find m k = None ↔ k ∉ m.*1.
Proof.
  induction m as [|[k' v'] m IH]; simpl.
  - split; [intros _ H; by apply elem_of_nil in H|done].
  - destruct (decide (k' = k)) as [->|Hne].
    + split; [done|]. intros H. exfalso. apply H. by left.
    + rewrite IH. split.
      * intros H [->|H']%elem_of_cons; done.
      * intros H H'. apply H. by right.
Qed.

Lemma map_set_length_new {V} (m : list (string * V)) k v :
  map_find m k = None → length (map_set m k v) = S (length m).
Proof.
  induction m as [|[k' v'] m IH]; simpl; [done|].
  destruct (decide (k' = k)) as [->|Hne]; [done|]. intros Hf.
  destruct (String.ltb k k'); simpl; [done|]. by rewrite IH.
Qed.

Lemma map_set_length_old {V} (m : list (string * V)) k v :
  keys_sorted m → map_find m k ≠ None → length (map_set m k v) = length m.
Proof.
  unfold keys_sorted. induction m as [|[k' v'] m IH]; simpl; [done|].
  intros Hs Hf. apply StronglySorted_inv in Hs as [Hs Hall]. simpl in *.
  destruct (decide (k' = k)) as [->|Hne]; [done|].
  destruct (String.ltb k k') eqn:Hlt; simpl.
  - exfalso. apply Hf. apply map_find_None_keys.
    intros Hin. pose proof (proj1 (Forall_forall _ _) Hall k Hin) as Hk.
    pose proof (ltb_trans _ _ _ Hlt Hk) as Hkk. by rewrite ltb_irrefl in Hkk.
  - by rewrite IH.
Qed.

Lemma map_set_twice {V} (m : list (string * V)) k v1 v2 :
  map_set (map_set m k v1) k v2 = map_set m k v2.
Proof.
  induction m as [|[k' v'] m IH]; simpl.
  - by rewrite decide_True.
  - destruct (decide (k' = k)) as [->|Hne]; simpl.
    + by rewrite decide_True.
    + destruct (String.ltb k k') eqn:Hlt; simpl.
      * by rewrite decide_True.
      * rewrite decide_False by done. by rewrite Hlt, IH.
Qed.

Lemma map_set_Forall {V} (Q : string * V → Prop) (m : list (string * V)) k v :
  Forall Q m → Q (k, v) → Forall Q (map_set m k v).
Proof.
  intros Hm Hk. induction m as [|[k' v'] m IH]; simpl.
  - by constructor.
  - apply Forall_cons in Hm as [Hk' Hm].
    destruct (decide (k' = k)) as [->|Hne]; [by constructor|].
    destruct (String.ltb k k'); [by repeat constructor|].
    constructor; [done|by apply IH].
Qed.

Lemma map_find_elem {V} (m : list (string * V)) k v :
  map_find m k = Some v → (k, v) ∈ m.
Proof.
  induction m as [|[k' v'] m IH]; simpl; [done|].
  destruct (decide (k' = k)) as [->|Hne].
  - intros [= ->]. by left.
  - intros H. right. by apply IH.
Qed.

Lemma results_app q1 q2 : results (q1 ++ q2) = results q1 ++ results q2.
Proof. apply omap_app. Qed.

Lemma results_Some (l : list match_result) : results (Some <$> l) = l.
Proof. unfold results. induction l as [|r l IH]; [done|]. rewrite fmap_cons. cbn. by rewrite IH. Qed.

Lemma sentinels_app q1 q2 : sentinels (q1 ++ q2) = (sentinels q1 + sentinels q2)%nat.
Proof. unfold sentinels. by rewrite List.filter_app, length_app. Qed.

Lemma sentinels_Some (l : list match_result) : sentinels (Some <$> l) = 0%nat.
Proof. unfold sentinels. induction l as [|r l IH]; simpl; by rewrite ?IH. Qed.

Section SearchInvariants.

Variable flags_ : flags.
Variable kChunkSize : Z.
Variable cc_ : code_searcher.
Variable pat_ : list Z → Z → Z → option (Z * Z).
Variable file_pat_ : option (string → bool).
Variable index_ : option IndexKey.
Variable utf8_is_valid : list Z → bool.
Variable utf8_distance : list Z → Z.
Variable gettimeofday : nat → Z * Z.
Variable rand : nat → Z.
Variable P : Z.

Local Abbreviation accept_path := (accept_path file_pat_).
Local Abbreviation accept_file := (accept_file cc_ file_pat_).
Local Abbreviation accept_files := (accept_files cc_ file_pat_).
Local Abbreviation exit_early := (exit_early flags_ gettimeofday).
Local Abbreviation limit_ := (limit_ flags_ gettimeofday).
Local Abbreviation upsert_path := (upsert_path file_pat_).
Local Abbreviation try_match := (try_match cc_ file_pat_).
Local Abbreviation try_files := (try_files flags_ cc_ file_pat_ gettimeofday).
Local Abbreviation Inv s0 n s :=
  (sound flags_ cc_ file_pat_ gettimeofday P n s ∧ advances s0 n s).

Lemma Inv_refl n s :
  sound flags_ cc_ file_pat_ gettimeofday P n s →
  (exit_reason_ s ≠ kExitNone → n = 0%nat) → Inv s n s.
Proof.
  intros Hs Hn. split; [done|]. unfold advances.
  split; [exists []; by rewrite app_nil_r|]. split; [lia|].
  split; [auto|]. split; [auto|]. lia.
Qed.

Lemma exit_early_inv s0 n s :
  Inv s0 n s →
  post exit_early s (λ e s',
    Inv s0 n s' ∧ queue_ s' = queue_ s ∧ matches_ s' = matches_ s ∧
    (e = false → matches_ s' < FLAGS_max_matches flags_ ∧ exit_reason_ s' = kExitNone) ∧
    (e = true → exit_reason_ s' ≠ kExitNone)).
Proof.
  intros [Hs Ha]. unfold exit_early, post, bind, get, modify, ret. simpl.
  destruct (decide (exit_reason_ s = kExitNone)) as [Hnone|Hset].
  2:{ rewrite bool_decide_eq_false_2 by done. simpl. done. }
  rewrite bool_decide_eq_true_2 by done. simpl.
  destruct Hs as (Hres & Hacc & Hcap & Hlim & Htime & Hcache).
  destruct Ha as (Hq & Hm & Hfrozen & Hfiles & Hclock & Hrand).
  assert (Hstart : exit_reason_ s0 = kExitNone).
  { destruct (decide (exit_reason_ s0 = kExitNone)) as [|Hne]; [done|].
    destruct (Hfrozen Hne) as (He & _). congruence. }
  case_bool_decide as Hmax; simpl.
  { unfold sound, advances. simpl.
    repeat split; simpl; try done; try lia; try (intros; congruence); apply Hcache. }
  destruct (bool_decide (limit_.1 < (gettimeofday (clock_ s)).1) ||
            bool_decide ((gettimeofday (clock_ s)).1 = limit_.1) &&
            bool_decide (limit_.2 < (gettimeofday (clock_ s)).2)) eqn:Hlate; simpl.
  - unfold sound, advances. simpl.
    repeat split; simpl; try done; try lia; try (intros; congruence);
      try apply Hcache.
    intros Hoff Hsane _. specialize (Hsane (clock_ s)).
    assert (limit_ = (time_t_max, 0)) as Hl
      by (unfold limit_; by rewrite bool_decide_eq_true_2).
    rewrite Hl in Hlate. simpl in Hlate.
    rewrite (bool_decide_eq_false_2 (time_t_max < _)) in Hlate by lia.
    rewrite (bool_decide_eq_false_2 (_ = time_t_max)) in Hlate by lia. done.
  - unfold sound, advances. simpl.
    repeat split; simpl; try done; try lia; try (intros; congruence); apply Hcache.
Qed.

Lemma accept_file_inv s0 n s no :
  Inv s0 n s →
  post (accept_file no) s (λ _ s',
    Inv s0 n s' ∧ queue_ s' = queue_ s ∧ matches_ s' = matches_ s ∧
    exit_reason_ s' = exit_reason_ s).
Proof.
  intros [Hs Ha]. unfold accept_file. destruct file_pat_ as [fp|] eqn:Hfp; [|done].
  unfold post, bind, get, modify, ret. simpl.
  case_bool_decide as Hnew; simpl; [|done].
  destruct Hs as (Hres & Hacc & Hcap & Hlim & Htime & Hlen & Hcache).
  destruct Ha as (Hq & Hm & Hfrozen & Hfiles & Hclock & Hrand).
  unfold sound, advances, cache_ok. simpl.
  repeat split; try done; try (by apply Hfrozen).
  - by rewrite length_insert.
  - intros no' v [(-> & <- & _)|(Hne & Hv)]%list_lookup_insert_Some.
    + by right.
    + by eapply Hcache.
  - intros no' v Hv Hv'. destruct (decide (no = no')) as [->|Hne].
    + specialize (Hfiles _ _ Hv Hv'). rewrite Hfiles in Hnew. done.
    + rewrite list_lookup_insert_ne by done. by apply Hfiles.
Qed.

Lemma accept_files_inv s0 n sfs s :
  Inv s0 n s →
  post (accept_files sfs) s (λ _ s',
    Inv s0 n s' ∧ queue_ s' = queue_ s ∧ matches_ s' = matches_ s ∧
    exit_reason_ s' = exit_reason_ s).
Proof.
  revert s. induction sfs as [|sf sfs IH]; intros s HI; [done|].
  cbn [accept_files]. apply post_bind.
  eapply post_mono; [by apply accept_file_inv|]; cbv beta. intros b s1 (H1 & Hq1 & Hm1 & He1).
  simpl. destruct b.
  - apply post_ret. done.
  - eapply post_mono; [by apply IH|]; cbv beta. intros b s2 (H2 & Hq2 & Hm2 & He2). simpl.
    split; [done|]. repeat split; congruence.
Qed.

Lemma upsert_path_spec sf ctx p m matches :
  keys_sorted m →
  let r := upsert_path sf ctx p (m, matches) in
  keys_sorted r.1 ∧
  r.2 - matches = Z.of_nat (length r.1) - Z.of_nat (length m) ∧
  0 ≤ r.2 - matches ≤ 1.
Proof.
  intros Hs. unfold upsert_path.
  destruct (accept_path p); simpl; [|split; [done|lia]].
  destruct (map_find m (gp_path p)) as [v|] eqn:Hf.
  - case_bool_decide; simpl.
    + split; [by apply map_set_sorted|].
      rewrite map_set_length_old by (done || congruence). lia.
    + split; [by do 2 apply map_set_sorted|].
      rewrite !map_set_length_old;
        [lia|done|congruence|by apply map_set_sorted|by rewrite map_find_set].
  - simpl. split; [by do 2 apply map_set_sorted|].
    rewrite map_set_length_old;
      [|by apply map_set_sorted|by rewrite map_find_set].
    rewrite map_set_length_new by done. lia.
Qed.

Lemma find_piece_spec line content it lno it' lno' :
  find_piece cc_ line content it lno = Some (it', lno') →
  lno ≤ lno' ∧
  ∃ piece, piece ∈ content ∧
    ptr_le (sp_data piece) (sp_data line) = true ∧
    ptr_le (sp_data line) (ptr_add (sp_data piece) (sp_size piece)) = true.
Proof.
  revert it lno. induction content as [|piece rest IH]; intros it lno; cbn [find_piece];
    [done|].
  destruct (ptr_le (sp_data piece) (sp_data line) &&
            ptr_le (sp_data line) (ptr_add (sp_data piece) (sp_size piece))) eqn:Hc.
  - intros [= <- <-]. apply andb_true_iff in Hc as [H1 H2].
    split; [lia|]. exists piece. split; [by left|done].
  - intros Hf. destruct (IH _ _ Hf) as (Hle & piece' & Hin & Hcov).
    split; [lia|]. exists piece'. split; [by right|done].
Qed.

Lemma ctx_with_path line sf c p :
  mc_file c = sf →
  (∀ q, q ∈ mc_paths c →
     gp_path q = gp_path p ∧ accept_path q = true ∧ q ∈ sf_paths (the_file cc_ sf)) →
  (holds_line cc_ line sf ∧ 1 ≤ mc_lno c) →
  (length (mc_context_before c) ≤ kContextLines)%nat →
  (length (mc_context_after c) ≤ kContextLines)%nat →
  accept_path p = true → p ∈ sf_paths (the_file cc_ sf) →
  ctx_ok cc_ file_pat_ line (gp_path p)
    (mkCtx (mc_file c) (mc_lno c) (mc_context_before c) (mc_context_after c)
           (mc_paths c ++ [p])).
Proof.
  intros Hfile Hpaths Hpiece Hbefore Hafter Hacc Hp. unfold ctx_ok. simpl.
  rewrite Hfile. split; [by destruct (mc_paths c)|]. split; [|done].
  intros q [Hq|Hq]%elem_of_app; [by apply Hpaths|].
  apply list_elem_of_singleton in Hq. by subst q.
Qed.

Lemma upsert_path_ok line sf ctx p m matches :
  Forall (entry_ok cc_ file_pat_ line) m →
  mc_file ctx = sf → mc_paths ctx = [] →
  (holds_line cc_ line sf ∧ 1 ≤ mc_lno ctx) →
  (length (mc_context_before ctx) ≤ kContextLines)%nat →
  (length (mc_context_after ctx) ≤ kContextLines)%nat →
  p ∈ sf_paths (the_file cc_ sf) →
  Forall (entry_ok cc_ file_pat_ line) (upsert_path sf ctx p (m, matches)).1.
Proof.
  intros Hm Hfile Hnone Hpiece Hbefore Hafter Hp. unfold upsert_path.
  destruct (accept_path p) eqn:Hacc; simpl; [|done].
  assert (Hnew : ctx_ok cc_ file_pat_ line (gp_path p)
            (mkCtx (mc_file ctx) (mc_lno ctx) (mc_context_before ctx)
                   (mc_context_after ctx) (mc_paths ctx ++ [p]))).
  { apply (ctx_with_path line sf); try done. rewrite Hnone. intros q Hq.
    by apply elem_of_nil in Hq. }
  destruct (map_find m (gp_path p)) as [v|] eqn:Hf.
  - pose proof (proj1 (Forall_forall _ _) Hm _ (map_find_elem _ _ _ Hf)) as [Hv Hall].
    simpl in Hv, Hall.
    case_bool_decide as Hsame; simpl.
    + rewrite Hf. simpl. apply map_set_Forall; [done|].
      destruct (last v) as [c|] eqn:Hlast; [|done]. simpl in Hsame.
      injection Hsame as Hsame.
      apply last_Some in Hlast as [v' ->].
      unfold push_back_path. rewrite last_snoc, removelast_last.
      apply Forall_app in Hall as [Hall' Hc]. rewrite Forall_singleton in Hc.
      split; [by destruct v'|]. simpl. apply Forall_app. split; [done|].
      apply Forall_singleton. destruct Hc as (_ & Hpaths & Hpc & Hb & Ha).
      apply (ctx_with_path line sf); try done; by rewrite <- Hsame.
    + rewrite map_find_set. simpl. rewrite map_set_twice.
      apply map_set_Forall; [done|].
      unfold push_back_path. rewrite last_snoc, removelast_last.
      split; [by destruct v|]. simpl. apply Forall_app. split; [done|].
      by apply Forall_singleton.
  - simpl. rewrite map_find_set. simpl. rewrite map_set_twice.
    apply map_set_Forall; [done|].
    split; [done|]. simpl. by apply Forall_singleton.
Qed.

Lemma upsert_paths_spec line sf ctx paths m matches :
  keys_sorted m → Forall (entry_ok cc_ file_pat_ line) m →
  mc_file ctx = sf → mc_paths ctx = [] →
  (holds_line cc_ line sf ∧ 1 ≤ mc_lno ctx) →
  (length (mc_context_before ctx) ≤ kContextLines)%nat →
  (length (mc_context_after ctx) ≤ kContextLines)%nat →
  (∀ p, p ∈ paths → p ∈ sf_paths (the_file cc_ sf)) →
  let r := foldl (λ st p, upsert_path sf ctx p st) (m, matches) paths in
  keys_sorted r.1 ∧ Forall (entry_ok cc_ file_pat_ line) r.1 ∧
  r.2 - matches = Z.of_nat (length r.1) - Z.of_nat (length m) ∧
  0 ≤ r.2 - matches ≤ Z.of_nat (length paths).
Proof.
  intros Hs Hm Hfile Hnone Hpiece Hbefore Hafter.
  revert m matches Hs Hm.
  induction paths as [|p paths IH]; intros m matches Hs Hm Hpaths; simpl.
  { split; [done|]. split; [done|]. lia. }
  pose proof (upsert_path_spec sf ctx p m matches Hs) as (Hs1 & Hd1 & Hb1).
  pose proof (upsert_path_ok line sf ctx p m matches Hm Hfile Hnone Hpiece Hbefore
                Hafter (Hpaths p ltac:(by left))) as Hm1.
  destruct (upsert_path sf ctx p (m, matches)) as [m1 matches1]. simpl in *.
  destruct (IH m1 matches1 Hs1 Hm1) as (Hs2 & Hm2 & Hd2 & Hb2).
  { intros q Hq. apply Hpaths. by right. }
  split; [done|]. split; [done|]. lia.
Qed.

Lemma context_before_length n content it l acc :
  (length (context_before cc_ n content it l acc) ≤ length acc + n)%nat.
Proof.
  revert it l acc. induction n as [|n IH]; intros it l acc; cbn [context_before]; [lia|].
  cbv zeta.
  match goal with |- context [match ?st with Some _ => _ | None => _ end] =>
    destruct st as [[it' l']|] end; [|lia].
  etrans; [apply IH|]. rewrite length_app. simpl. lia.
Qed.

Lemma context_after_length n content it l acc :
  (length (context_after cc_ n content it l acc) ≤ length acc + n)%nat.
Proof.
  revert it l acc. induction n as [|n IH]; intros it l acc; cbn [context_after]; [lia|].
  cbv zeta.
  match goal with |- context [match ?st with Some _ => _ | None => _ end] =>
    destruct st as [[it' l']|] end; [|lia].
  etrans; [apply IH|]. rewrite length_app. simpl. lia.
Qed.

Lemma try_match_inv s0 g line match_ sf s :
  Inv s0 (length (mg_matches g)) s → group_ok cc_ file_pat_ line g →
  matches_ s < FLAGS_max_matches flags_ → exit_reason_ s = kExitNone →
  post (try_match g line match_ sf) s (λ g' s',
    Inv s0 (length (mg_matches g')) s' ∧ group_ok cc_ file_pat_ line g' ∧
    exit_reason_ s' = kExitNone).
Proof.
  intros [Hs Ha] (Hline & Hsorted & Hentries) Hlt Hnone. unfold try_match.
  destruct (find_piece _ _ _ _ _) as [[it lno]|] eqn:Hpiece; [|done].
  unfold post, bind, get, modify, ret.
  match goal with |- context [foldl (λ st p, upsert_path ?sf' ?ctx p st) (?m, ?k) ?l] =>
    pose proof (upsert_paths_spec line sf' ctx l m k Hsorted Hentries eq_refl eq_refl)
      as Hspec;
    cbv zeta in Hspec;
    destruct (foldl (λ st p, upsert_path sf' ctx p st) (m, k) l) as [m1 matches1]
  end.
  destruct Hspec as (Hs1 & Hm1 & Hd1 & Hb1).
  { cbn [mc_lno]. by destruct (find_piece_spec _ _ _ _ _ _ Hpiece). }
  { cbn [mc_context_before]. etrans; [apply context_before_length|]. simpl. lia. }
  { cbn [mc_context_after]. etrans; [apply context_after_length|]. simpl. lia. }
  { done. }
  cbn [fst snd] in Hs1, Hm1, Hd1, Hb1 |- *.
  destruct Hs as (Hres & Hacc & Hcap & Hlim & Htime & Hcache).
  destruct Ha as (Hq & Hm & Hfrozen & Hfiles & Hclock & Hrand).
  assert (Hstart : exit_reason_ s0 = kExitNone).
  { destruct (decide (exit_reason_ s0 = kExitNone)) as [|Hne]; [done|].
    destruct (Hfrozen Hne) as (He & _). congruence. }
  split; [|split; [split; [exact Hline|split; [exact Hs1|exact Hm1]]|exact Hnone]].
  unfold sound, advances. simpl.
  repeat split; simpl; try done; try lia; try (intros; congruence); try apply Hcache.
  intros HP. specialize (HP sf). lia.
Qed.

Lemma finish_group_inv s0 line g s :
  Inv s0 (length (mg_matches g)) s → group_ok cc_ file_pat_ line g →
  post (finish_group g) s (λ _ s', Inv s0 0 s' ∧ exit_reason_ s' = exit_reason_ s).
Proof.
  intros [Hs Ha] (Hline & _ & Hentries). unfold finish_group, post, modify. simpl.
  destruct Hs as (Hres & Hacc & Hcap & Hlim & Htime & Hcache).
  destruct Ha as ((q & Hq & Hsent) & Hm & Hfrozen & Hfiles & Hclock & Hrand).
  split; [|done].
  unfold sound, advances. simpl.
  set (new := (λ e : string * list match_context,
                 Some (mkResult (mg_line g) (mg_left g) (mg_right g) e.2))
              <$> mg_matches g).
  assert (Hnew : new = Some <$> ((λ e : string * list match_context,
                 mkResult (mg_line g) (mg_left g) (mg_right g) e.2)
              <$> mg_matches g)).
  { subst new. by rewrite <- list_fmap_compose. }
  repeat split; simpl; try done; try lia; try apply Hcache.
  - rewrite results_app, Hnew, results_Some. apply Forall_app. split; [done|].
    apply Forall_fmap. eapply Forall_impl; [exact Hentries|].
    intros [key v] [Hv Hall]. split; [done|]. exists key. simpl. by rewrite Hline.
  - rewrite results_app, length_app, Hnew, results_Some, length_fmap. lia.
  - exists (q ++ new). rewrite Hq, <- app_assoc. split; [done|].
    rewrite sentinels_app, Hsent, Hnew, sentinels_Some. done.
  - by apply Hfrozen.
  - destruct (Hfrozen H) as (_ & Hq0 & _ & Hn).
    apply nil_length_inv in Hn. subst new. rewrite Hn. simpl.
    by rewrite app_nil_r.
  - by apply Hfrozen.
Qed.

Lemma try_files_inv s0 line match_ fs g s :
  Inv s0 (length (mg_matches g)) s → group_ok cc_ file_pat_ line g →
  post (try_files g line match_ fs) s (λ g' s',
    Inv s0 (length (mg_matches g')) s' ∧ group_ok cc_ file_pat_ line g').
Proof.
  revert g s. induction fs as [|f fs IH]; intros g s HI Hsorted; [done|].
  cbn [try_files]. apply post_bind.
  eapply post_mono; [by apply accept_file_inv|]; cbv beta. intros ok s1 (H1 & Hq1 & Hm1 & He1).
  simpl. destruct ok; simpl; [|by apply IH].
  apply post_bind.
  eapply post_mono; [by apply exit_early_inv|].
  intros e s2 (H2 & Hq2 & Hm2 & Hfalse & Htrue). simpl.
  destruct e; [done|]. destruct (Hfalse eq_refl) as [Hlt Hnone].
  apply post_bind.
  eapply post_mono; [by apply try_match_inv|]; cbv beta. intros g' s3 (H3 & Hs3 & _). simpl.
  by apply IH.
Qed.

Local Abbreviation new_match_group := (new_match_group cc_ utf8_distance).
Local Abbreviation brute_loop := (brute_loop flags_ cc_ file_pat_ gettimeofday).
Local Abbreviation find_match_brute :=
  (find_match_brute flags_ cc_ file_pat_ utf8_distance gettimeofday).
Local Abbreviation find_match_loop := (find_match_loop flags_ cc_ file_pat_ gettimeofday).
Local Abbreviation find_match :=
  (find_match flags_ cc_ file_pat_ utf8_distance gettimeofday).
Local Abbreviation skip_files := (skip_files cc_ file_pat_).
Local Abbreviation extend_range := (extend_range cc_ file_pat_).
Local Abbreviation next_range := (next_range flags_ cc_ file_pat_).
Local Abbreviation full_search_loop :=
  (full_search_loop flags_ cc_ pat_ file_pat_ utf8_is_valid utf8_distance gettimeofday).
Local Abbreviation full_search_range :=
  (full_search_range flags_ cc_ pat_ file_pat_ utf8_is_valid utf8_distance gettimeofday).
Local Abbreviation full_search :=
  (full_search flags_ cc_ pat_ file_pat_ utf8_is_valid utf8_distance gettimeofday).
Local Abbreviation density_hits := (density_hits cc_ file_pat_ rand).
Local Abbreviation files_density := (files_density cc_ file_pat_ rand).
Local Abbreviation search_lines_loop :=
  (search_lines_loop flags_ cc_ pat_ file_pat_ utf8_is_valid utf8_distance gettimeofday).
Local Abbreviation search_lines :=
  (search_lines flags_ cc_ pat_ file_pat_ utf8_is_valid utf8_distance gettimeofday rand).
Local Abbreviation filtered_search :=
  (filtered_search flags_ kChunkSize cc_ pat_ file_pat_ index_ utf8_is_valid
     utf8_distance gettimeofday rand).
Local Abbreviation search_chunk :=
  (search_chunk flags_ kChunkSize cc_ pat_ file_pat_ index_ utf8_is_valid
     utf8_distance gettimeofday rand).
Local Abbreviation search_one :=
  (search_one flags_ kChunkSize cc_ pat_ file_pat_ index_ utf8_is_valid
     utf8_distance gettimeofday rand).
Local Abbreviation search_all :=
  (search_all flags_ kChunkSize cc_ pat_ file_pat_ index_ utf8_is_valid
     utf8_distance gettimeofday rand).

Lemma brute_loop_inv s0 off line match_ cfs g s :
  Inv s0 (length (mg_matches g)) s → group_ok cc_ file_pat_ line g →
  post (brute_loop off g line match_ cfs) s (λ g' s',
    Inv s0 (length (mg_matches g')) s' ∧ group_ok cc_ file_pat_ line g').
Proof.
  revert g s. induction cfs as [|cf cfs IH]; intros g s HI Hsorted; [done|].
  cbn [brute_loop]. destruct (_ && _); [|by apply IH].
  apply post_bind.
  eapply post_mono; [by apply try_files_inv|]; cbv beta. intros g' s1 (H1 & Hs1). cbv beta iota.
  by apply IH.
Qed.

Lemma group_ok_new match_ line :
  group_ok cc_ file_pat_ line (new_match_group match_ line).
Proof. split; [done|]. split; constructor. Qed.

Lemma find_match_brute_inv s0 ci match_ line s :
  Inv s0 0 s → post (find_match_brute ci match_ line) s (λ _ s', Inv s0 0 s').
Proof.
  intros HI. unfold find_match_brute. apply post_bind.
  eapply post_mono; [apply brute_loop_inv; [exact HI|apply group_ok_new]|]; cbv beta.
  intros g s1 (H1 & Hg). cbv beta iota.
  eapply post_mono; [by eapply finish_group_inv|]; cbv beta. by intros _ s2 (H2 & _).
Qed.

Lemma find_match_loop_inv s0 fuel loff line match_ stack g s :
  Inv s0 (length (mg_matches g)) s → group_ok cc_ file_pat_ line g →
  post (find_match_loop fuel loff line match_ stack g) s (λ g' s',
    Inv s0 (length (mg_matches g')) s' ∧ group_ok cc_ file_pat_ line g').
Proof.
  revert stack g s. induction fuel as [|fuel IH]; intros stack g s HI Hsorted; [done|].
  cbn [find_match_loop]. destruct stack as [|[nd visit] stack]; [done|].
  apply post_bind, post_get.
  destruct (negb _); [done|].
  destruct nd as [|cf l r right_limit]; [by apply IH|].
  destruct visit.
  - apply post_bind.
    eapply post_mono; [by apply try_files_inv|]; cbv beta. intros g' s1 (H1 & Hs1). cbv beta iota.
    by apply IH.
  - case_bool_decide; by apply IH.
Qed.

Lemma find_match_inv s0 ci match_ line s :
  Inv s0 0 s → post (find_match ci match_ line) s (λ _ s', Inv s0 0 s').
Proof.
  intros HI. unfold find_match. destruct (negb _); [by apply find_match_brute_inv|].
  apply post_bind.
  eapply post_mono; [apply find_match_loop_inv; [exact HI|apply group_ok_new]|]; cbv beta.
  intros g s1 (H1 & Hg). cbv beta iota.
  eapply post_mono; [by eapply finish_group_inv|]; cbv beta. by intros _ s2 (H2 & _).
Qed.

Lemma skip_files_inv s0 n fuel cfs it pos maxpos s :
  Inv s0 n s → post (skip_files fuel cfs it pos maxpos) s (λ _ s', Inv s0 n s').
Proof.
  revert it s. induction fuel as [|fuel IH]; intros it s HI; [done|].
  cbn [skip_files]. destruct (cfs !! it) as [cf|]; [|done].
  apply post_bind. case_bool_decide.
  - apply post_ret. destruct (_ && _); [by apply IH|done].
  - apply post_bind.
    eapply post_mono; [by apply accept_files_inv|]; cbv beta. intros b s1 (H1 & _). cbv beta iota.
    apply post_ret. destruct (_ && _); [by apply IH|done].
Qed.

Lemma extend_range_inv s0 n fuel cfs it endpos maxpos s :
  Inv s0 n s → post (extend_range fuel cfs it endpos maxpos) s (λ _ s', Inv s0 n s').
Proof.
  revert it endpos s. induction fuel as [|fuel IH]; intros it endpos s HI; [done|].
  cbn [extend_range]. case_bool_decide; [done|].
  apply post_bind.
  assert (Hnext : ∀ (ok : bool) s1, Inv s0 n s1 →
    post (let endpos' := if ok then endpos `max` cf_right (default null_cf (cfs !! it))
                         else endpos in
          if ok && bool_decide (maxpos ≤ endpos') then ret (it, endpos')
          else match cfs !! S it with
               | Some cf' =>
                   if bool_decide (cf_left cf' < maxpos)
                   then extend_range fuel cfs (S it) endpos' maxpos
                   else ret (S it, endpos')
               | None => ret (S it, endpos')
               end) s1 (λ _ s', Inv s0 n s')).
  { intros ok s1 H1. cbv zeta. destruct (_ && _); [done|].
    destruct (cfs !! S it) as [cf'|]; [|done].
    case_bool_decide; [by apply IH|done]. }
  case_bool_decide.
  - eapply post_mono; [by apply accept_files_inv|]; cbv beta. intros b s1 (H1 & _).
    by apply Hnext.
  - apply post_ret. by apply Hnext.
Qed.

Lemma next_range_inv s0 n ci finger pos endpos maxpos s :
  Inv s0 n s →
  post (next_range ci finger pos endpos maxpos) s (λ _ s', Inv s0 n s').
Proof.
  intros HI. unfold next_range. destruct (_ || _); [done|].
  apply post_bind.
  eapply post_mono; [by apply skip_files_inv|]; cbv beta. intros it s1 H1. cbv beta iota.
  destruct (_ !! it) as [cf|]; [|done].
  case_bool_decide; [done|].
  apply post_bind.
  eapply post_mono; [by apply extend_range_inv|]; cbv beta. by intros r s2 H2.
Qed.

Lemma full_search_loop_inv s0 fuel ci maxpos finger pos end_ s :
  Inv s0 0 s →
  post (full_search_loop fuel ci maxpos finger pos end_) s (λ _ s', Inv s0 0 s').
Proof.
  revert finger pos end_ s.
  induction fuel as [|fuel IH]; intros finger pos end_ s HI; [done|].
  cbn [full_search_loop]. destruct (negb _); [done|].
  apply post_bind.
  eapply post_mono; [by apply exit_early_inv|]; cbv beta. intros e s1 (H1 & _). cbv beta iota.
  destruct e; [done|].
  apply post_bind.
  assert (Hrest : ∀ (r : nat * Z * Z) s2, Inv s0 0 s2 →
    post (let '(finger, pos, end_) := r in
          if bool_decide (maxpos ≤ pos) then ret finger
          else
            let limit :=
              if bool_decide (kMaxScan < end_ - pos)
              then line_end (the_chunk cc_ ci) (pos + kMaxScan) else end_ in
            match pat_ (data (the_chunk cc_ ci)) pos limit with
            | None => full_search_loop fuel ci maxpos finger (limit + 1) end_
            | Some (moff, msize) =>
                let match_ := mkSP (ci, moff) msize in
                let line := find_line (alloc_ cc_) (chunk_piece cc_ ci) match_ in
                bind (if utf8_is_valid (sp_bytes (alloc_ cc_) line)
                      then find_match ci match_ line else ret tt)
                  (λ _, let new_pos := sp_size line + (sp_data line).2 + 1 in
                        full_search_loop fuel ci maxpos finger new_pos end_)
            end) s2 (λ _ s', Inv s0 0 s')).
  { intros [[finger' pos'] end'] s2 H2. case_bool_decide; [done|]. cbv zeta.
    destruct (pat_ _ _ _) as [[moff msize]|]; [|by apply IH].
    apply post_bind. destruct (utf8_is_valid _).
    - eapply post_mono; [by apply find_match_inv|]; cbv beta. intros _ s3 H3. by apply IH.
    - apply post_ret. by apply IH. }
  case_bool_decide.
  - eapply post_mono; [by apply next_range_inv|]; cbv beta. intros r s2 H2. by apply Hrest.
  - apply post_ret. by apply (Hrest (finger, pos, end_)).
Qed.

Lemma full_search_range_inv s0 ci finger minpos maxpos s :
  Inv s0 0 s →
  post (full_search_range ci finger minpos maxpos) s (λ _ s', Inv s0 0 s').
Proof. intros HI. by apply full_search_loop_inv. Qed.

Lemma full_search_inv s0 ci s :
  Inv s0 0 s → post (full_search ci) s (λ _ s', Inv s0 0 s').
Proof.
  intros HI. unfold full_search. apply post_bind.
  eapply post_mono; [by apply full_search_range_inv|]; cbv beta. by intros _ s1 H1.
Qed.

Lemma Inv_rand s0 n s : Inv s0 n s → Inv s0 n (set_rand_ (S (rand_ s)) s).
Proof.
  intros [(Hres & Hacc & Hcap & Hlim & Htime & Hcache)
          (Hq & Hm & Hfrozen & Hfiles & Hclock & Hrand)].
  unfold sound, advances. simpl.
  repeat split; simpl; try done; try lia; try (by apply Hfrozen); apply Hcache.
Qed.

Lemma Inv_density s0 n s d : Inv s0 n s → Inv s0 n (set_files_density_ d s).
Proof.
  intros [(Hres & Hacc & Hcap & Hlim & Htime & Hcache)
          (Hq & Hm & Hfrozen & Hfiles & Hclock & Hrand)].
  unfold sound, advances. simpl.
  repeat split; simpl; try done; try lia; try (by apply Hfrozen); apply Hcache.
Qed.

Lemma density_hits_inv s0 n k hits s :
  Inv s0 n s → post (density_hits k hits) s (λ _ s', Inv s0 n s').
Proof.
  revert hits s. induction k as [|k IH]; intros hits s HI; [done|].
  cbn [density_hits]. apply post_bind, post_get. apply post_bind, post_modify.
  apply post_bind.
  eapply post_mono; [apply accept_file_inv, Inv_rand, HI|]; cbv beta.
  intros b s1 (H1 & _). by apply IH.
Qed.

Lemma files_density_inv s0 n s :
  Inv s0 n s → post files_density s (λ _ s', Inv s0 n s').
Proof.
  intros HI. unfold files_density. apply post_bind, post_get.
  destruct (files_density_ s); [done|].
  apply post_bind.
  eapply post_mono; [by apply density_hits_inv|]; cbv beta. intros hits s1 H1.
  case_bool_decide; [done|].
  apply post_bind, post_modify. apply post_ret. by apply Inv_density.
Qed.

Lemma search_lines_loop_inv s0 k ci indexes count_ i max min finger s :
  Inv s0 0 s →
  post (search_lines_loop k ci indexes count_ i max min finger) s
    (λ _ s', Inv s0 0 s').
Proof.
  revert i max min finger s.
  induction k as [|k IH]; intros i max min finger s HI; [done|].
  cbn [search_lines_loop]. apply post_bind.
  eapply post_mono; [by apply exit_early_inv|]; cbv beta. intros e s1 (H1 & _).
  destruct e; [done|]. cbv zeta.
  destruct (_ && _); [by apply IH|].
  destruct (_ && _); [by apply IH|].
  apply post_bind.
  eapply post_mono; [by apply full_search_range_inv|]; cbv beta. intros finger' s2 H2.
  destruct (negb _); by apply IH.
Qed.

Lemma search_lines_inv s0 indexes count_ ci s :
  Inv s0 0 s → post (search_lines indexes count_ ci) s (λ _ s', Inv s0 0 s').
Proof.
  intros HI. unfold search_lines. cbv zeta.
  case_bool_decide; [done|].
  case_bool_decide; [by apply full_search_inv|].
  apply post_bind.
  destruct (has_file_pat _).
  - apply post_bind.
    eapply post_mono; [by apply files_density_inv|]; cbv beta. intros d s1 H1.
    apply post_ret.
    match goal with |- post (if ?b then _ else _) _ _ => destruct b end;
      [by apply full_search_inv|by apply search_lines_loop_inv].
  - apply post_ret. by apply search_lines_loop_inv.
Qed.

Lemma filtered_search_inv s0 ci s :
  Inv s0 0 s → post (filtered_search ci) s (λ _ s', Inv s0 0 s').
Proof.
  intros HI. unfold filtered_search.
  destruct (walk_index _ _ _ _) as [count_ indexes]. by apply search_lines_inv.
Qed.

Lemma search_chunk_inv s0 ci s :
  Inv s0 0 s → post (search_chunk ci) s (λ _ s', Inv s0 0 s').
Proof.
  intros HI. unfold search_chunk. apply post_bind, post_get.
  destruct (choose_scan _ _ _);
    [done|by apply filtered_search_inv|by apply full_search_inv].
Qed.

Lemma new_searcher_sound :
  sound flags_ cc_ file_pat_ gettimeofday P 0 (new_searcher flags_ cc_).
Proof.
  unfold sound, cache_ok, new_searcher. simpl.
  repeat split; try done; try lia.
  - by rewrite length_replicate.
  - intros no v [-> _]%lookup_replicate. by left.
Qed.

Lemma search_one_inv ci s :
  sound flags_ cc_ file_pat_ gettimeofday P 0 s →
  post (search_one ci) s (λ _ s',
    sound flags_ cc_ file_pat_ gettimeofday P 0 s' ∧
    sentinels (queue_ s') = S (sentinels (queue_ s))).
Proof.
  intros Hs. unfold search_one. apply post_bind.
  eapply post_mono; [apply search_chunk_inv, Inv_refl; [exact Hs|done]|]; cbv beta.
  intros _ s1 [(Hres & Hacc & Hcap & Hlim & Htime & Hcache)
               ((q & Hq & Hsent) & _)].
  apply post_modify. unfold sound. simpl.
  assert (results (queue_ s1 ++ [None]) = results (queue_ s1)) as Hr.
  { rewrite results_app. unfold results at 2. simpl. by rewrite app_nil_r. }
  rewrite Hr. split.
  - repeat split; simpl; try done; apply Hcache.
  - rewrite sentinels_app, Hq, sentinels_app, Hsent. unfold sentinels at 2. simpl. lia.
Qed.

Lemma search_all_inv cis s :
  sound flags_ cc_ file_pat_ gettimeofday P 0 s →
  post (search_all cis) s (λ _ s',
    sound flags_ cc_ file_pat_ gettimeofday P 0 s' ∧
    sentinels (queue_ s') = (sentinels (queue_ s) + length cis)%nat).
Proof.
  revert s. induction cis as [|ci cis IH]; intros s Hs.
  { apply post_ret. split; [done|]. simpl. lia. }
  cbn [search_all]. apply post_bind.
  eapply post_mono; [by apply search_one_inv|]; cbv beta. intros _ s1 (H1 & Hn1).
  eapply post_mono; [by apply IH|]; cbv beta. intros _ s2 (H2 & Hn2).
  split; [done|]. simpl. lia.
Qed.

(** When no other task is at work on the searcher (a pool of one worker,
    or a corpus of one chunk), on a chunk that holds data and with matches
    that lie in the window [RE2::Match] is given, [searcher::operator()]
    keeps the state of the searcher sound, and what it does to the state
    is to post results: it pushes no null result, does not decrease the
    counter, leaves a set exit reason and the computed entries of [files_]
    as they are. *)
Theorem scan_keeps_searcher_sound (FLAGS_threads : Z) (ci : nat)
    (s : searcher_state) :
  one_at_a_time FLAGS_threads cc_ →
  0 < size (the_chunk cc_ ci) →
  match_in_window pat_ →
  sound flags_ cc_ file_pat_ gettimeofday P 0 s →
  let s' := (search_chunk ci s).2 in
  sound flags_ cc_ file_pat_ gettimeofday P 0 s' ∧ advances s 0 s'.
Proof.
  intros _ _ _ Hs. apply (search_chunk_inv s ci s). by apply Inv_refl.
Qed.

End SearchInvariants.

Lemma match_internal_sound (flags_ : flags) (kChunkSize : Z) (cc_ : code_searcher)
    (pat_ : list Z → Z → Z → option (Z * Z)) (file_pat_ : option (string → bool))
    (index_ : option IndexKey) (utf8_is_valid : list Z → bool)
    (utf8_distance : list Z → Z) (gettimeofday : nat → Z * Z) (rand : nat → Z)
    (P : Z) :
  FLAGS_search flags_ = true →
  let s := (search_all flags_ kChunkSize cc_ pat_ file_pat_ index_ utf8_is_valid
              utf8_distance gettimeofday rand (seq 0 (length (alloc_ cc_)))
              (new_searcher flags_ cc_)).2 in
  match_internal flags_ kChunkSize cc_ pat_ file_pat_ index_ utf8_is_valid
    utf8_distance gettimeofday rand = (results (queue_ s), exit_reason_ s) ∧
  sound flags_ cc_ file_pat_ gettimeofday P 0 s ∧
  sentinels (queue_ s) = length (alloc_ cc_).
Proof.
  intros Hsearch s. split.
  - unfold match_internal. rewrite Hsearch. simpl. subst s.
    by destruct (search_all _ _ _ _ _ _ _ _ _ _ _ _).
  - destruct (search_all_inv flags_ kChunkSize cc_ pat_ file_pat_ index_ utf8_is_valid
                utf8_distance gettimeofday rand P (seq 0 (length (alloc_ cc_)))
                (new_searcher flags_ cc_)
                (new_searcher_sound flags_ cc_ file_pat_ gettimeofday P)) as (Hs & Hn).
    split; [done|]. subst s. rewrite Hn, length_seq. done.
Qed.

(** On a finalized corpus whose chunks hold data, with the tasks of
    [match_internal] run one at a time (a pool of one worker, or a corpus
    of one chunk) and with matches that lie in the window [RE2::Match] is
    given: at the end of the tasks the counter [matches_] is the number of
    results in the queue, and the queue holds one null result per chunk,
    which is what the loop that pops the queue counts down to
    [pending = 0]. *)
Theorem results_are_counted (FLAGS_threads : Z) (flags_ : flags) (kChunkSize : Z)
    (cc_ : code_searcher)
    (pat_ : list Z → Z → Z → option (Z * Z)) (file_pat_ : option (string → bool))
    (index_ : option IndexKey) (utf8_is_valid : list Z → bool)
    (utf8_distance : list Z → Z) (gettimeofday : nat → Z * Z) (rand : nat → Z) :
  finalized_ cc_ = true →
  one_at_a_time FLAGS_threads cc_ →
  chunks_hold_data cc_ →
  match_in_window pat_ →
  let s := (search_all flags_ kChunkSize cc_ pat_ file_pat_ index_ utf8_is_valid
              utf8_distance gettimeofday rand (seq 0 (length (alloc_ cc_)))
              (new_searcher flags_ cc_)).2 in
  matches_ s = Z.of_nat (length (results (queue_ s))) ∧
  sentinels (queue_ s) = length (alloc_ cc_).
Proof.
  intros _ _ _ _.
  destruct (search_all_inv flags_ kChunkSize cc_ pat_ file_pat_ index_ utf8_is_valid
              utf8_distance gettimeofday rand 0 (seq 0 (length (alloc_ cc_)))
              (new_searcher flags_ cc_)
              (new_searcher_sound flags_ cc_ file_pat_ gettimeofday 0))
    as ((_ & Hacc & _) & Hn).
  split; [lia|]. rewrite Hn, length_seq. done.
Qed.

(** On a finalized corpus whose chunks hold data, with the tasks of
    [match_internal] run one at a time (a pool of one worker, or a corpus
    of one chunk) and with matches that lie in the window [RE2::Match] is
    given, the cap can be passed by less than the paths of one file: when
    no file of the corpus has more than [P] paths, [match_internal] hands
    at most [max_matches - 1 + P] results to the callback, and none when
    that is negative.  (Workers that run at the same time can each pass
    the cap in this way; nothing is stated of them.) *)
Theorem match_cap_overshoot_bound (FLAGS_threads : Z) (flags_ : flags)
    (kChunkSize : Z)
    (cc_ : code_searcher) (pat_ : list Z → Z → Z → option (Z * Z))
    (file_pat_ : option (string → bool)) (index_ : option IndexKey)
    (utf8_is_valid : list Z → bool) (utf8_distance : list Z → Z)
    (gettimeofday : nat → Z * Z) (rand : nat → Z) (P : Z) :
  finalized_ cc_ = true →
  one_at_a_time FLAGS_threads cc_ →
  chunks_hold_data cc_ →
  match_in_window pat_ →
  paths_bounded cc_ P →
  Z.of_nat (length (match_internal flags_ kChunkSize cc_ pat_ file_pat_ index_
                      utf8_is_valid utf8_distance gettimeofday rand).1)
  ≤ Z.max 0 (FLAGS_max_matches flags_ - 1 + P).
Proof.
  intros _ _ _ _ HP. destruct (FLAGS_search flags_) eqn:Hsearch.
  - destruct (match_internal_sound flags_ kChunkSize cc_ pat_ file_pat_ index_
                utf8_is_valid utf8_distance gettimeofday rand P Hsearch)
      as (-> & (_ & Hacc & Hcap & _) & _).
    simpl. specialize (Hcap HP). lia.
  - unfold match_internal. rewrite Hsearch. simpl. lia.
Qed.

(** On a finalized corpus whose chunks hold data, with the tasks of
    [match_internal] run one at a time (a pool of one worker, or a corpus
    of one chunk) and with matches that lie in the window [RE2::Match] is
    given, the reason [match_internal] reports is justified:
    [kExitMatchLimit] is reported only with at least [max_matches] results
    handed to the callback, and [kExitTimeout] is never reported when the
    timeout is off and the clock stays below the last second of
    [time_t]. *)
Theorem exit_reason_is_justified (FLAGS_threads : Z) (flags_ : flags)
    (kChunkSize : Z)
    (cc_ : code_searcher) (pat_ : list Z → Z → Z → option (Z * Z))
    (file_pat_ : option (string → bool)) (index_ : option IndexKey)
    (utf8_is_valid : list Z → bool) (utf8_distance : list Z → Z)
    (gettimeofday : nat → Z * Z) (rand : nat → Z) :
  finalized_ cc_ = true →
  one_at_a_time FLAGS_threads cc_ →
  chunks_hold_data cc_ →
  match_in_window pat_ →
  let r := match_internal flags_ kChunkSize cc_ pat_ file_pat_ index_
             utf8_is_valid utf8_distance gettimeofday rand in
  (r.2 = kExitMatchLimit → FLAGS_max_matches flags_ ≤ Z.of_nat (length r.1)) ∧
  (FLAGS_timeout flags_ ≤ 0 → clock_sane gettimeofday → r.2 ≠ kExitTimeout).
Proof.
  intros _ _ _ _ r. subst r. destruct (FLAGS_search flags_) eqn:Hsearch.
  - destruct (match_internal_sound flags_ kChunkSize cc_ pat_ file_pat_ index_
                utf8_is_valid utf8_distance gettimeofday rand 0 Hsearch)
      as (-> & (_ & Hacc & _ & Hlim & Htime & _) & _).
    simpl. split; [|done]. intros Hr. specialize (Hlim Hr). lia.
  - unfold match_internal. rewrite Hsearch. simpl. done.
Qed.

(** ** The cache of [accept] *)

(** With a right cache, [accept] on a file of the corpus answers whether
    one of the paths of the file matches the file pattern (and [true]
    without a file pattern); it changes nothing but the entry of the file in
    [files_], leaves the cache right, and a second call gives the same
    answer and changes nothing. *)
Theorem accept_file_answers_from_cache (cc_ : code_searcher)
    (file_pat_ : option (string → bool)) (no : nat) (s : searcher_state) :
  cache_ok cc_ file_pat_ s → (no < length (files_ cc_))%nat →
  let r := accept_file cc_ file_pat_ no s in
  r.1 = (negb (has_file_pat file_pat_) || file_accepted cc_ file_pat_ no) ∧
  cache_ok cc_ file_pat_ r.2 ∧
  set_sfiles_ (sfiles_ s) r.2 = s ∧
  (∀ no', no' ≠ no → sfiles_ r.2 !! no' = sfiles_ s !! no') ∧
  accept_file cc_ file_pat_ no r.2 = r.
Proof.
  intros [Hlen Hcache] Hno r. subst r. unfold accept_file, has_file_pat, file_accepted.
  destruct file_pat_ as [fp|] eqn:Hfp.
  2:{ simpl. split; [done|]. split; [done|]. by destruct s. }
  unfold bind, get, modify, ret. simpl.
  destruct (lookup_lt_is_Some_2 (sfiles_ s) no ltac:(lia)) as [v Hv].
  rewrite Hv. simpl.
  set (a := if existsb (accept_path (Some fp)) (sf_paths (the_file cc_ no))
            then 1 else 0).
  assert (Ha : negb (bool_decide (a = 0))
               = existsb (accept_path (Some fp)) (sf_paths (the_file cc_ no))).
  { subst a. by destruct (existsb _ _). }
  assert (Ha' : a ≠ 255) by (subst a; by destruct (existsb _ _)).
  destruct (decide (v = 255)) as [->|Hnew];
    [rewrite (bool_decide_eq_true_2 (255 = 255)) by done
    |rewrite !(bool_decide_eq_false_2 (v = 255)) by done]; simpl.
  - rewrite list_lookup_insert_eq by lia. simpl.
    rewrite (bool_decide_eq_false_2 (a = 255)) by done. simpl.
    rewrite list_lookup_insert_eq by lia. simpl.
    split; [done|]. split.
    { split; simpl; [by rewrite length_insert|].
      intros no' v' [(<- & <- & _)|(Hne & Hv')]%list_lookup_insert_Some.
      - right. unfold file_accepted. done.
      - by eapply Hcache. }
    split; [by destruct s|]. split; [|done].
    intros no' Hne. by rewrite list_lookup_insert_ne.
  - rewrite Hv. simpl. rewrite ?(bool_decide_eq_false_2 (v = 255)) by done. simpl.
    rewrite ?Hv. simpl.
    destruct (Hcache no v Hv) as [?|Hva]; [done|].
    unfold file_accepted in Hva. fold a in Hva. subst v.
    split; [done|]. split; [done|]. split; [by destruct s|]. done.
Qed.

Lemma accept_file_answers_from_cache_witness :
  let fp := Some (λ p : string, String.prefix "src/" p) in
  let s := new_searcher default_flags corpus_src_test in
  let r := accept_file corpus_src_test fp 1 s in
  r.1 = false ∧ sfiles_ r.2 = [255; 0] ∧ accept_file corpus_src_test fp 1 r.2 = r.
Proof.
  destruct (accept_file_answers_from_cache corpus_src_test
              (Some (λ p : string, String.prefix "src/" p)) 1
              (new_searcher default_flags corpus_src_test))
    as (_ & _ & _ & _ & Hagain).
  - apply (new_searcher_sound default_flags corpus_src_test _ frozen_clock 0).
  - vm_compute. lia.
  - split; [reflexivity|]. split; [reflexivity|]. exact Hagain.
Defined.

(** ** The range [next_range] gives *)

Ltac case_decide_on P :=
  let H := fresh "Hcase" in
  destruct (decide P) as [H|H];
  [rewrite (bool_decide_eq_true_2 P H)|rewrite (bool_decide_eq_false_2 P H)].

Section NextRange.

Variable flags_ : flags.
Variable cc_ : code_searcher.
Variable file_pat_ : option (string → bool).

Local Abbreviation skip_files := (skip_files cc_ file_pat_).
Local Abbreviation extend_range := (extend_range cc_ file_pat_).
Local Abbreviation next_range := (next_range flags_ cc_ file_pat_).

Lemma skip_files_spec fuel cfs it pos maxpos s :
  (length cfs - it ≤ fuel)%nat →
  post (skip_files fuel cfs it pos maxpos) s (λ it' _,
    (it ≤ it')%nat ∧
    ∀ cf, cfs !! it' = Some cf → cf_left cf < maxpos → pos ≤ cf_right cf).
Proof.
  revert it s. induction fuel as [|fuel IH]; intros it s Hfuel.
  { apply post_ret. split; [done|]. intros cf Hcf.
    apply lookup_lt_Some in Hcf. lia. }
  cbn [skip_files]. destruct (cfs !! it) as [cf|] eqn:Hcf.
  2:{ apply post_ret. split; [done|]. intros cf'. by rewrite Hcf. }
  assert (Hnext : ∀ (skip : bool) s1, (skip = false → pos ≤ cf_right cf) →
    post (if skip && bool_decide (cf_left cf < maxpos)
          then skip_files fuel cfs (S it) pos maxpos else ret it) s1 (λ it' _,
      (it ≤ it')%nat ∧
      ∀ cf, cfs !! it' = Some cf → cf_left cf < maxpos → pos ≤ cf_right cf)).
  { intros skip s1 Hskip. destruct skip; simpl.
    - case_bool_decide as Hleft.
      + eapply post_mono; [apply IH; lia|]; cbv beta. intros it' _ [Hle Hit].
        split; [lia|done].
      + apply post_ret. split; [done|]. intros cf'. rewrite Hcf. intros [= <-]. lia.
    - apply post_ret. split; [done|]. intros cf'. rewrite Hcf. intros [= <-] _. auto. }
  apply post_bind. case_decide_on (cf_right cf < pos).
  - apply post_ret. by apply Hnext.
  - apply post_bind. unfold post at 1. apply post_ret. apply Hnext. lia.
Qed.

Lemma extend_range_spec fuel cfs it endpos maxpos s :
  post (extend_range fuel cfs it endpos maxpos) s (λ r _,
    (it ≤ r.1)%nat ∧ endpos ≤ r.2).
Proof.
  revert it endpos s. induction fuel as [|fuel IH]; intros it endpos s.
  { apply post_ret. simpl. lia. }
  cbn [extend_range].
  case_decide_on (endpos + kMinSkip ≤ cf_left (default null_cf (cfs !! it)));
    [apply post_ret; simpl; lia|].
  apply post_bind.
  assert (Hnext : ∀ (ok : bool) s1,
    post (let endpos' := if ok then endpos `max` cf_right (default null_cf (cfs !! it))
                         else endpos in
          if ok && bool_decide (maxpos ≤ endpos') then ret (it, endpos')
          else match cfs !! S it with
               | Some cf' =>
                   if bool_decide (cf_left cf' < maxpos)
                   then extend_range fuel cfs (S it) endpos' maxpos
                   else ret (S it, endpos')
               | None => ret (S it, endpos')
               end) s1 (λ r _, (it ≤ r.1)%nat ∧ endpos ≤ r.2)).
  { intros ok s1. cbv zeta.
    set (endpos' := if ok then endpos `max` cf_right (default null_cf (cfs !! it))
                    else endpos).
    assert (endpos ≤ endpos') by (subst endpos'; destruct ok; lia).
    destruct (_ && _); [apply post_ret; simpl; lia|].
    destruct (cfs !! S it) as [cf'|]; [|apply post_ret; simpl; lia].
    case_bool_decide; [|apply post_ret; simpl; lia].
    eapply post_mono; [apply IH|]; cbv beta. intros r _ [Hle Hend]. lia. }
  case_decide_on (endpos ≤ cf_right (default null_cf (cfs !! it))).
  - unfold post at 1. apply Hnext.
  - apply post_ret. apply Hnext.
Qed.

Lemma next_range_ordered ci finger pos maxpos s :
  Forall (λ cf, cf_left cf ≤ cf_right cf) (files (the_chunk cc_ ci)) →
  pos ≤ maxpos →
  post (next_range ci finger pos maxpos maxpos) s (λ r _,
    (finger ≤ r.1.1)%nat ∧ pos ≤ r.1.2 ∧ r.1.2 ≤ r.2 ∧ r.2 ≤ maxpos).
Proof.
  intros Hcfs Hpos.
  unfold next_range. destruct (_ || _); [apply post_ret; simpl; lia|].
  apply post_bind.
  eapply post_mono; [apply skip_files_spec; lia|]; cbv beta.
  intros it s1 [Hle Hit].
  destruct (_ !! it) as [cf|] eqn:Hcf; [|apply post_ret; simpl; lia].
  case_decide_on (maxpos ≤ cf_left cf); [apply post_ret; simpl; lia|].
  apply post_bind.
  eapply post_mono; [apply extend_range_spec|]; cbv beta.
  intros r s2 [Hle2 Hend]. apply post_ret. simpl.
  pose proof (proj1 (Forall_forall _ _) Hcfs cf
                ltac:(by eapply list_elem_of_lookup_2)) as Hcf'. simpl in Hcf'.
  specialize (Hit cf eq_refl ltac:(lia)). lia.
Qed.

(** The range [next_range] gives to [full_search] is in order: for a
    position at or below [maxpos] and chunk files whose [left] is at or
    below their [right], the new position is at or past the old one, at or
    below the new end, and the new end is at or below [maxpos]; the finger
    does not move back.  So the [assert(pos <= end)] that follows the call
    holds. *)
Theorem next_range_gives_ordered_range (ci finger : nat) (pos maxpos : Z)
    (s : searcher_state) :
  Forall (λ cf, cf_left cf ≤ cf_right cf) (files (the_chunk cc_ ci)) →
  pos ≤ maxpos →
  let r := (next_range ci finger pos maxpos maxpos s).1 in
  (finger ≤ r.1.1)%nat ∧ pos ≤ r.1.2 ∧ r.1.2 ≤ r.2 ∧ r.2 ≤ maxpos.
Proof.
  intros Hcfs Hpos r. subst r.
  pose proof (next_range_ordered ci finger pos maxpos s Hcfs Hpos) as H.
  unfold post in H. exact H.
Qed.

End NextRange.

Lemma next_range_gives_ordered_range_witness :
  let fp := Some (λ p : string, String.prefix "src/" p) in
  let s := new_searcher (unbounded_flags true) corpus_src_test in
  let r := (next_range (unbounded_flags true) corpus_src_test fp 0 0 0 5 5 s).1 in
  r = (1%nat, 0, 4) ∧ 0 ≤ r.1.2 ∧ r.1.2 ≤ r.2 ∧ r.2 ≤ 5.
Proof.
  split; [reflexivity|].
  apply (next_range_gives_ordered_range (unbounded_flags true) corpus_src_test
           (Some (λ p : string, String.prefix "src/" p)) 0 0 0 5
           (new_searcher (unbounded_flags true) corpus_src_test)).
  - vm_compute. repeat constructor; discriminate.
  - lia.
Defined.

(** ** The turns of the loop of [full_search] *)

Lemma bind_ext_post {A B} (m : M A) (k1 k2 : A → M B) s :
  post m s (λ x s', k1 x s' = k2 x s') → bind m k1 s = bind m k2 s.
Proof. unfold post, bind. by destruct (m s). Qed.

Lemma line_end_ge c pos : pos ≤ size c → pos ≤ line_end c pos.
Proof. intros Hpos. unfold line_end. destruct (memchr _ _); lia. Qed.

Lemma line_end_le c pos : 0 ≤ pos ≤ size c → line_end c pos ≤ size c.
Proof.
  intros Hpos. unfold line_end. destruct (memchr _ _) as [e|] eqn:E; [|lia].
  apply memchr_Some in E as [He _]. apply lookup_lt_Some in He.
  rewrite length_take, length_drop in He. unfold size in *. lia.
Qed.

Lemma find_line_end_ge a chunk match_ :
  (sp_data match_).2 - (sp_data chunk).2 + sp_size match_ ≤ sp_size chunk →
  (sp_data match_).2 + sp_size match_
  ≤ (sp_data (find_line a chunk match_)).2 + sp_size (find_line a chunk match_).
Proof.
  intros Hfit. unfold find_line, ptr_add. simpl. destruct (memchr _ _); lia.
Qed.

Section FullSearchTurns.

Variable flags_ : flags.
Variable cc_ : code_searcher.
Variable pat_ : list Z → Z → Z → option (Z * Z).
Variable file_pat_ : option (string → bool).
Variable utf8_is_valid : list Z → bool.
Variable utf8_distance : list Z → Z.
Variable gettimeofday : nat → Z * Z.

Local Abbreviation full_search_loop :=
  (full_search_loop flags_ cc_ pat_ file_pat_ utf8_is_valid utf8_distance gettimeofday).
Local Abbreviation next_range := (next_range flags_ cc_ file_pat_).
Local Abbreviation exit_early := (exit_early flags_ gettimeofday).
Local Abbreviation find_match :=
  (find_match flags_ cc_ file_pat_ utf8_distance gettimeofday).

(** The loop of [full_search] moves the position forward at every turn (the
    [assert(new_pos > pos)] of the source holds), so it ends within
    [maxpos - pos] turns: turns beyond that number change nothing.  The
    match [RE2::Match] finds is taken to start at or after the position and
    to lie in the chunk, and the chunk files to have their [left] at or
    below their [right]. *)
Theorem full_search_ends_in_turns (ci : nat) (maxpos : Z) (turns more finger : nat)
    (pos end_ : Z) (s : searcher_state) :
  match_in_window pat_ →
  Forall (λ cf, cf_left cf ≤ cf_right cf) (files (the_chunk cc_ ci)) →
  0 ≤ pos → end_ ≤ maxpos → maxpos ≤ size (the_chunk cc_ ci) →
  (Z.to_nat (maxpos - pos) ≤ turns)%nat →
  full_search_loop (turns + more) ci maxpos finger pos end_ s
  = full_search_loop turns ci maxpos finger pos end_ s.
Proof.
  intros Hpat Hcfs. revert finger pos end_ s.
  induction turns as [|turns IH]; intros finger pos end_ s Hpos Hend Hmax Hturns.
  { destruct more as [|more]; [done|]. simpl.
    rewrite (bool_decide_eq_false_2 (pos < maxpos)) by lia. done. }
  change (S turns + more)%nat with (S (turns + more)). cbn [full_search_loop].
  case_decide_on (pos < maxpos); simpl; [|done].
  apply bind_ext_post. unfold post.
  destruct (exit_early s) as [[|] s1]; simpl; [done|].
  apply bind_ext_post.
  assert (Hrest : ∀ (r : nat * Z * Z) s2,
    pos ≤ r.1.2 → r.1.2 ≤ r.2 → r.2 ≤ maxpos →
    (let '(finger, pos, end_) := r in
     if bool_decide (maxpos ≤ pos) then ret finger
     else
       let limit :=
         if bool_decide (kMaxScan < end_ - pos)
         then line_end (the_chunk cc_ ci) (pos + kMaxScan) else end_ in
       match pat_ (data (the_chunk cc_ ci)) pos limit with
       | None => full_search_loop (turns + more) ci maxpos finger (limit + 1) end_
       | Some (moff, msize) =>
           let match_ := mkSP (ci, moff) msize in
           let line := find_line (alloc_ cc_) (chunk_piece cc_ ci) match_ in
           bind (if utf8_is_valid (sp_bytes (alloc_ cc_) line)
                 then find_match ci match_ line else ret tt)
             (λ _, let new_pos := sp_size line + (sp_data line).2 + 1 in
                   full_search_loop (turns + more) ci maxpos finger new_pos end_)
       end) s2
    = (let '(finger, pos, end_) := r in
     if bool_decide (maxpos ≤ pos) then ret finger
     else
       let limit :=
         if bool_decide (kMaxScan < end_ - pos)
         then line_end (the_chunk cc_ ci) (pos + kMaxScan) else end_ in
       match pat_ (data (the_chunk cc_ ci)) pos limit with
       | None => full_search_loop turns ci maxpos finger (limit + 1) end_
       | Some (moff, msize) =>
           let match_ := mkSP (ci, moff) msize in
           let line := find_line (alloc_ cc_) (chunk_piece cc_ ci) match_ in
           bind (if utf8_is_valid (sp_bytes (alloc_ cc_) line)
                 then find_match ci match_ line else ret tt)
             (λ _, let new_pos := sp_size line + (sp_data line).2 + 1 in
                   full_search_loop turns ci maxpos finger new_pos end_)
       end) s2).
  { intros [[finger' pos'] end'] s2 Hp Hpe He. simpl in Hp, Hpe, He.
    case_decide_on (maxpos ≤ pos'); [done|]. cbv zeta.
    set (limit := if bool_decide (kMaxScan < end' - pos')
                  then line_end (the_chunk cc_ ci) (pos' + kMaxScan) else end').
    assert (pos' ≤ limit ≤ size (the_chunk cc_ ci)) as Hlimit.
    { subst limit. case_bool_decide as Hscan; [|lia].
      pose proof (line_end_ge (the_chunk cc_ ci) (pos' + kMaxScan) ltac:(lia)).
      pose proof (line_end_le (the_chunk cc_ ci) (pos' + kMaxScan)
                    ltac:(unfold kMaxScan in *; lia)).
      unfold kMaxScan in *. lia. }
    destruct (pat_ _ _ _) as [[moff msize]|] eqn:Hmatch.
    - destruct (Hpat (data (the_chunk cc_ ci)) pos' limit _ _ ltac:(lia)
                  ltac:(unfold size in Hlimit; lia)
                  Hmatch) as (Hmoff & Hmsize & Hfit).
      apply bind_ext_post. unfold post.
      pose proof (find_line_end_ge (alloc_ cc_) (chunk_piece cc_ ci)
                    (mkSP (ci, moff) msize)) as Hline.
      specialize (Hline ltac:(simpl; unfold size; lia)).
      cbn [sp_data sp_size snd] in Hline.
      apply IH; lia.
    - apply IH; lia. }
  case_decide_on (end_ ≤ pos).
  - eapply post_mono; [apply next_range_ordered; [done|lia]|]; cbv beta.
    intros r s2 (_ & Hp & Hpe & He). by apply Hrest.
  - apply post_ret. apply (Hrest (finger, pos, end_)); simpl; lia.
Qed.

End FullSearchTurns.

Lemma match_len_le p s n : match_len p s = Some n → (n ≤ length s)%nat.
Proof.
  revert s n. induction p as [|a p IH]; intros s n.
  { simpl. intros [= <-]. lia. }
  assert (Hone : ∀ s n,
            match s with
            | c :: s' => if atom_matches a c then S <$> match_len p s' else None
            | [] => None
            end = Some n → (n ≤ length s)%nat).
  { intros [|c s'] k; [done|]. destruct (atom_matches a c); [|done].
    destruct (match_len p s') as [k'|] eqn:E; [|done]. simpl. intros [= <-].
    apply IH in E. simpl. lia. }
  destruct a as [b|lo hi| |b]; try apply Hone.
  cbn [match_len]. revert n. induction s as [|c s IHs]; intros k.
  - apply IH.
  - case_bool_decide; [|apply IH].
    match goal with |- context [match ?t with Some _ => _ | None => _ end] =>
      destruct t as [k'|] eqn:E end.
    + intros [= <-]. specialize (IHs k' eq_refl). simpl. lia.
    + apply IH.
Qed.

Lemma re2_scan_window n p str pos limit moff msize :
  0 ≤ pos → pos + Z.of_nat n ≤ limit + 1 → limit ≤ Z.of_nat (length str) →
  re2_scan n p str pos limit = Some (moff, msize) →
  pos ≤ moff ∧ 0 ≤ msize ∧ moff + msize ≤ Z.of_nat (length str).
Proof.
  revert pos. induction n as [|n IH]; intros pos Hpos Hn Hlimit; [done|].
  cbn [re2_scan]. destruct (match_len p (slice str pos limit)) as [len|] eqn:E.
  - intros [= <- <-]. apply match_len_le in E.
    unfold slice in E. rewrite length_take, length_drop in E. lia.
  - intros Hscan. destruct (IH (pos + 1) ltac:(lia) ltac:(lia) Hlimit Hscan)
      as (? & ? & ?). lia.
Qed.

Lemma re2_match_in_window p : match_in_window (re2_match p).
Proof.
  intros str pos limit moff msize Hpos Hlimit Hmatch. unfold re2_match in Hmatch.
  destruct (decide (pos ≤ limit + 1)) as [Hle|Hgt].
  - eapply re2_scan_window; [done| |done|exact Hmatch]. lia.
  - replace (Z.to_nat (limit - pos + 1)) with 0%nat in Hmatch by lia. done.
Qed.

Lemma full_search_ends_in_turns_witness :
  let s := new_searcher default_flags corpus_a in
  let run n := full_search_loop default_flags corpus_a (re2_match [Lit 98; Lit 97; Dot])
                 None utf8_is_valid utf8_distance frozen_clock n 0 11 0 0 0 s in
  length (queue_ (run 11%nat).2) = 2%nat ∧ run (11 + 1000)%nat = run 11%nat.
Proof.
  split; [reflexivity|].
  apply (full_search_ends_in_turns default_flags corpus_a
           (re2_match [Lit 98; Lit 97; Dot]) None utf8_is_valid utf8_distance
           frozen_clock 0 11 11 1000 0 0 0 (new_searcher default_flags corpus_a)).
  - apply re2_match_in_window.
  - vm_compute. repeat constructor; discriminate.
  - lia.
  - lia.
  - vm_compute. discriminate.
  - lia.
Defined.

(** ** The assertions of [filtered_search] hold *)

Lemma key_bytes_unfold e edges :
  key_bytes (IK e edges) =
  forallb (λ ed : Z * Z * option IndexKey,
             bool_decide (0 ≤ ed.1.1 ≤ 255) && bool_decide (0 ≤ ed.1.2 ≤ 255) &&
             okey_bytes ed.2) edges.
Proof.
  simpl. induction edges as [|[[lo hi] child] edges IH]; [done|].
  simpl. by rewrite IH.
Qed.

Section WalkAsserts.

Variable c : chunk.
Hypothesis Hsorted : suffix_sorted c.

Local Abbreviation rank_at d i := (byte_rank (byte_at c (entry c i + d))).

Lemma edge_slice_spec st lo hi :
  frame_uniform c st → 0 ≤ lo ≤ 255 → 0 ≤ hi ≤ 255 →
  let l := lower_bound c (ws_depth st) (ws_left st) (ws_right st) lo in
  let right := lower_bound c (ws_depth st) l (ws_right st) ((hi + 1) `mod` 256) in
  (ws_left st ≤ l ≤ right)%nat ∧ (right ≤ ws_right st)%nat ∧
  (l ≠ right →
   lo ≤ hi < 255 ∧ edge_asserts c st lo hi l right = true ∧
   ∀ i, (l ≤ i < right)%nat → lo ≤ rank_at (ws_depth st) i).
Proof.
  intros Hst Hlo Hhi l right.
  pose proof Hst as ((Hlr & Hlen) & Hd & Hu).
  destruct (frame_lower_bound c Hsorted st (ws_left st) (ws_right st) lo Hst)
    as (Hb1 & Hlt1 & Hge1); [lia|lia|lia|lia|]. fold l in Hb1, Hlt1, Hge1.
  assert (0 ≤ (hi + 1) `mod` 256) as Hv by (apply Z.mod_pos_bound; lia).
  destruct (frame_lower_bound c Hsorted st l (ws_right st) ((hi + 1) `mod` 256) Hst)
    as (Hb2 & Hlt2 & Hge2); [lia|lia|lia|lia|]. fold right in Hb2, Hlt2, Hge2.
  split; [lia|]. split; [lia|]. intros Hne.
  assert (l < right)%nat as Hlt by lia.
  pose proof (Hlt2 l ltac:(lia)) as Hl2. pose proof (Hge1 l ltac:(lia)) as Hl1.
  assert (hi < 255) as Hhi'.
  { destruct (decide (hi = 255)) as [->|]; [|lia]. change ((255 + 1) `mod` 256) with 0 in Hl2.
    lia. }
  rewrite Z.mod_small in Hl2, Hlt2, Hge2 by lia.
  split; [lia|]. split.
  - unfold edge_asserts. repeat (apply andb_true_iff; split).
    + destruct (decide (ws_depth st = 0)) as [Hd0|Hd0].
      * by rewrite (bool_decide_eq_true_2 _ Hd0).
      * apply orb_true_iff. right. apply bool_decide_eq_true.
        destruct (Hu l (right - 1)%nat (ws_depth st - 1)) as [Heq _]; [lia|lia|lia|].
        by rewrite <- !Z.add_sub_assoc.
    + destruct (decide (l = ws_left st)) as [Hll|Hll].
      * by rewrite (bool_decide_eq_true_2 _ Hll).
      * pose proof (Hlt1 (l - 1)%nat ltac:(lia)) as Hprev. unfold byte_rank in Hprev.
        destruct (decide (byte_at c (entry c (l - 1) + ws_depth st) = NL)) as [Hnl|Hnl].
        -- rewrite (bool_decide_eq_true_2 _ Hnl). by rewrite orb_true_r.
        -- rewrite (bool_decide_eq_false_2 _ Hnl) in Hprev.
           rewrite (bool_decide_eq_true_2 (_ < lo)) by lia. by rewrite !orb_true_r.
    + apply bool_decide_eq_true. unfold byte_rank in Hl1. case_bool_decide; lia.
    + destruct (decide (right = ws_right st)) as [Hrr|Hrr].
      * by rewrite (bool_decide_eq_true_2 _ Hrr).
      * apply orb_true_iff. right. apply bool_decide_eq_true.
        pose proof (Hge2 right ltac:(lia)) as Hr. unfold byte_rank in Hr.
        case_bool_decide; lia.
  - intros i Hi. apply Hge1. lia.
Qed.

Lemma push_edges_checked_ok st edges stack :
  frame_uniform c st →
  forallb (λ ed : Z * Z * option IndexKey,
             bool_decide (0 ≤ ed.1.1 ≤ 255) && bool_decide (0 ≤ ed.1.2 ≤ 255) &&
             okey_bytes ed.2) edges = true →
  Forall (λ f, frame_uniform c f ∧ okey_bytes (ws_key f) = true) stack →
  push_edges_checked c st edges stack = Some (push_edges c st edges stack) ∧
  Forall (λ f, frame_uniform c f ∧ okey_bytes (ws_key f) = true)
    (push_edges c st edges stack).
Proof.
  intros Hst. revert stack.
  induction edges as [|[[lo hi] child] edges IH]; intros stack Hbytes Hstack; [done|].
  simpl in Hbytes. apply andb_true_iff in Hbytes as [Hed Hbytes].
  apply andb_true_iff in Hed as [Hed Hchild].
  apply andb_true_iff in Hed as [Hlo Hhi].
  apply bool_decide_eq_true in Hlo, Hhi.
  cbn [push_edges push_edges_checked].
  destruct (edge_slice_spec st lo hi Hst Hlo Hhi) as (Hb1 & Hb2 & Hslice).
  set (l := lower_bound c (ws_depth st) (ws_left st) (ws_right st) lo) in *.
  set (right := lower_bound c (ws_depth st) l (ws_right st) ((hi + 1) `mod` 256)) in *.
  case_decide_on (l = right); [by apply IH|].
  destruct (Hslice Hcase) as (Hrange & -> & Hlow).
  apply IH; [done|].
  destruct (push_bytes_cover c Hsorted st (Z.to_nat (hi - lo + 1)) child lo l right
              stack Hst) as (pushed & -> & Hall & _); [lia|lia|lia|lia|lia|done|].
  apply Forall_app. split; [|done].
  eapply Forall_impl; [exact Hall|]. intros f (Hf & Hk & _). split; [done|].
  by rewrite Hk.
Qed.

Lemma index_walk_checked_ok kChunkSize fuel stack count_ out :
  Forall (λ f, frame_uniform c f ∧ okey_bytes (ws_key f) = true) stack →
  index_walk_checked kChunkSize fuel c stack count_ out
  = Some (index_walk kChunkSize fuel c stack count_ out).
Proof.
  revert stack count_ out.
  induction fuel as [|fuel IH]; intros stack count_ out Hstack; [done|].
  destruct stack as [|st stack]; [done|].
  apply Forall_cons in Hstack as [[Hst Hkey] Hstack].
  cbn [index_walk index_walk_checked].
  destruct (copies_slice st) eqn:Hcopy.
  - case_bool_decide; [done|]. by apply IH.
  - unfold copies_slice in Hcopy.
    destruct (ws_key st) as [[e edges]|] eqn:Hk; [|done].
    cbn [okey_bytes] in Hkey. rewrite key_bytes_unfold in Hkey.
    cbn [ik_edges].
    destruct (push_edges_checked_ok st edges stack Hst Hkey Hstack) as [-> Hall].
    by apply IH.
Qed.

End WalkAsserts.

(** In a chunk whose suffix array is sorted, none of the assertions of
    [filtered_search] fails, for any key whose ranges are ranges of bytes:
    the walk with the assertions gives what the walk gives. *)
Theorem walk_assertions_hold (kChunkSize : Z) (cc_ : code_searcher)
    (index_ : option IndexKey) (ci : nat) :
  let c := the_chunk cc_ ci in
  length (suffixes c) = length (data c) →
  suffix_sorted c →
  okey_bytes index_ = true →
  walk_index_checked kChunkSize cc_ index_ ci
  = Some (walk_index kChunkSize cc_ index_ ci).
Proof.
  intros c Hlen Hsorted Hbytes. unfold walk_index_checked, walk_index. fold c.
  apply index_walk_checked_ok; [done|].
  constructor; [|constructor]. split; [|done].
  split; [simpl; unfold size; lia|]. split; [simpl; lia|].
  simpl. intros ? ? k _ _ Hk. lia.
Qed.

Lemma walk_assertions_hold_witness :
  let index := Some (indexRE [Cls 97 254; Lit 97]) in
  let c := the_chunk corpus_wide 0 in
  walk_index_checked 107000 corpus_wide index 0
  = Some (walk_index 107000 corpus_wide index 0) ∧
  (walk_index 107000 corpus_wide index 0).1 = 104 ∧
  (lower_bound c 0 0 107 97, lower_bound c 0 0 107 255) = (2%nat, 107%nat) ∧
  (lower_bound c 1 2 103 97, lower_bound c 1 2 103 98) = (3%nat, 103%nat).
Proof.
  split; [|split; [|split]]; [|reflexivity..].
  apply (walk_assertions_hold 107000 corpus_wide
           (Some (indexRE [Cls 97 254; Lit 97])) 0).
  - reflexivity.
  - apply suffix_sorted_check_sound. vm_compute. reflexivity.
  - reflexivity.
Defined.

(** ** The results of a search *)

(** On a finalized corpus whose chunks hold data, with the tasks of
    [match_internal] run one at a time (a pool of one worker, or a corpus
    of one chunk) and with matches that lie in the window [RE2::Match] is
    given, every result [match_internal] hands to the callback is well
    formed: it has at least one context; all its contexts are filed under
    one path string; every context has at least one path, and each of its
    paths has that path string, is accepted by the file pattern and is a
    path of the file of the context; a piece of the content of that file
    covers the start of the line of the result, so that no file is
    reported that does not hold the line; the line number is [1] or more;
    and a context has at most [kContextLines] lines before and after. *)
Theorem results_are_well_formed (FLAGS_threads : Z) (flags_ : flags)
    (kChunkSize : Z)
    (cc_ : code_searcher) (pat_ : list Z → Z → Z → option (Z * Z))
    (file_pat_ : option (string → bool)) (index_ : option IndexKey)
    (utf8_is_valid : list Z → bool) (utf8_distance : list Z → Z)
    (gettimeofday : nat → Z * Z) (rand : nat → Z) :
  finalized_ cc_ = true →
  one_at_a_time FLAGS_threads cc_ →
  chunks_hold_data cc_ →
  match_in_window pat_ →
  Forall (result_ok cc_ file_pat_)
    (match_internal flags_ kChunkSize cc_ pat_ file_pat_ index_ utf8_is_valid
       utf8_distance gettimeofday rand).1.
Proof.
  intros _ _ _ _. destruct (FLAGS_search flags_) eqn:Hsearch.
  - destruct (match_internal_sound flags_ kChunkSize cc_ pat_ file_pat_ index_
                utf8_is_valid utf8_distance gettimeofday rand 0 Hsearch)
      as (-> & (Hres & _) & _).
    exact Hres.
  - unfold match_internal. rewrite Hsearch. simpl. constructor.
Qed.

(** ** The walk of [find_match] over the chunk-file tree *)

Lemma bind_ext {A B} (m : M A) (k1 k2 : A → M B) s :
  (∀ x s', k1 x s' = k2 x s') → bind m k1 s = bind m k2 s.
Proof. intros H. unfold bind. by destruct (m s). Qed.

Lemma filter_spans_nil loff (l : list chunk_file) :
  (∀ x, x ∈ l → spans loff x = false) → List.filter (spans loff) l = [].
Proof.
  induction l as [|x l IH]; intros H; [done|]. simpl.
  rewrite (H x) by (by left). apply IH. intros y Hy. apply H. by right.
Qed.

Section FindMatchWalk.

Variable flags_ : flags.
Variable cc_ : code_searcher.
Variable file_pat_ : option (string → bool).
Variable gettimeofday : nat → Z * Z.
Variable loff : Z.
Variable line match_ : StringPiece.

Local Abbreviation find_match_loop :=
  (find_match_loop flags_ cc_ file_pat_ gettimeofday).
Local Abbreviation try_chunk_files :=
  (try_chunk_files flags_ cc_ file_pat_ gettimeofday line match_).
Local Abbreviation try_files := (try_files flags_ cc_ file_pat_ gettimeofday).

Lemma try_chunk_files_stopped cfs g s :
  exit_reason_ s ≠ kExitNone → try_chunk_files cfs g s = (g, s).
Proof.
  intros Hexit. destruct cfs as [|cf cfs]; [done|].
  simpl. unfold bind, get. simpl. by rewrite bool_decide_eq_false_2.
Qed.

Lemma find_match_loop_visits fuel stack g s :
  Forall (λ fr : chunk_file_node * bool, fr.2 = false → tree_ok fr.1 = true) stack →
  (sum_list (frame_turns <$> stack) ≤ fuel)%nat →
  find_match_loop fuel loff line match_ stack g s
  = try_chunk_files (concat (frame_visits loff <$> stack)) g s.
Proof.
  revert stack g s.
  induction fuel as [|fuel IH]; intros stack g s Hok Hfuel.
  { destruct stack as [|[[|cf l r lim] [|]] stack]; [done|..];
      rewrite fmap_cons, sum_list_cons in Hfuel; simpl in Hfuel; lia. }
  destruct stack as [|[nd visit] stack]; [done|].
  apply Forall_cons in Hok as [Hnd Hok]. simpl in Hnd.
  rewrite fmap_cons, sum_list_cons in Hfuel.
  cbn [find_match_loop]. unfold bind at 1, get at 1. cbn beta iota.
  destruct (decide (exit_reason_ s = kExitNone)) as [Hnone|Hexit].
  2:{ rewrite bool_decide_eq_false_2 by done. simpl.
      by rewrite try_chunk_files_stopped. }
  rewrite bool_decide_eq_true_2 by done. cbn [negb].
  rewrite fmap_cons. cbn [concat].
  destruct nd as [|cf l r lim].
  { assert (frame_visits loff (CFNil, visit) = []) as -> by (by destruct visit).
    simpl app. apply IH; [done|]. destruct visit; simpl in Hfuel; lia. }
  destruct visit.
  - cbn [frame_visits app]. simpl in Hfuel.
    cbn [try_chunk_files]. unfold bind at 2, get at 1. cbn beta iota.
    rewrite bool_decide_eq_true_2 by done. cbn [negb].
    apply bind_ext. intros g' s'. apply IH; [done|lia].
  - specialize (Hnd eq_refl). cbn [tree_ok] in Hnd.
    apply andb_true_iff in Hnd as [Hnd Hr]. apply andb_true_iff in Hnd as [Hnd Hl].
    apply andb_true_iff in Hnd as [Hbst Hlim].
    rewrite forallb_forall in Hbst. rewrite forallb_forall in Hlim.
    cbn [frame_turns tree_size] in Hfuel.
    cbn [frame_visits inorder].
    case_decide_on (lim < loff).
    { rewrite filter_spans_nil.
      - simpl app. apply IH; [done|lia].
      - intros x Hx. apply list_elem_of_In in Hx. specialize (Hlim x Hx).
        apply bool_decide_eq_true in Hlim. unfold spans.
        rewrite (bool_decide_eq_false_2 (loff ≤ cf_right x)) by lia.
        by rewrite andb_false_r. }
    rewrite List.filter_app. cbn [List.filter].
    assert (Hleft : ∀ st, concat (frame_visits loff <$>
                            (if is_null l then st else (l, false) :: st))
                          = List.filter (spans loff) (inorder l)
                            ++ concat (frame_visits loff <$> st)).
    { intros st. destruct l; [done|]. cbn [is_null]. by rewrite fmap_cons. }
    assert (Hright : ∀ st, concat (frame_visits loff <$>
                            (if is_null r then st else (r, false) :: st))
                          = List.filter (spans loff) (inorder r)
                            ++ concat (frame_visits loff <$> st)).
    { intros st. destruct r; [done|]. cbn [is_null]. by rewrite fmap_cons. }
    assert (Hlturns : ∀ st, (sum_list (frame_turns <$>
                               (if is_null l then st else (l, false) :: st))
                             ≤ 2 * tree_size l + sum_list (frame_turns <$> st))%nat).
    { intros st. destruct l; [simpl; lia|]. cbn [is_null].
      rewrite fmap_cons, sum_list_cons. done. }
    assert (Hrturns : ∀ st, (sum_list (frame_turns <$>
                               (if is_null r then st else (r, false) :: st))
                             ≤ 2 * tree_size r + sum_list (frame_turns <$> st))%nat).
    { intros st. destruct r; [simpl; lia|]. cbn [is_null].
      rewrite fmap_cons, sum_list_cons. done. }
    assert (Hlok : ∀ st,
              Forall (λ fr : chunk_file_node * bool, fr.2 = false → tree_ok fr.1 = true) st →
              Forall (λ fr : chunk_file_node * bool, fr.2 = false → tree_ok fr.1 = true)
                (if is_null l then st else (l, false) :: st)).
    { intros st Hst. destruct (is_null l); [done|]. by constructor. }
    assert (Hrok : ∀ st,
              Forall (λ fr : chunk_file_node * bool, fr.2 = false → tree_ok fr.1 = true) st →
              Forall (λ fr : chunk_file_node * bool, fr.2 = false → tree_ok fr.1 = true)
                (if is_null r then st else (r, false) :: st)).
    { intros st Hst. destruct (is_null r); [done|]. by constructor. }
    unfold spans at 2.
    case_decide_on (cf_left cf ≤ loff).
    + case_decide_on (loff ≤ cf_right cf); cbn [andb].
      * rewrite IH.
        -- rewrite Hleft, fmap_cons. cbn [concat frame_visits]. rewrite Hright.
           by rewrite <- !app_assoc.
        -- apply Hlok. constructor; [done|]. by apply Hrok.
        -- etrans; [apply Hlturns|]. rewrite fmap_cons, sum_list_cons.
           pose proof (Hrturns stack). cbn [frame_turns]. lia.
      * rewrite IH.
        -- rewrite Hleft, Hright. by rewrite <- !app_assoc.
        -- apply Hlok. by apply Hrok.
        -- etrans; [apply Hlturns|]. pose proof (Hrturns stack). lia.
    + cbn [andb]. rewrite (filter_spans_nil loff (inorder r)).
      * rewrite app_nil_r. rewrite IH; [by rewrite Hleft|by apply Hlok|].
        etrans; [apply Hlturns|]. lia.
      * intros x Hx. apply list_elem_of_In in Hx. specialize (Hbst x Hx).
        apply bool_decide_eq_true in Hbst. unfold spans.
        by rewrite (bool_decide_eq_false_2 (cf_left x ≤ loff)) by lia.
Qed.

(** The walk of [find_match] over the chunk-file tree tries the files of
    exactly the chunk files that span the offset of the line, from left to
    right, until the exit reason is set; the subtrees it skips hold no such
    chunk file, and it ends within two turns per node.  The tree is taken
    to have the records of a right subtree start at or after the record of
    the node, and every [right_limit] at or above the [right]s below it. *)
Theorem find_match_visits_spanning_files (root : chunk_file_node)
    (g : match_group) (s : searcher_state) :
  tree_ok root = true →
  find_match_loop (2 * tree_size root + 1) loff line match_ [(root, false)] g s
  = try_chunk_files (List.filter (spans loff) (inorder root)) g s.
Proof.
  intros Hroot. rewrite find_match_loop_visits.
  - simpl. rewrite app_nil_r. by destruct root.
  - by repeat constructor.
  - simpl. destruct root; simpl; lia.
Qed.

End FindMatchWalk.

Lemma find_match_visits_spanning_files_witness :
  let root := cf_root (the_chunk corpus_src_test 0) in
  let line := mkSP (0%nat, 5) 1 in
  let g := new_match_group corpus_src_test utf8_distance line line in
  let s := new_searcher default_flags corpus_src_test in
  List.filter (spans 5) (inorder root) = [mkCF [1%nat] 5 6] ∧
  find_match_loop default_flags corpus_src_test None frozen_clock
    (2 * tree_size root + 1) 5 line line [(root, false)] g s
  = try_chunk_files default_flags corpus_src_test None frozen_clock line line
      (List.filter (spans 5) (inorder root)) g s.
Proof.
  split; [reflexivity|].
  apply (find_match_visits_spanning_files default_flags corpus_src_test None
           frozen_clock 5 (mkSP (0%nat, 5) 1) (mkSP (0%nat, 5) 1)
           (cf_root (the_chunk corpus_src_test 0))).
  reflexivity.
Defined.

(** ** The file density *)

Section FilesDensity.

Variable cc_ : code_searcher.
Variable file_pat_ : option (string → bool).
Variable rand : nat → Z.

Local Abbreviation accept_file := (accept_file cc_ file_pat_).
Local Abbreviation density_hits := (density_hits cc_ file_pat_ rand).
Local Abbreviation files_density := (files_density cc_ file_pat_ rand).

Lemma accept_file_density no s :
  post (accept_file no) s (λ _ s', files_density_ s' = files_density_ s).
Proof.
  unfold accept_file. destruct file_pat_; [|done].
  unfold post, bind, get, modify, ret. simpl. by case_bool_decide.
Qed.

Lemma density_hits_bounds n hits s :
  post (density_hits n hits) s (λ hits' s',
    hits ≤ hits' ≤ hits + Z.of_nat n ∧ files_density_ s' = files_density_ s).
Proof.
  revert hits s. induction n as [|n IH]; intros hits s.
  { apply post_ret. split; [lia|done]. }
  cbn [density_hits]. apply post_bind, post_get. apply post_bind, post_modify.
  apply post_bind.
  eapply post_mono; [apply accept_file_density|]; cbv beta. intros b s1 Hd1.
  eapply post_mono; [apply IH|]; cbv beta. intros hits' s2 [Hh Hd2].
  split; [destruct b; lia|]. by rewrite Hd2, Hd1.
Qed.

(** [files_density] gives a ratio of hits to samples with the hits between
    zero and the samples, and the samples the smaller of 1000 and the
    number of files; it keeps the ratio, and a second call returns it
    without sampling again.  With no file there is no ratio. *)
Theorem files_density_is_cached_ratio (s : searcher_state) :
  files_density_ s = None →
  let r := files_density s in
  match r.1 with
  | Some (hits, sample) =>
      0 ≤ hits ≤ sample ∧ 0 < sample ∧
      sample = Z.of_nat (Nat.min 1000 (length (files_ cc_))) ∧
      files_density r.2 = r
  | None => files_ cc_ = [] ∧ files_density_ r.2 = None
  end.
Proof.
  intros Hnone r. subst r.
  pose proof (density_hits_bounds (Nat.min 1000 (length (files_ cc_))) 0 s) as Hhits.
  unfold post in Hhits.
  destruct (files_density s) as [d s'] eqn:E. cbn [fst snd].
  unfold files_density in E. unfold bind at 1, get at 1 in E. cbn beta iota in E.
  rewrite Hnone in E. unfold bind at 1 in E.
  destruct (density_hits (Nat.min 1000 (length (files_ cc_))) 0 s) as [hits s1].
  cbn [fst snd] in Hhits. destruct Hhits as [Hh Hd].
  destruct (decide (Nat.min 1000 (length (files_ cc_)) = 0)%nat) as [Hzero|Hpos].
  - rewrite (bool_decide_eq_true_2 _ Hzero) in E.
    apply pair_equal_spec in E as [<- <-].
    split; [|congruence]. destruct (files_ cc_); [done|]. simpl in Hzero. lia.
  - rewrite (bool_decide_eq_false_2 _ Hpos) in E.
    unfold bind, modify, ret in E. apply pair_equal_spec in E as [<- <-].
    split; [lia|]. split; [lia|]. split; [done|].
    unfold files_density, bind, get, ret. done.
Qed.

End FilesDensity.

Lemma files_density_is_cached_ratio_witness :
  let fp := Some (λ p : string, String.prefix "src/" p) in
  let s := new_searcher default_flags corpus_src_test in
  let r := files_density corpus_src_test fp (λ n, Z.of_nat n) s in
  r.1 = Some (1, 2) ∧ files_density corpus_src_test fp (λ n, Z.of_nat n) r.2 = r.
Proof.
  assert (E : (files_density corpus_src_test
                 (Some (λ p : string, String.prefix "src/" p)) (λ n, Z.of_nat n)
                 (new_searcher default_flags corpus_src_test)).1 = Some (1, 2))
    by reflexivity.
  split; [exact E|].
  pose proof (files_density_is_cached_ratio corpus_src_test
                (Some (λ p : string, String.prefix "src/" p)) (λ n, Z.of_nat n)
                (new_searcher default_flags corpus_src_test) eq_refl) as H.
  cbv zeta in H. rewrite E in H. apply H.
Defined.

(** ** The store of lines *)

Lemma get_chunk_data a i : data (get_chunk a i) = default [] ((data <$> a) !! i).
Proof. unfold get_chunk. revert i. induction a as [|c a IH]; intros [|i]; simpl; auto. Qed.

Lemma read_ext a a' p n : data <$> a = data <$> a' → read a p n = read a' p n.
Proof. intros H. unfold read. by rewrite !get_chunk_data, H. Qed.

Lemma chunk_bytes_data a : chunk_bytes a = foldr (λ d n, Z.of_nat (length d) + n) 0 (data <$> a).
Proof. induction a as [|c a IH]; [done|]. simpl. by rewrite IH. Qed.

Lemma chunk_bytes_ext a a' : data <$> a = data <$> a' → chunk_bytes a = chunk_bytes a'.
Proof. intros H. by rewrite !chunk_bytes_data, H. Qed.

Lemma chunk_bytes_app a b : chunk_bytes (a ++ b) = chunk_bytes a + chunk_bytes b.
Proof. induction a as [|c a IH]; simpl; [done|]. rewrite IH. lia. Qed.

Lemma chunk_bytes_insert (a : list chunk) i c c' :
  a !! i = Some c → chunk_bytes (<[i := c']> a) = chunk_bytes a - size c + size c'.
Proof.
  unfold chunk_bytes.
  revert i. induction a as [|x a IH]; intros [|i]; simpl; try done.
  - intros [= ->]. lia.
  - intros H. specialize (IH _ H). lia.
Qed.

Lemma line_stored_ext a a' bytes line :
  data <$> a = data <$> a' → line_stored a bytes line → line_stored a' bytes line.
Proof. intros H (Hs & Ho & Hr). split; [done|]. split; [done|]. by rewrite <- (read_ext a a'). Qed.

Lemma line_stored_bound a bytes line :
  line_stored a bytes line →
  0 ≤ sp_size line ∧
  (sp_data line).2 + sp_size line + 1 ≤ size (get_chunk a (sp_data line).1).
Proof.
  intros (Hs & Ho & Hr). split; [lia|].
  apply (f_equal length) in Hr. unfold read, slice in Hr.
  rewrite length_take, length_drop, length_app in Hr. simpl in Hr. unfold size. lia.
Qed.

Lemma write_bytes_fresh d bs :
  write_bytes (d ++ replicate (length bs) 0) (Z.of_nat (length d)) bs = d ++ bs.
Proof.
  unfold write_bytes. rewrite Nat2Z.id, take_app_length.
  rewrite drop_app_ge by lia. rewrite drop_ge; [by rewrite app_nil_r|].
  rewrite length_replicate. lia.
Qed.

Section StoreProps.

Variable kChunkSize : Z.
Variable git_object_id : list Z → git_oid.

Local Abbreviation alloc := (alloc kChunkSize).
Local Abbreviation ingest_line := (ingest_line kChunkSize).
Local Abbreviation ingest_loop := (ingest_loop kChunkSize).
Local Abbreviation update_stats := (update_stats kChunkSize git_object_id).
Local Abbreviation ingest_all := (ingest_all kChunkSize git_object_id).

Lemma alloc_spec (a : chunk_allocator) n :
  a ≠ [] →
  ∃ a1 c, (a1 = a ∨ a1 = a ++ [empty_chunk]) ∧ last a1 = Some c ∧
    alloc a n
    = ((current_chunk a1, size c),
       <[current_chunk a1 :=
           mkChunk (data c ++ replicate (Z.to_nat n) 0) (files c) (cur_file c)
                   (suffixes c) (cf_root c)]> a1).
Proof.
  intros Ha. unfold alloc. cbv zeta.
  match goal with |- context [if ?b then _ else _] => destruct b end.
  - exists (a ++ [empty_chunk]), empty_chunk. split; [by right|].
    split; [apply last_snoc|]. by rewrite last_snoc.
  - destruct (last a) as [c|] eqn:Hlast; [|by apply last_None in Hlast].
    exists a, c. split; [by left|]. split; [done|]. reflexivity.
Qed.

Lemma alloc_memcpy_data (a : chunk_allocator) bs :
  a ≠ [] →
  let pa := alloc a (Z.of_nat (length bs)) in
  let a2 := memcpy pa.2 pa.1 bs in
  a2 ≠ [] ∧ pa.1.2 = size (get_chunk a pa.1.1) ∧
  (∀ i, data (get_chunk a2 i)
        = if decide (i = pa.1.1) then data (get_chunk a i) ++ bs
          else data (get_chunk a i)) ∧
  chunk_bytes a2 = chunk_bytes a + Z.of_nat (length bs).
Proof.
  intros Ha. cbv zeta.
  destruct (alloc_spec a (Z.of_nat (length bs)) Ha) as (a1 & c & Ha1 & Hlast & ->).
  assert (Hid : a1 !! current_chunk a1 = Some c).
  { unfold current_chunk. rewrite <- Hlast, last_lookup. f_equal. lia. }
  assert (Hlt : (current_chunk a1 < length a1)%nat) by (by eapply lookup_lt_Some).
  cbn [fst snd].
  assert (Ha2 : memcpy (<[current_chunk a1 :=
                   mkChunk (data c ++ replicate (Z.to_nat (Z.of_nat (length bs))) 0)
                     (files c) (cur_file c) (suffixes c) (cf_root c)]> a1)
                  (current_chunk a1, size c) bs
                = <[current_chunk a1 :=
                      mkChunk (data c ++ bs) (files c) (cur_file c) (suffixes c)
                        (cf_root c)]> a1).
  { unfold memcpy. cbn [fst snd]. unfold chunk_allocator in *.
    rewrite list_lookup_insert_eq by done. cbn [data files cur_file suffixes cf_root].
    rewrite list_insert_insert_eq. rewrite Nat2Z.id.
    unfold size. by rewrite write_bytes_fresh. }
  rewrite Ha2. clear Ha2. unfold chunk_allocator in *.
  assert (Hget : ∀ i, get_chunk a1 i = get_chunk a i).
  { intros i. destruct Ha1 as [->| ->]; [done|]. unfold get_chunk, chunk_allocator.
    destruct (decide (i < length a)%nat).
    - by rewrite lookup_app_l.
    - rewrite lookup_app_r by lia. rewrite (lookup_ge_None_2 a) by lia.
      by destruct (i - length a)%nat as [|[|?]]. }
  assert (Hc : c = get_chunk a (current_chunk a1)).
  { rewrite <- Hget. unfold get_chunk, chunk_allocator. by rewrite Hid. }
  split.
  { intros H. apply (f_equal length) in H. rewrite length_insert in H. simpl in H. lia. }
  split; [by rewrite Hc|]. split.
  - intros i. case_decide as Hi.
    + subst i. unfold get_chunk at 1. unfold chunk_allocator.
      rewrite list_lookup_insert_eq by done. simpl. by rewrite Hc.
    + unfold get_chunk at 1. unfold chunk_allocator.
      rewrite list_lookup_insert_ne by done.
      rewrite <- Hget. done.
  - rewrite (chunk_bytes_insert _ _ c) by done. unfold size. simpl.
    rewrite length_app.
    destruct Ha1 as [->| ->]; [lia|]. rewrite chunk_bytes_app. simpl.
    unfold size. simpl. lia.
Qed.

Lemma add_chunk_file_data sf line c : data (add_chunk_file sf line c) = data c.
Proof.
  unfold add_chunk_file. destruct (cur_file c) as [|cf rest]; [done|].
  by destruct (_ && _).
Qed.

Lemma finish_file_data c : data (finish_file c) = data c.
Proof. done. Qed.

Lemma append_content_join cs line bytes f :
  store_inv cs → lines_ cs !! bytes = Some line → f ∈ files_ cs →
  append_content line f = f ∨
  sf_content (append_content line f) = sf_content f ++ [line].
Proof.
  intros Hinv Hline Hf. unfold append_content.
  destruct (last (sf_content f)) as [back|] eqn:Hlast; [|by right].
  case_bool_decide as Hjoin; [|by right]. left.
  apply last_Some in Hlast as [content Hcontent].
  destruct (store_pieces _ Hinv f back Hf) as [b' Hback].
  { rewrite Hcontent. apply elem_of_app. right. by left. }
  pose proof (line_stored_bound _ _ _ (store_lines _ Hinv _ _ Hback)) as [Hsb _].
  pose proof (line_stored_bound _ _ _ (store_lines _ Hinv _ _ Hline)) as [Hsl _].
  unfold ptr_add in Hjoin. apply (f_equal fst) in Hjoin as Hchunk.
  apply (f_equal snd) in Hjoin as Hoff. simpl in Hchunk, Hoff.
  destruct (decide (b' = bytes)) as [->|Hne].
  - assert (back = line) as -> by congruence.
    assert (sp_size line = 0) as Hzero by lia.
    rewrite Hcontent, removelast_last.
    replace (mkSP (sp_data line) ((sp_data line).2 - (sp_data line).2 + sp_size line))
      with line by (destruct line; simpl in *; f_equal; lia).
    destruct f. simpl in *. by rewrite Hcontent.
  - destruct (store_apart _ Hinv _ _ _ _ Hback Hline Hne) as [H|[H|H]]; [done|lia|lia].
Qed.

Lemma store_inv_append cs sf line bytes c cs' :
  store_inv cs → lines_ cs !! bytes = Some line →
  alloc_ cs' = alter (add_chunk_file sf line) c (alloc_ cs) →
  files_ cs' = alter (append_content line) sf (files_ cs) →
  lines_ cs' = lines_ cs →
  st_dedup_lines (stats_ cs') = st_dedup_lines (stats_ cs) →
  st_dedup_bytes (stats_ cs') = st_dedup_bytes (stats_ cs) →
  st_dedup_files (stats_ cs') = st_dedup_files (stats_ cs) →
  store_inv cs'.
Proof.
  intros Hinv Hline Halloc Hfiles Hlines Hdl Hdb Hdf.
  assert (Hdata : data <$> alter (add_chunk_file sf line) c (alloc_ cs)
                  = data <$> alloc_ cs).
  { apply fmap_alter_same. apply add_chunk_file_data. }
  split; rewrite ?Halloc, ?Hfiles, ?Hlines.
  - intros H. apply (f_equal length) in H. unfold chunk_allocator in *.
    rewrite length_alter in H.
    pose proof (store_alloc _ Hinv). by destruct (alloc_ cs).
  - intros b l Hl. eapply line_stored_ext; [symmetry; exact Hdata|].
    by apply (store_lines _ Hinv).
  - apply (store_apart _ Hinv).
  - intros f' piece Hf' Hpiece.
    apply list_elem_of_lookup in Hf' as [i Hi].
    destruct (decide (i = sf)) as [->|Hne].
    + rewrite list_lookup_alter_eq in Hi.
      destruct (files_ cs !! sf) as [f|] eqn:Hf; [|done]. simpl in Hi.
      injection Hi as <-.
      assert (f ∈ files_ cs) as Hfin by (by eapply list_elem_of_lookup_2).
      destruct (append_content_join cs line bytes f Hinv Hline Hfin) as [Heq|Heq].
      * rewrite Heq in Hpiece. by apply (store_pieces _ Hinv f).
      * rewrite Heq in Hpiece. apply elem_of_app in Hpiece as [Hp|Hp].
        -- by apply (store_pieces _ Hinv f).
        -- apply list_elem_of_singleton in Hp. subst piece. by exists bytes.
    + rewrite list_lookup_alter_ne in Hi by done.
      apply (store_pieces _ Hinv f'); [by eapply list_elem_of_lookup_2|done].
  - rewrite Hdl. apply (store_count_lines _ Hinv).
  - rewrite Hdb, (store_count_bytes _ Hinv). symmetry. by apply chunk_bytes_ext.
  - rewrite Hdf, length_alter. apply (store_count_files _ Hinv).
Qed.

Lemma slice_app_old (d bs : list Z) off n :
  0 ≤ off → 0 ≤ n → off + n ≤ Z.of_nat (length d) →
  slice (d ++ bs) off (off + n) = slice d off (off + n).
Proof.
  intros Hoff Hn Hfit. unfold slice.
  rewrite drop_app_le by lia. rewrite take_app_le; [done|].
  rewrite length_drop. lia.
Qed.

Lemma slice_app_fresh (d bs : list Z) :
  slice (d ++ bs) (Z.of_nat (length d)) (Z.of_nat (length d) + Z.of_nat (length bs)) = bs.
Proof.
  unfold slice. rewrite Nat2Z.id, drop_app_length.
  replace (Z.to_nat _) with (length bs) by lia. apply firstn_all.
Qed.

Lemma store_inv_intern cs bytes :
  store_inv cs → lines_ cs !! bytes = None →
  let len := Z.of_nat (length bytes) in
  let s := stats_ cs in
  let s' := mkStats (st_bytes s) (st_dedup_bytes s + (len + 1))
                    (st_lines s) (st_dedup_lines s + 1)
                    (st_files s) (st_dedup_files s) in
  let pa := alloc (alloc_ cs) (len + 1) in
  let a2 := memcpy pa.2 pa.1 (bytes ++ [NL]) in
  let line := mkSP pa.1 len in
  store_inv (set_lines_ (set_alloc_ (set_stats cs s') a2) (<[bytes := line]> (lines_ cs))).
Proof.
  intros Hinv Hnew len s s' pa a2 line.
  assert (Hlen : len + 1 = Z.of_nat (length (bytes ++ [NL])))
    by (rewrite length_app; simpl; lia).
  pose proof (alloc_memcpy_data (alloc_ cs) (bytes ++ [NL]) (store_alloc _ Hinv)) as Ham.
  rewrite <- Hlen in Ham. cbv zeta in Ham. fold pa in Ham. fold a2 in Ham.
  destruct Ham as (Hne & Hoff & Hdata & Hbytes).
  clearbody a2. clearbody pa. subst line s' s.
  assert (Hold : ∀ b l, lines_ cs !! b = Some l →
            line_stored a2 b l ∧ apart l (mkSP pa.1 len)).
  { intros b l Hl. pose proof (store_lines _ Hinv _ _ Hl) as Hst.
    pose proof (line_stored_bound _ _ _ Hst) as [Hs Hfit].
    destruct Hst as (Hsize & Ho & Hread). split.
    - split; [done|]. split; [done|]. rewrite <- Hread. unfold read.
      rewrite Hdata. case_decide; [|done].
      unfold size in Hfit. by rewrite slice_app_old by lia.
    - unfold apart. simpl. destruct (decide ((sp_data l).1 = pa.1.1)) as [Heq|]; [|by left].
      right. left. rewrite Hoff, <- Heq. lia. }
  split; simpl.
  - done.
  - intros b l [(<- & <-)|(Hb & Hl)]%lookup_insert_Some.
    + split; [done|]. simpl. split; [rewrite Hoff; unfold size; lia|].
      unfold read. rewrite Hdata, decide_True by done.
      rewrite Hoff. unfold size. rewrite Hlen. apply slice_app_fresh.
    + by apply Hold.
  - intros b1 b2 l1 l2 [(<- & <-)|(Hb1 & Hl1)]%lookup_insert_Some
                       [(<- & <-)|(Hb2 & Hl2)]%lookup_insert_Some Hne12.
    + done.
    + destruct (Hold _ _ Hl2) as [_ [H|[H|H]]]; unfold apart; simpl in *; auto.
    + by destruct (Hold _ _ Hl1).
    + by apply (store_apart _ Hinv b1 b2).
  - intros f piece Hf Hpiece.
    destruct (store_pieces _ Hinv f piece Hf Hpiece) as [b Hb]. exists b.
    rewrite lookup_insert_ne; [done|]. intros <-. congruence.
  - rewrite map_size_insert_None by done. rewrite (store_count_lines _ Hinv). lia.
  - rewrite Hbytes, (store_count_bytes _ Hinv). lia.
  - apply (store_count_files _ Hinv).
Qed.

Lemma ingest_line_store sf bytes cs :
  store_inv cs → store_inv (ingest_line sf bytes cs).
Proof.
  intros Hinv. unfold ingest_line.
  destruct (lines_ cs !! bytes) as [line|] eqn:Hl.
  - cbv zeta.
    by eapply (store_inv_append cs sf line bytes
                 (chunk_from_string (alloc_ cs) (sp_data line))).
  - pose proof (store_inv_intern cs bytes Hinv Hl) as H1. cbv zeta in H1.
    destruct (alloc (alloc_ cs) (Z.of_nat (length bytes) + 1)) as [p a1].
    cbn [fst snd] in H1. cbv zeta.
    eapply (store_inv_append _ sf (mkSP p (Z.of_nat (length bytes))) bytes
              (current_chunk (memcpy a1 p (bytes ++ [NL]))));
      [exact H1| |reflexivity..].
    simpl. apply lookup_insert_eq.
Qed.

Lemma ingest_loop_store fuel blob p sf cs :
  store_inv cs → store_inv (ingest_loop fuel blob p sf cs).
Proof.
  revert p cs. induction fuel as [|fuel IH]; intros p cs Hinv; [done|].
  cbn [ingest_loop]. destruct (memchr (drop p blob) NL) as [k|]; [|done].
  by apply IH, ingest_line_store.
Qed.

Lemma ingest_loop_files fuel blob p sf cs :
  length (files_ (ingest_loop fuel blob p sf cs)) = length (files_ cs).
Proof.
  pose proof (ingest_loop_view kChunkSize fuel blob p sf cs) as [_ H].
  apply (f_equal length) in H. by rewrite !length_fmap in H.
Qed.

Lemma update_stats_store cs ref path blob :
  store_inv cs → store_inv (update_stats cs ref path blob).
Proof.
  intros Hinv. unfold update_stats.
  destruct (memchr blob 0); [done|]. cbv zeta.
  destruct (file_map_ _ !! git_object_id blob) as [no|] eqn:Hm.
  - split; simpl; try apply Hinv.
    + intros f piece Hf Hpiece. apply list_elem_of_lookup in Hf as [i Hi].
      destruct (decide (i = no)) as [->|Hne].
      * rewrite list_lookup_alter_eq in Hi.
        destruct (files_ cs !! no) as [f0|] eqn:Hf0; [|done]. simpl in Hi.
        injection Hi as <-. simpl in Hpiece.
        apply (store_pieces _ Hinv f0); [by eapply list_elem_of_lookup_2|done].
      * rewrite list_lookup_alter_ne in Hi by done.
        apply (store_pieces _ Hinv f); [by eapply list_elem_of_lookup_2|done].
    + rewrite length_alter. apply Hinv.
  - match goal with |- context [ingest_loop ?f ?b ?p ?sf ?c] =>
      assert (Hstart : store_inv c);
      [|pose proof (ingest_loop_store f b p sf c Hstart) as Hloop;
        pose proof (ingest_loop_files f b p sf c) as Hfiles;
        destruct (ingest_loop f b p sf c) as [st a fin fs fm ls] eqn:Hrun]
    end.
    { split; simpl; try apply Hinv.
      - intros f piece [Hf|Hf]%elem_of_app Hpiece.
        + by apply (store_pieces _ Hinv f).
        + apply list_elem_of_singleton in Hf. subst f. simpl in Hpiece.
          by apply elem_of_nil in Hpiece.
      - rewrite length_app. simpl. rewrite (store_count_files _ Hinv). lia. }
    destruct Hloop as [Ha Hl Hap Hp Hcl Hcb Hcf]. simpl in *.
    split; simpl; try done.
    + intros H. apply fmap_nil_inv in H. done.
    + intros b l Hb. eapply line_stored_ext; [|by apply Hl].
      rewrite <- list_fmap_compose. by apply list_fmap_ext.
    + rewrite Hcb. apply chunk_bytes_ext.
      rewrite <- list_fmap_compose. by apply list_fmap_ext.
Qed.

Lemma new_code_searcher_store : store_inv new_code_searcher.
Proof.
  split; simpl; try done.
  - intros f piece Hf. by apply elem_of_nil in Hf.
Qed.

Lemma ingest_all_store l : store_inv (ingest_all new_code_searcher l).
Proof.
  induction l as [|e l IH] using rev_ind; [apply new_code_searcher_store|].
  rewrite ingest_all_snoc. by apply update_stats_store.
Qed.

(** After any sequence of ingestions, every line of the table [lines_] is
    stored in chunk memory where the table says, followed by its ['\n'];
    and the counters of distinct lines, distinct bytes and distinct files
    are the size of the table, the bytes the chunks hold and the number of
    files. *)
Theorem interned_lines_are_stored (l : list blob_entry) :
  let cs := ingest_all new_code_searcher l in
  map_Forall (λ bytes line,
      sp_bytes (alloc_ cs) line = bytes ∧
      read (alloc_ cs) (ptr_add (sp_data line) (sp_size line)) 1 = [NL])
    (lines_ cs) ∧
  st_dedup_lines (stats_ cs) = Z.of_nat (base.size (lines_ cs)) ∧
  st_dedup_bytes (stats_ cs) = chunk_bytes (alloc_ cs) ∧
  st_dedup_files (stats_ cs) = Z.of_nat (length (files_ cs)).
Proof.
  intros cs. pose proof (ingest_all_store l) as Hinv. fold cs in Hinv.
  split; [|split; [apply Hinv|split; apply Hinv]].
  intros bytes line Hline.
  destruct (store_lines _ Hinv _ _ Hline) as (Hsize & Hoff & Hread).
  unfold sp_bytes, read, slice, ptr_add in *. simpl.
  replace ((sp_data line).2 + (sp_size line + 1) - (sp_data line).2)
    with (sp_size line + 1) in Hread by lia.
  replace ((sp_data line).2 + sp_size line - (sp_data line).2)
    with (sp_size line) by lia.
  replace ((sp_data line).2 + sp_size line + 1 - ((sp_data line).2 + sp_size line))
    with 1 by lia.
  set (d := drop (Z.to_nat (sp_data line).2) (data (get_chunk (alloc_ cs) (sp_data line).1)))
    in *.
  assert (Hd : take (length bytes + 1) d = bytes ++ [NL]).
  { rewrite <- Hread. f_equal. lia. }
  split.
  - apply (f_equal (take (length bytes))) in Hd.
    rewrite take_take, take_app_length in Hd. rewrite <- Hd. f_equal. lia.
  - apply (f_equal (drop (length bytes))) in Hd.
    rewrite drop_app_length in Hd. rewrite <- Hd.
    replace (Z.to_nat ((sp_data line).2 + sp_size line))
      with (Z.to_nat (sp_data line).2 + length bytes)%nat by lia.
    subst d. rewrite <- drop_drop. rewrite <- take_drop_commute. done.
Qed.

(** After any sequence of ingestions, every piece of the content of every
    file is a line of the table [lines_]: the test that joins a line to the
    piece before it never makes a longer piece, and chunk memory holds a
    ['\n'] right after every piece, as the [assert] of [update_stats] says
    of the piece it extends. *)
Theorem content_pieces_are_lines (l : list blob_entry) :
  let cs := ingest_all new_code_searcher l in
  Forall (λ sf,
    Forall (λ piece,
      (∃ bytes, lines_ cs !! bytes = Some piece) ∧
      read (alloc_ cs) (ptr_add (sp_data piece) (sp_size piece)) 1 = [NL])
      (sf_content sf))
    (files_ cs).
Proof.
  intros cs. pose proof (ingest_all_store l) as Hinv. fold cs in Hinv.
  apply Forall_forall. intros sf Hsf. apply Forall_forall. intros piece Hpiece.
  destruct (store_pieces _ Hinv sf piece Hsf Hpiece) as [bytes Hline].
  split; [by exists bytes|].
  destruct (store_lines _ Hinv _ _ Hline) as (Hsize & Hoff & Hread).
  unfold read, slice, ptr_add in *. simpl.
  replace ((sp_data piece).2 + (sp_size piece + 1) - (sp_data piece).2)
    with (sp_size piece + 1) in Hread by lia.
  replace ((sp_data piece).2 + sp_size piece + 1 - ((sp_data piece).2 + sp_size piece))
    with 1 by lia.
  set (d := drop (Z.to_nat (sp_data piece).2)
              (data (get_chunk (alloc_ cs) (sp_data piece).1))) in *.
  assert (Hd : take (length bytes + 1) d = bytes ++ [NL]).
  { rewrite <- Hread. f_equal. lia. }
  apply (f_equal (drop (length bytes))) in Hd.
  rewrite drop_app_length in Hd. rewrite <- Hd.
  replace (Z.to_nat ((sp_data piece).2 + sp_size piece))
    with (Z.to_nat (sp_data piece).2 + length bytes)%nat by lia.
  subst d. rewrite <- drop_drop. rewrite <- take_drop_commute. done.
Qed.

(** In [update_stats] a line is joined to the piece before it only when it
    is the empty line and that piece is the same empty line, and then the
    content of the file does not change; in every other case the line is
    appended as a piece of its own.  (The lines of the table do not
    overlap, so no piece ends where another line starts.) *)
Theorem join_only_repeats_empty_line (cs : code_searcher) (line : StringPiece)
    (bytes : list Z) (f : search_file) :
  store_inv cs → lines_ cs !! bytes = Some line → f ∈ files_ cs →
  append_content line f =
    if bool_decide (last (sf_content f) = Some line ∧ sp_size line = 0) then f
    else mkSF (sf_paths f) (sf_oid f) (sf_no f) (sf_content f ++ [line]).
Proof.
  intros Hinv Hline Hf. unfold append_content.
  destruct (last (sf_content f)) as [back|] eqn:Hlast.
  2:{ rewrite bool_decide_eq_false_2; [done|]. by intros [? _]. }
  pose proof Hlast as Hlast'.
  apply last_Some in Hlast as [content Hcontent].
  destruct (store_pieces _ Hinv f back Hf) as [b' Hback].
  { rewrite Hcontent. apply elem_of_app. right. by left. }
  pose proof (line_stored_bound _ _ _ (store_lines _ Hinv _ _ Hback)) as [Hsb _].
  pose proof (line_stored_bound _ _ _ (store_lines _ Hinv _ _ Hline)) as [Hsl _].
  case_bool_decide as Hjoin.
  - unfold ptr_add in Hjoin. apply (f_equal fst) in Hjoin as Hchunk.
    apply (f_equal snd) in Hjoin as Hoff. simpl in Hchunk, Hoff.
    destruct (decide (b' = bytes)) as [->|Hne].
    + assert (back = line) as -> by congruence.
      assert (sp_size line = 0) as Hzero by lia.
      rewrite bool_decide_eq_true_2 by done.
      rewrite Hcontent, removelast_last.
      replace (mkSP (sp_data line) ((sp_data line).2 - (sp_data line).2 + sp_size line))
        with line by (destruct line; simpl in *; f_equal; lia).
      destruct f. simpl in *. by rewrite Hcontent.
    + destruct (store_apart _ Hinv _ _ _ _ Hback Hline Hne) as [H|[H|H]]; [done|lia|lia].
  - rewrite bool_decide_eq_false_2; [done|]. intros [[= ->] Hzero].
    apply Hjoin. unfold ptr_add. rewrite Hzero, Z.add_0_r. by destruct (sp_data line).
Qed.

End StoreProps.

Lemma join_only_repeats_empty_line_witness :
  let cs := ingest_all scenario_chunk_size content_id new_code_searcher
              [("r", "f", bytes_of ("a" +:+ nl +:+ nl))] in
  let line := mkSP (0%nat, 2) 0 in
  let f := the_file cs 0 in
  sf_content f = [mkSP (0%nat, 0) 1; line] ∧ append_content line f = f.
Proof.
  split; [reflexivity|].
  rewrite (join_only_repeats_empty_line
             (ingest_all scenario_chunk_size content_id new_code_searcher
                [("r", "f", bytes_of ("a" +:+ nl +:+ nl))])
             (mkSP (0%nat, 2) 0) []).
  - by rewrite bool_decide_eq_true_2.
  - apply ingest_all_store.
  - reflexivity.
  - vm_compute. left.
Defined.

(** ** The walk of a tree *)

Lemma ingest_all_app kChunkSize git_object_id cs l1 l2 :
  ingest_all kChunkSize git_object_id cs (l1 ++ l2)
  = ingest_all kChunkSize git_object_id (ingest_all kChunkSize git_object_id cs l1) l2.
Proof. unfold ingest_all. by rewrite foldl_app. Qed.

Lemma walk_tree_flat (kChunkSize : Z) (git_object_id : list Z → git_oid)
    (ref : string) (tree : git_object) (pfx : string) (cs : code_searcher) :
  walk_tree kChunkSize git_object_id ref pfx tree cs
  = ingest_all kChunkSize git_object_id cs (tree_blobs ref pfx tree).
Proof.
  revert tree pfx cs. fix IH 1. intros [b|entries|] pfx cs; [done| |done].
  cbn [walk_tree tree_blobs]. revert entries cs.
  fix IHes 1. intros [|[name obj] es] cs; [done|].
  rewrite ingest_all_app, <- IHes. f_equal.
  pose proof (IH obj) as Hobj.
  destruct obj as [b|sub|]; [done| |done]. apply Hobj.
Qed.

Lemma walk_steps_flat (kChunkSize : Z) (git_object_id : list Z → git_oid)
    (ref : string) (es : list (string * git_object)) (cs : code_searcher) :
  foldl (λ cs e, walk_step kChunkSize git_object_id
                   (walk_tree kChunkSize git_object_id ref) ref e.1 e.2 cs) cs es
  = ingest_all kChunkSize git_object_id cs (tree_blobs ref "" (GitTree es)).
Proof.
  cbn [tree_blobs]. revert cs.
  induction es as [|[name obj] es IHes]; intros cs; [done|].
  rewrite ingest_all_app, <- IHes. cbn [foldl fst snd]. f_equal.
  destruct obj as [b|sub|]; [done| |done].
  apply (walk_tree_flat _ _ ref (GitTree sub)).
Qed.

Lemma ingest_all_keeps_store kChunkSize git_object_id cs l :
  store_inv cs → store_inv (ingest_all kChunkSize git_object_id cs l).
Proof.
  intros Hinv. induction l as [|e l IH] using rev_ind; [done|].
  rewrite ingest_all_snoc. by apply update_stats_store.
Qed.

(** [walk_tree] hands the blobs of the tree to [update_stats] one by one,
    each under its path from the prefix, in the order of the tree with
    the blobs of a subtree in the place of the subtree; an object that is
    neither a blob nor a tree is passed over.  [walk_root] does the same
    for the root tree, with the empty prefix and its entries in the order
    [root_order] gives them. *)
Theorem walk_root_ingests_blobs_in_order (kChunkSize : Z)
    (git_object_id : list Z → git_oid) (order_root : list string)
    (ref : string) (entries : list (string * git_object)) (cs : code_searcher) :
  walk_root kChunkSize git_object_id order_root ref (GitTree entries) cs
  = ingest_all kChunkSize git_object_id cs
      (tree_blobs ref "" (GitTree (root_order order_root entries))) ∧
  ∀ pfx tree,
    walk_tree kChunkSize git_object_id ref pfx tree cs
    = ingest_all kChunkSize git_object_id cs (tree_blobs ref pfx tree).
Proof.
  split; [apply walk_steps_flat|]. intros pfx tree. apply walk_tree_flat.
Qed.

(** A walk keeps the store as [update_stats] needs it: after [walk_root]
    on any tree the lines of the table are still stored where the table
    says, the pieces of every file are lines of the table, and the
    counters agree with the tables. *)
Theorem walk_root_keeps_store (kChunkSize : Z)
    (git_object_id : list Z → git_oid) (order_root : list string)
    (ref : string) (tree : git_object) (cs : code_searcher) :
  store_inv cs →
  store_inv (walk_root kChunkSize git_object_id order_root ref tree cs).
Proof.
  intros Hinv. destruct tree as [b|entries|]; [done| |done].
  unfold walk_root. rewrite walk_steps_flat. by apply ingest_all_keeps_store.
Qed.










Lemma walk_root_keeps_store_witness :
  store_inv
    (walk_root 64 (λ b, b) ["src"] "HEAD"
       (GitTree [("README", GitBlob (bytes_of ("hi" +:+ nl)));
                 ("src", GitTree [("a", GitBlob (bytes_of ("foo" +:+ nl)))])])
       new_code_searcher).
Proof.
  apply (walk_root_keeps_store 64 (λ b, b) ["src"] "HEAD"
           (GitTree [("README", GitBlob (bytes_of ("hi" +:+ nl)));
                     ("src", GitTree [("a", GitBlob (bytes_of ("foo" +:+ nl)))])])
           new_code_searcher).
  apply new_code_searcher_store.
Defined.

(** ** Searches that satisfy what the properties of a search assume *)

Lemma corpus_a_holds_data : chunks_hold_data corpus_a.
Proof. apply (bool_decide_unpack _). vm_compute. exact I. Qed.

Lemma corpus_two_paths_holds_data : chunks_hold_data corpus_two_paths.
Proof. apply (bool_decide_unpack _). vm_compute. exact I. Qed.

Lemma scan_keeps_searcher_sound_witness :
  let s := new_searcher default_flags corpus_a in
  let s' := (search_chunk default_flags scenario_chunk_size corpus_a
               (re2_match [Lit 98; Lit 97; Dot]) None
               (Some (indexRE [Lit 98; Lit 97; Dot])) utf8_is_valid utf8_distance
               frozen_clock zero_rand 0 s).2 in
  one_at_a_time 4 corpus_a ∧ size (the_chunk corpus_a 0) = 12 ∧
  matches_ s' = 2 ∧
  sound default_flags corpus_a None frozen_clock 1 0 s' ∧ advances s 0 s'.
Proof.
  assert (H1 : one_at_a_time 4 corpus_a) by (split; [lia|right; vm_compute; lia]).
  split; [exact H1|]. split; [reflexivity|]. split; [reflexivity|].
  apply (scan_keeps_searcher_sound default_flags scenario_chunk_size corpus_a
           (re2_match [Lit 98; Lit 97; Dot]) None
           (Some (indexRE [Lit 98; Lit 97; Dot])) utf8_is_valid utf8_distance
           frozen_clock zero_rand 1 4 0 (new_searcher default_flags corpus_a) H1).
  - reflexivity.
  - apply re2_match_in_window.
  - apply new_searcher_sound.
Defined.

Lemma results_are_counted_witness :
  let s := (search_all default_flags scenario_chunk_size corpus_a
              (re2_match [Lit 98; Lit 97; Dot]) None
              (Some (indexRE [Lit 98; Lit 97; Dot])) utf8_is_valid utf8_distance
              frozen_clock zero_rand (seq 0 (length (alloc_ corpus_a)))
              (new_searcher default_flags corpus_a)).2 in
  one_at_a_time 4 corpus_a ∧
  matches_ s = 2 ∧ length (results (queue_ s)) = 2%nat ∧
  sentinels (queue_ s) = 1%nat.
Proof.
  assert (H1 : one_at_a_time 4 corpus_a) by (split; [lia|right; vm_compute; lia]).
  destruct (results_are_counted 4 default_flags scenario_chunk_size corpus_a
              (re2_match [Lit 98; Lit 97; Dot]) None
              (Some (indexRE [Lit 98; Lit 97; Dot])) utf8_is_valid utf8_distance
              frozen_clock zero_rand eq_refl H1 corpus_a_holds_data
              (re2_match_in_window _)) as [Hm Hn].
  split; [exact H1|]. split; [reflexivity|]. split; [reflexivity|]. exact Hn.
Defined.

Lemma match_cap_overshoot_bound_witness :
  let fl := Flags true true 1 1 in
  one_at_a_time 1 corpus_two_paths ∧
  paths_bounded corpus_two_paths 2 ∧
  length (run_query fl corpus_two_paths [Lit 120] None).1 = 2%nat ∧
  Z.of_nat (length (run_query fl corpus_two_paths [Lit 120] None).1) ≤ 2.
Proof.
  assert (H1 : one_at_a_time 1 corpus_two_paths) by (split; [lia|by left]).
  assert (HP : paths_bounded corpus_two_paths 2).
  { intros [|no]; vm_compute; discriminate. }
  split; [exact H1|]. split; [exact HP|]. split; [reflexivity|].
  apply (match_cap_overshoot_bound 1 (Flags true true 1 1) scenario_chunk_size
           corpus_two_paths (re2_match [Lit 120]) None (Some (indexRE [Lit 120]))
           utf8_is_valid utf8_distance frozen_clock zero_rand 2 eq_refl H1
           corpus_two_paths_holds_data (re2_match_in_window _) HP).
Defined.

Lemma exit_reason_is_justified_witness :
  let fl := Flags true true 1 0 in
  let r := run_query fl corpus_a [Lit 98; Lit 97; Dot] None in
  one_at_a_time 1 corpus_a ∧
  r.2 = kExitMatchLimit ∧ 1 ≤ Z.of_nat (length r.1) ∧ r.2 ≠ kExitTimeout.
Proof.
  assert (H1 : one_at_a_time 1 corpus_a) by (split; [lia|by left]).
  destruct (exit_reason_is_justified 1 (Flags true true 1 0) scenario_chunk_size
              corpus_a (re2_match [Lit 98; Lit 97; Dot]) None
              (Some (indexRE [Lit 98; Lit 97; Dot]))
              utf8_is_valid utf8_distance frozen_clock zero_rand eq_refl H1
              corpus_a_holds_data (re2_match_in_window _)) as [Hlim Htime].
  split; [exact H1|]. split; [reflexivity|]. split.
  - apply Hlim. reflexivity.
  - apply Htime; [simpl; lia|]. intros n. vm_compute. reflexivity.
Defined.

Lemma results_are_well_formed_witness :
  let r := run_query default_flags corpus_two_paths [Lit 120] None in
  one_at_a_time 4 corpus_two_paths ∧
  length r.1 = 2%nat ∧ Forall (result_ok corpus_two_paths None) r.1.
Proof.
  assert (H1 : one_at_a_time 4 corpus_two_paths) by (split; [lia|right; vm_compute; lia]).
  split; [exact H1|]. split; [reflexivity|].
  apply (results_are_well_formed 4 default_flags scenario_chunk_size
           corpus_two_paths (re2_match [Lit 120]) None (Some (indexRE [Lit 120]))
           utf8_is_valid utf8_distance frozen_clock zero_rand eq_refl H1
           corpus_two_paths_holds_data (re2_match_in_window _)).
Defined.
